(** * Integer.h: arbitrary-precision decimal integers in base 10^8

    A shallow embedding of [UnsignedInteger] and [SignedInteger] from
    [src/Integer.h], built with [ENABLE_VALIDITY_CHECK] defined, so that every
    [VALIDITY_CHECK] throws [std::invalid_argument] when its condition fails.

    Conventions of the embedding:
    - a limb ([std::uint32_t]) is a [Z]; every 32-bit and 64-bit operation of
      the source is followed by its wrap-around ([wrap32], [wrap64], [int64]);
    - the limb array [digits[0 .. length)] of an object is a [list Z], least
      significant limb first; the logical [length] is the length of the list;
    - a thrown exception, a read or a write outside the allocated array and
      an exhausted loop budget are the three ways an [outcome] is not [Ok];
    - the right operand of an in-place operator is given by its limbs when
      it is another object than [*this], which the operator only reads; the
      call [x += x], where the operator reads the array it is writing, is
      modelled apart ([addAssignSelf]);
    - the floating-point transform pipeline of [operator*=] (encode, forward
      DIF, packed pointwise multiply, inverse DIT, round and carry) is a
      parameter [transformProduct] of the sections that need it: it stands
      for the limbs that pipeline leaves in [result.digits]. *)

From Stdlib Require Import ZArith Lia List Ascii String Floats.
From stdpp Require Import base tactics option list gmap strings.

#[local] Open Scope Z_scope.

(** ** Machine arithmetic *)

Definition wrap32 (x : Z) : Z := x mod 2 ^ 32.
Definition wrap64 (x : Z) : Z := x mod 2 ^ 64.

(** Conversion of a 32-bit pattern to [std::int32_t]. *)
Definition int32 (x : Z) : Z :=
if decide (wrap32 x < 2 ^ 31) then wrap32 x else wrap32 x - 2 ^ 32.

(** Conversion of a 64-bit pattern to [std::int64_t]. *)
Definition int64 (x : Z) : Z :=
if decide (wrap64 x < 2 ^ 63) then wrap64 x else wrap64 x - 2 ^ 64.

(** ** Outcomes *)

(** The [VALIDITY_CHECK]s of the source, by the operation that raises them. *)
Inductive check : Set :=
| SubtractionUnderflow
| DecrementOfZero
| LeftOperandExceedsLimit
| RightOperandExceedsLimit
| DivisorIsZero
| ModulusIsZero
| NegativeSource
| NotFinite
| EmptyString
| NonDigitCharacter.

Inductive failure : Set :=
| invalid_argument (c : check)
| OutOfBounds
| OutOfFuel.

Inductive outcome (A : Type) : Type :=
| Ok (a : A)
| Fail (f : failure).

Arguments Ok {A} a.
Arguments Fail {A} f.

#[global] Instance outcome_ret : MRet outcome := λ A a, Ok a.

#[global] Instance outcome_bind : MBind outcome := λ A B f m,
match m with
| Ok a => f a
| Fail e => Fail e
end.

Definition throw {A} (c : check) : outcome A := Fail (invalid_argument c).

(** [VALIDITY_CHECK(condition, std::invalid_argument, message)]. *)
Definition VALIDITY_CHECK (condition : bool) (c : check) : outcome unit :=
if condition then Ok () else throw c.

(** The right operand of a compound assignment: another object, given by
    what the operator reads of it, or the left operand itself. *)
Inductive operand (A : Type) : Type :=
| Another (other : A)
| Itself.

Arguments Another {A} other.
Arguments Itself {A}.

(** * [class UnsignedInteger] *)

Module UnsignedInteger.

(** ** Constants *)

Definition Base : Z := 100000000.
Definition TransformLimit : Z := 4194304.
Definition BruteforceThreshold : Z := 64.

(** ** Limb arrays *)

(** Length of a limb array as an unbounded integer. *)
Definition len (digits : list Z) : Z := Z.of_nat (length digits).

(** [for (; length > 1 && !digits[length - 1]; --length);] *)
Fixpoint trimLength (digits : list Z) (length : nat) : nat :=
match length with
| S (S _ as shorter) =>
    if decide (digits !!! shorter = 0) then trimLength digits shorter else length
| _ => length
end.

Definition trim (digits : list Z) : list Z :=
take (trimLength digits (length digits)) digits.

(** [UnsignedInteger()] *)
Definition zero : list Z := [0].

(** [operator bool]: [length != 1 || *digits]. *)
Definition toBool (this : list Z) : bool :=
negb (length this =? 1)%nat || negb (this !!! 0%nat =? 0).

(** ** Comparison *)

(** [std::memcmp(first + start, second + start, count << 2) != 0]. *)
Definition memcmpDiffers (first second : list Z) (start count : nat) : bool :=
bool_decide (take count (drop start first) ≠ take count (drop start second)).

(** The element scan of [reverseCompare], from [start + count] down to
    [start]: the difference of the first pair that differs. *)
Fixpoint scanBlock (first second : list Z) (start count : nat) : option Z :=
match count with
| O => None
| S below =>
    let i := (start + below)%nat in
    if decide (first !!! i ≠ second !!! i)
    then Some (int32 (wrap32 (first !!! i - second !!! i)))
    else scanBlock first second start below
end.

(** The [while (firstBlockPointer != digits)] loop over 64-limb blocks;
    [blocks] is the number of whole blocks still below the block pointer. *)
Fixpoint compareBlocks (first second : list Z) (blocks : nat) : Z :=
match blocks with
| O => 0
| S below =>
    let start := (64 * below)%nat in
    match (if memcmpDiffers first second start 64
           then scanBlock first second start 64 else None) with
    | Some difference => difference
    | None => compareBlocks first second below
    end
end.

Definition reverseCompare (this other : list Z) : Z :=
let remaining := (length this mod 64)%nat in
let firstBlock := (length this - remaining)%nat in
match (if memcmpDiffers this other firstBlock remaining
       then scanBlock this other firstBlock remaining else None) with
| Some difference => difference
| None => compareBlocks this other (firstBlock / 64)%nat
end.

(** [operator==], [operator<], [operator>], [operator<=], [operator>=]. *)
Definition eqb (this other : list Z) : bool :=
(length this =? length other)%nat && negb (memcmpDiffers this other 0 (length this)).

Definition ltb (this other : list Z) : bool :=
(length this <? length other)%nat
|| ((length this =? length other)%nat && (reverseCompare this other <? 0)).

Definition gtb (this other : list Z) : bool :=
(length other <? length this)%nat
|| ((length this =? length other)%nat && (0 <? reverseCompare this other)).

Definition leb (this other : list Z) : bool :=
(length this <? length other)%nat
|| ((length this =? length other)%nat && (reverseCompare this other <=? 0)).

Definition geb (this other : list Z) : bool :=
(length other <? length this)%nat
|| ((length this =? length other)%nat && (0 <=? reverseCompare this other)).

(** ** Addition and increment *)

(** The first loop of [operator+=], walking the limbs of [other]:
    [if (( *thisDigit += *otherDigit) >= Base) *thisDigit -= Base, ++*(thisDigit + 1);] *)
Fixpoint addLimbs (other : list Z) (i : nat) (digits : list Z) : list Z :=
match other with
| [] => digits
| otherDigit :: rest =>
    let sum := wrap32 (digits !!! i + otherDigit) in
    let digits := <[i := sum]> digits in
    let digits :=
      if decide (Base ≤ sum)
      then <[S i := wrap32 (digits !!! S i + 1)]> (<[i := wrap32 (sum - Base)]> digits)
      else digits in
    addLimbs rest (S i) digits
end.

(** [for (; thisDigit != thisEnd && *thisDigit >= Base; *thisDigit -= Base, ++*++thisDigit);]
    [distance] is [thisEnd - thisDigit]; the loop returns the final position
    of [thisDigit] too. *)
Fixpoint propagateCarry (distance : nat) (i : nat) (digits : list Z) : list Z * nat :=
match distance with
| O => (digits, i)
| S closer =>
    if decide (Base ≤ digits !!! i)
    then propagateCarry closer (S i)
           (<[S i := wrap32 (digits !!! S i + 1)]> (<[i := wrap32 (digits !!! i - Base)]> digits))
    else (digits, i)
end.

(** [operator+=] with a right operand that is another object than [*this]:
    its limbs [other] stay as they are while the operator runs. *)
Definition addAssign (this other : list Z) : list Z :=
let digits :=
  if decide (length this ≤ length other)%nat
  then this ++ replicate (length other + 1 - length this) 0
  else this in
let thisEnd := (length digits - 1)%nat in
let digits := addLimbs other 0 digits in
let digits := (propagateCarry (thisEnd - length other) (length other) digits).1 in
trim digits.

(** The first loop of [operator+=] when [other] is [*this]: [*otherDigit] is
    the limb that [*thisDigit += *otherDigit] is writing, and [count] is the
    number of limbs still to walk. *)
Fixpoint doubleLimbs (count : nat) (i : nat) (digits : list Z) : outcome (list Z) :=
match count with
| O => Ok digits
| S count =>
    let sum := wrap32 (digits !!! i + digits !!! i) in
    let digits := <[i := sum]> digits in
    if decide (Base ≤ sum)
    then
      if decide (S i < length digits)%nat
      then doubleLimbs count (S i)
             (<[S i := wrap32 (digits !!! S i + 1)]> (<[i := wrap32 (sum - Base)]> digits))
      else Fail OutOfBounds
    else doubleLimbs count (S i) digits
end.

(** The second loop of [operator+=] when it starts beyond [thisEnd]:
    [thisDigit != thisEnd] holds at every step, and the loop ends at a limb
    below [Base] or leaves the array; [room] is the number of limbs of the
    array from [thisDigit] on. *)
Fixpoint carryBeyond (room : nat) (i : nat) (digits : list Z) : outcome (list Z) :=
match room with
| O => Fail OutOfBounds
| S room =>
    if decide (Base ≤ digits !!! i)
    then carryBeyond room (S i)
           (<[S i := wrap32 (digits !!! S i + 1)]> (<[i := wrap32 (digits !!! i - Base)]> digits))
    else Ok digits
end.

(** [x += x]. The object owns [array], whose length is its capacity, and
    has [length] limbs. As [length <= other.length], [resize(other.length + 1)]
    runs, into a new array of [length + 1] limbs when the capacity is
    smaller; from then on [other.length] is [length + 1] as well, so the
    first loop walks [length + 1] limbs and leaves [thisDigit] one limb
    beyond [thisEnd]. *)
Definition addAssignSelf (array : list Z) (length : nat) : outcome (list Z) :=
let digits :=
  if decide (List.length array < length + 1)%nat
  then take length array ++ [0]
  else <[length := 0]> array in
digits ← doubleLimbs (length + 1) 0 digits;
digits ← carryBeyond (List.length digits - (length + 1)) (length + 1) digits;
Ok (trim (take (length + 1) digits)).

(** [*this += other] on the object that owns [array] and has [length]
    limbs. *)
Definition addAssignOn (array : list Z) (length : nat) (other : operand (list Z))
  : outcome (list Z) :=
match other with
| Another other => Ok (addAssign (take length array) other)
| Itself => addAssignSelf array length
end.

(** [operator++] *)
Definition increment (this : list Z) : list Z :=
let thisEnd := (length this - 1)%nat in
let digits := <[0%nat := wrap32 (this !!! 0%nat + 1)]> this in
let '(digits, thisDigit) := propagateCarry thisEnd 0 digits in
if decide (thisDigit = thisEnd ∧ Base ≤ digits !!! thisDigit)
then <[(length this - 1)%nat := wrap32 (digits !!! (length this - 1)%nat - Base)]> digits ++ [1]
else digits.

(** ** Subtraction and decrement *)

(** The first loop of [operator-=]:
    [if (( *thisDigit -= *otherDigit) >= Base) *thisDigit += Base, --*(thisDigit + 1);] *)
Fixpoint subLimbs (other : list Z) (i : nat) (digits : list Z) : list Z :=
match other with
| [] => digits
| otherDigit :: rest =>
    let difference := wrap32 (digits !!! i - otherDigit) in
    let digits := <[i := difference]> digits in
    let digits :=
      if decide (Base ≤ difference)
      then <[S i := wrap32 (digits !!! S i - 1)]> (<[i := wrap32 (difference + Base)]> digits)
      else digits in
    subLimbs rest (S i) digits
end.

(** [for (; thisDigit != thisEnd && *thisDigit >= Base; *thisDigit += Base, --*++thisDigit);] *)
Fixpoint propagateBorrow (distance : nat) (i : nat) (digits : list Z) : list Z :=
match distance with
| O => digits
| S closer =>
    if decide (Base ≤ digits !!! i)
    then propagateBorrow closer (S i)
           (<[S i := wrap32 (digits !!! S i - 1)]> (<[i := wrap32 (digits !!! i + Base)]> digits))
    else digits
end.

(** [operator-=]; here [thisEnd] is [digits + length]. *)
Definition subAssign (this other : list Z) : outcome (list Z) :=
_ ← VALIDITY_CHECK (geb this other) SubtractionUnderflow;
let digits := subLimbs other 0 this in
let digits := propagateBorrow (length this - length other) (length other) digits in
Ok (trim digits).

(** [operator--]: no trailing-zero loop follows the borrow loop. *)
Definition decrement (this : list Z) : outcome (list Z) :=
_ ← VALIDITY_CHECK (toBool this) DecrementOfZero;
let digits := <[0%nat := wrap32 (this !!! 0%nat - 1)]> this in
Ok (propagateBorrow (length this - 1) 0 digits).

(** ** Limb shifts *)

Definition rightShift (this : list Z) (shiftAmount : nat) : list Z :=
if decide (length this ≤ shiftAmount)%nat then zero
else trim (drop shiftAmount this).

Definition leftShift (this : list Z) (shiftAmount : nat) : list Z :=
if decide (length this = 0 ∨ shiftAmount = 0)%nat then this
else replicate shiftAmount 0 ++ this.

(** ** Schoolbook multiplication *)

(** The inner loop of the schoolbook branch of [operator*=]:
    [for (j = ...; j <= i && j < other.length; ++j) carry += uint64(digits[i - j]) * other.digits[j];]
    [steps] bounds the number of iterations; [length other] always suffices. *)
Fixpoint columnSum (this other : list Z) (i : nat) (steps : nat) (j : nat) (carry : Z) : Z :=
match steps with
| O => carry
| S fewer =>
    if decide (j ≤ i ∧ j < length other)%nat
    then columnSum this other i fewer (S j)
           (wrap64 (carry + wrap64 (this !!! (i - j)%nat * other !!! j)))
    else carry
end.

(** The outer loop: one limb [carry % Base] per output position, [count]
    positions from [i] on; returns the limbs written and the last carry. *)
Fixpoint schoolbookColumns (this other : list Z) (count : nat) (i : nat) (carry : Z)
  : list Z * Z :=
match count with
| O => ([], carry)
| S fewer =>
    let first := if decide (length this ≤ i)%nat then (i - length this + 1)%nat else 0%nat in
    let carry := columnSum this other i (length other) first carry in
    let '(higher, last) := schoolbookColumns this other fewer (S i) (carry / Base) in
    (wrap32 (carry mod Base) :: higher, last)
end.

Definition schoolbookMultiply (this other : list Z) : list Z :=
let '(digits, carry) :=
  schoolbookColumns this other (length this + length other - 1) 0 0 in
let digits := if decide (carry ≠ 0) then digits ++ [wrap32 carry] else digits in
trim digits.

(** ** Schoolbook division with remainder *)

(** The lambda [getEstimatedValue] of [bruteforceDivisionAndModulus]. *)
Definition getEstimatedValue (digitArray : list Z) (highIndex arrayLength : nat) : Z :=
wrap64
  (wrap64
     (wrap64 (wrap64 (10 * Base)
              * (if decide (highIndex + 1 < arrayLength)%nat
                 then digitArray !!! (highIndex + 1)%nat else 0))
      + wrap64 (10 * digitArray !!! highIndex))
   + (if decide (highIndex ≠ 0%nat) then digitArray !!! (highIndex - 1)%nat else 0)
     / (Base / 10)).

(** The loop of the lambda [performSubtraction], at array position
    [i = currentPosition + digitIndex]; [carry] is a [std::int64_t]. *)
Fixpoint subtractProduct (divisor : list Z) (partialQuotient : Z) (i : nat) (carry : Z)
  (remainder : list Z) : list Z * Z :=
match divisor with
| [] => (remainder, carry)
| divisorDigit :: rest =>
    let carry :=
      int64 (int64 (carry - int64 (partialQuotient * divisorDigit)) + remainder !!! i) in
    let limb := wrap32 (carry `rem` Base) in
    let carry := carry `quot` Base in
    let '(limb, carry) :=
      if decide (Base ≤ limb) then (wrap32 (limb + Base), int64 (carry - 1))
      else (limb, carry) in
    subtractProduct rest partialQuotient (S i) carry (<[i := limb]> remainder)
end.

(** The lambda [performSubtraction]. The write of a non-zero final carry at
    [currentPosition + divisor.length] lands outside the array of
    [remainder] when that index is its length. *)
Definition performSubtraction (divisor : list Z) (partialQuotient : Z)
  (currentPosition : nat) (remainder quotient : list Z) : outcome (list Z * list Z) :=
let '(remainder, carry) :=
  subtractProduct divisor partialQuotient currentPosition 0 remainder in
let top := (currentPosition + length divisor)%nat in
remainder ←
  (if decide (carry ≠ 0)
   then if decide (top < length remainder)%nat
        then Ok (<[top := wrap32 (remainder !!! top + wrap32 carry)]> remainder)
        else Fail OutOfBounds
   else Ok remainder);
Ok (remainder,
    <[currentPosition := wrap32 (quotient !!! currentPosition + partialQuotient)]> quotient).

(** [for (...; (partialQuotient = uint32(estimate / (estimate + 1))); performSubtraction());] *)
Fixpoint estimateLoop (fuel : nat) (divisor : list Z) (currentPosition : nat)
  (remainder quotient : list Z) : outcome (list Z * list Z) :=
match fuel with
| O => Fail OutOfFuel
| S fuel =>
    let partialQuotient :=
      wrap32
        (getEstimatedValue remainder (currentPosition + length divisor - 1) (length remainder)
         / wrap64 (getEstimatedValue divisor (length divisor - 1) (length divisor) + 1)) in
    if decide (partialQuotient ≠ 0)
    then
      '(remainder, quotient) ←
        performSubtraction divisor partialQuotient currentPosition remainder quotient;
      estimateLoop fuel divisor currentPosition remainder quotient
    else Ok (remainder, quotient)
end.

(** The final comparison of the window of [remainder] at [currentPosition]
    with [divisor], from [digitIndex] down: the value left in
    [partialQuotient]. *)
Fixpoint compareWindow (divisor remainder : list Z) (currentPosition digitIndex : nat) : Z :=
match digitIndex with
| O => 1
| S digitIndex =>
    if decide (remainder !!! (digitIndex + currentPosition)%nat ≠ divisor !!! digitIndex)
    then if decide (divisor !!! digitIndex < remainder !!! (digitIndex + currentPosition)%nat)
         then 1 else 0
    else compareWindow divisor remainder currentPosition digitIndex
end.

(** The loop over [currentPosition], from [positions - 1] down to [0]. *)
Fixpoint divideAt (fuel : nat) (divisor : list Z) (positions : nat)
  (remainder quotient : list Z) : outcome (list Z * list Z) :=
match positions with
| O => Ok (remainder, quotient)
| S currentPosition =>
    let quotient := <[currentPosition := 0]> quotient in
    '(remainder, quotient) ← estimateLoop fuel divisor currentPosition remainder quotient;
    '(remainder, quotient) ←
      (if decide (compareWindow divisor remainder currentPosition (length divisor) ≠ 0)
       then performSubtraction divisor 1 currentPosition remainder quotient
       else Ok (remainder, quotient));
    divideAt fuel divisor currentPosition remainder quotient
end.

Definition bruteforceDivisionAndModulus (fuel : nat) (this divisor : list Z)
  : outcome (list Z * list Z) :=
if ltb this divisor then Ok (zero, this)
else
  let positions := (length this - length divisor + 1)%nat in
  '(remainder, quotient) ← divideAt fuel divisor positions this (replicate positions 0);
  Ok (trim quotient, trim remainder).

(** ** Multiplication, reciprocal and division over the transform engine *)

Section Engine.

(** The limbs [result.digits[0 .. length + other.length)] left by the
    transform branch of [operator*=]: both operands encoded as complex
    samples, transformed, multiplied pointwise, transformed back, rounded
    and carried. It is floating-point code and stays abstract. *)
Variable transformProduct : list Z → list Z → list Z.

(** [operator*=] *)
Definition mulAssign (this other : list Z) : outcome (list Z) :=
if decide (len this < BruteforceThreshold ∨ len other < BruteforceThreshold)
then Ok (schoolbookMultiply this other)
else
  _ ← VALIDITY_CHECK (bool_decide (len this ≤ TransformLimit)) LeftOperandExceedsLimit;
  _ ← VALIDITY_CHECK (bool_decide (len other ≤ TransformLimit)) RightOperandExceedsLimit;
  Ok (trim (transformProduct this other)).

(** [computeInverse]; the numerator of the direct branch is
    [Base ^ precisionBits]. The 32-bit differences of the recursive branch
    carry their wrap-around. *)
Fixpoint computeInverse (fuel : nat) (this : list Z) (precisionBits : Z)
  : outcome (list Z) :=
match fuel with
| O => Fail OutOfFuel
| S fuel =>
    if decide (len this < BruteforceThreshold
               ∨ precisionBits < wrap32 (len this + BruteforceThreshold))
    then
      let numerator := replicate (Z.to_nat precisionBits) 0 ++ [1] in
      '(quotient, _) ← bruteforceDivisionAndModulus (S fuel) numerator this;
      Ok quotient
    else
      let halfPrecision := wrap32 (precisionBits - len this + 5) ≫ 1 in
      let shiftBack :=
        if decide (len this < halfPrecision) then 0 else wrap32 (len this - halfPrecision) in
      let truncated := rightShift this (Z.to_nat shiftBack) in
      let newPrecision := wrap32 (halfPrecision + len truncated) in
      approximateInverse ← computeInverse fuel truncated newPrecision;
      let doubled := addAssign approximateInverse approximateInverse in
      let minuend :=
        leftShift doubled (Z.to_nat (wrap32 (precisionBits - newPrecision - shiftBack))) in
      product ← mulAssign this approximateInverse;
      product ← mulAssign product approximateInverse;
      let subtrahend :=
        rightShift product
          (Z.to_nat (wrap32 (2 * (newPrecision + shiftBack) - precisionBits))) in
      result ← subAssign minuend subtrahend;
      decrement result
end.

(** [while (quotient * other > *this) --quotient;] *)
Fixpoint lowerQuotient (fuel : nat) (this other quotient : list Z) : outcome (list Z) :=
match fuel with
| O => Fail OutOfFuel
| S fuel =>
    product ← mulAssign quotient other;
    if gtb product this
    then quotient ← decrement quotient; lowerQuotient fuel this other quotient
    else Ok quotient
end.

(** [for (; remainder >= other; ++quotient, remainder -= other);] *)
Fixpoint raiseQuotient (fuel : nat) (other quotient remainder : list Z)
  : outcome (list Z * list Z) :=
match fuel with
| O => Fail OutOfFuel
| S fuel =>
    if geb remainder other
    then
      let quotient := increment quotient in
      remainder ← subAssign remainder other;
      raiseQuotient fuel other quotient remainder
    else Ok (quotient, remainder)
end.

(** [divisionAndModulus] *)
Definition divisionAndModulus (fuel : nat) (this other : list Z)
  : outcome (list Z * list Z) :=
if ltb this other then Ok (zero, this)
else if decide (len this < BruteforceThreshold ∨ len other < BruteforceThreshold)
then bruteforceDivisionAndModulus fuel this other
else
  let precisionBits := wrap32 (len this - len other + 5) in
  let shiftBack :=
    if decide (len other < precisionBits) then 0 else wrap32 (len other - precisionBits) in
  let adjustedDivisor := rightShift other (Z.to_nat shiftBack) in
  let adjustedDivisor :=
    if decide (shiftBack ≠ 0) then increment adjustedDivisor else adjustedDivisor in
  let inversePrecision := wrap32 (precisionBits + len adjustedDivisor) in
  inverse ← computeInverse fuel adjustedDivisor inversePrecision;
  product ← mulAssign this inverse;
  let quotient := rightShift product (Z.to_nat (wrap32 (inversePrecision + shiftBack))) in
  quotient ← lowerQuotient fuel this other quotient;
  product ← mulAssign quotient other;
  remainder ← subAssign this product;
  raiseQuotient fuel other quotient remainder.

(** [operator/=] and [operator%=]: the value assigned to [*this]. *)
Definition divAssign (fuel : nat) (this other : list Z) : outcome (list Z) :=
_ ← VALIDITY_CHECK (toBool other) DivisorIsZero;
'(quotient, _) ← divisionAndModulus fuel this other;
Ok quotient.

Definition modAssign (fuel : nat) (this other : list Z) : outcome (list Z) :=
_ ← VALIDITY_CHECK (toBool other) ModulusIsZero;
'(_, remainder) ← divisionAndModulus fuel this other;
Ok remainder.

End Engine.

(** ** Decimal strings *)

(** Characters are handled through their codes. *)
Definition code (c : ascii) : Z := Z.of_N (N_of_ascii c).
Definition char (z : Z) : ascii := ascii_of_N (Z.to_N z).
Definition codes (s : string) : list Z := code <$> list_ascii_of_string s.
Definition text (l : list Z) : string := string_of_list_ascii (char <$> l).

(** [std::isdigit] *)
Definition isdigit (c : Z) : bool := bool_decide (48 ≤ c ≤ 57).

(** [detail::InputHelper]: the table, filled at the indices [i << 8 | j] with
    [i] and [j] digit characters and zero elsewhere, and the lookup of the
    16-bit little-endian word at [value + offset]. *)
Definition InputHelper_table (index : Z) : Z :=
let i := index ≫ 8 in
let j := Z.land index 255 in
if decide (48 ≤ i < 58 ∧ 48 ≤ j < 58) then Z.land j 15 * 10 + Z.land i 15 else 0.

Definition InputHelper (value : list Z) (offset : nat) : Z :=
InputHelper_table (Z.lor (value !!! offset) (value !!! S offset ≪ 8)).

(** [detail::OutputHelper]: entry [index] packs the four digit characters
    of [index], most significant in the low byte; the lookup yields the four
    bytes of the entry in memory order. *)
Definition OutputHelper_table (index : Z) : Z :=
if decide (0 ≤ index < 10000)
then
  Z.lor (Z.lor (48 + index / 1000) ((48 + index / 100 mod 10) ≪ 8))
    (Z.lor ((48 + index / 10 mod 10) ≪ 16) ((48 + index mod 10) ≪ 24))
else 0.

Definition OutputHelper (value : Z) : list Z :=
let word := OutputHelper_table value in
[Z.land word 255; Z.land (word ≫ 8) 255; Z.land (word ≫ 16) 255; Z.land (word ≫ 24) 255].

(** The [switch (stringLength & 7)] of [construct]: the value stored in the
    top limb, if any. *)
Definition leadingLimb (value : list Z) (stringLength : nat) : option Z :=
let I := InputHelper value in
let first := Z.land (value !!! 0%nat) 15 in
match Z.land (Z.of_nat stringLength) 7 with
| 1 => Some first
| 2 => Some (I 0%nat)
| 3 => Some (first * 100 + I 1%nat)
| 4 => Some (I 0%nat * 100 + I 2%nat)
| 5 => Some (first * 10000 + I 1%nat * 100 + I 3%nat)
| 6 => Some (I 0%nat * 10000 + I 2%nat * 100 + I 4%nat)
| 7 => Some (first * 1000000 + I 1%nat * 10000 + I 3%nat * 100 + I 5%nat)
| _ => None
end.

(** The [for] loop of [construct], storing eight characters per limb from
    [currentDigit - 1] down to [0]. *)
Fixpoint constructLimbs (value : list Z) (currentDigit position : nat) (digits : list Z)
  : list Z :=
match currentDigit with
| O => digits
| S below =>
    let I := InputHelper value in
    let limb :=
      I position * 1000000 + I (position + 2)%nat * 10000
      + I (position + 4)%nat * 100 + I (position + 6)%nat in
    constructLimbs value below (position + 8) (<[below := wrap32 limb]> digits)
end.

(** [construct(value, stringLength)], on an array of
    [(stringLength + 7) >> 3] limbs, a 32-bit sum: for the seven lengths from
    [2 ^ 32 - 7] on the sum wraps, the array has no limb, and the leading
    limb is stored at [digits[-1]]. *)
Definition construct (value : list Z) (stringLength : nat) : outcome (list Z) :=
let length := Z.to_nat (wrap32 (Z.of_nat stringLength + 7) ≫ 3) in
let digits := replicate length 0 in
'(digits, currentDigit) ←
  match leadingLimb value stringLength with
  | Some limb =>
      if decide (length = 0)%nat then Fail OutOfBounds
      else Ok (<[(length - 1)%nat := wrap32 limb]> digits, (length - 1)%nat)
  | None => Ok (digits, length)
  end;
let position := Z.to_nat (Z.land (Z.of_nat stringLength) 7) in
Ok (trim (constructLimbs value currentDigit position digits)).

(** [UnsignedInteger(const std::string&)]; the size is taken as a
    [std::uint32_t]. *)
Definition parse (value : string) : outcome (list Z) :=
let characters := codes value in
_ ← VALIDITY_CHECK (negb (length characters =? 0)%nat) EmptyString;
_ ← VALIDITY_CHECK (forallb isdigit characters) NonDigitCharacter;
construct characters (Z.to_nat (wrap32 (Z.of_nat (length characters)))).

(** [std::to_string] of a [std::uint32_t]: its decimal digits, most
    significant first, ["0"] for zero. *)
Fixpoint to_string_digits (fuel : nat) (number : Z) (suffix : list Z) : list Z :=
match fuel with
| O => suffix
| S fuel =>
    let suffix := (48 + number mod 10) :: suffix in
    if decide (number / 10 = 0) then suffix else to_string_digits fuel (number / 10) suffix
end.

Definition to_string (number : Z) : list Z := to_string_digits 10 number [].

(** The loop of [operator std::string], from limb [i - 1] down to [0]. *)
Fixpoint appendLimbs (digits : list Z) (i : nat) (result : list Z) : list Z :=
match i with
| O => result
| S below =>
    let limb := digits !!! below in
    appendLimbs digits below
      (result ++ OutputHelper (limb / 10000) ++ OutputHelper (limb mod 10000))
end.

(** [operator std::string] *)
Definition toString (this : list Z) : string :=
if decide (length this = 0%nat) then "0"%string
else
  let top := (length this - 1)%nat in
  text (appendLimbs this top (to_string (this !!! top))).

(** ** Construction from floating point *)

(** [std::floor] on a double. *)
Definition floatFloor (value : float) : float :=
match Prim2SF value with
| S754_finite s m e =>
    if decide (e < 0)
    then SF2Prim (binary_normalize prec emax
                    ((if s then Z.neg m else Z.pos m) / 2 ^ (- e)) 0 s)
    else value
| _ => value
end.

(** [std::fmod] on doubles; the result is exact. *)
Definition floatFmod (x y : float) : float :=
match Prim2SF x, Prim2SF y with
| S754_finite sx mx ex, S754_finite _ my ey =>
    let e := Z.min ex ey in
    let r := (Z.pos mx * 2 ^ (ex - e)) mod (Z.pos my * 2 ^ (ey - e)) in
    SF2Prim (binary_normalize prec emax (if sx then - r else r) e sx)
| S754_zero _, S754_finite _ _ _ => x
| S754_zero _, S754_infinity _ => x
| S754_finite _ _ _, S754_infinity _ => x
| _, _ => nan
end.

(** Conversion of a double to [std::uint32_t]: truncation toward zero. *)
Definition floatToUint32 (value : float) : Z :=
match Prim2SF value with
| S754_finite s m e =>
    let magnitude := if decide (e < 0) then Z.pos m / 2 ^ (- e) else Z.pos m * 2 ^ e in
    wrap32 (if s then - magnitude else magnitude)
| _ => 0
end.

(** [while (digits[length++] = uint32(fmod(value, Base)), (value = floor(value / Base)));]
    [room] is the capacity left in the array. *)
Fixpoint floatLimbs (room : nat) (value : float) : outcome (list Z) :=
match room with
| O => Fail OutOfBounds
| S room =>
    let limb := floatToUint32 (floatFmod value 100000000) in
    let value := floatFloor (value / 100000000) in
    if PrimFloat.is_zero value then Ok [limb]
    else higher ← floatLimbs room value; Ok (limb :: higher)
end.

(** [UnsignedInteger(floatingPoint)] for [double]: the capacity is
    [(max_exponent10 + 7) >> 3 = 39]. *)
Definition fromDouble (value : float) : outcome (list Z) :=
_ ← VALIDITY_CHECK (PrimFloat.leb 0 value) NegativeSource;
_ ← VALIDITY_CHECK (PrimFloat.is_finite value) NotFinite;
floatLimbs 39 value.

(** ** Native unsigned integers *)

(** [while (digits[length++] = std::uint32_t(value) % Base, value /= unsignedIntegral(Base));]
    for an unsigned type of [bits] bits; [room] is the capacity left in the
    array. *)
Fixpoint unsignedLimbs (room : nat) (bits : Z) (value : Z) : outcome (list Z) :=
match room with
| O => Fail OutOfBounds
| S room =>
    let limb := wrap32 value mod Base in
    let value := value / (Base mod 2 ^ bits) in
    if decide (value = 0) then Ok [limb]
    else higher ← unsignedLimbs room bits value; Ok (limb :: higher)
end.

(** [UnsignedInteger(unsignedIntegral)]: the capacity is
    [(digits10 + 7) >> 3]. *)
Definition fromUnsigned (bits digits10 : Z) (value : Z) : outcome (list Z) :=
unsignedLimbs (Z.to_nat ((digits10 + 7) ≫ 3)) bits value.

(** The instances for [std::uint32_t] and [std::uint64_t]. *)
Definition fromUint32 : Z → outcome (list Z) := fromUnsigned 32 9.
Definition fromUint64 : Z → outcome (list Z) := fromUnsigned 64 19.

(** [operator unsignedIntegral]:
    [for (i = digits + length; i != digits; result = result * unsignedIntegral(Base) + unsignedIntegral( *--i));]
    in the arithmetic of a type of [bits] bits. *)
Definition toUnsigned (bits : Z) (this : list Z) : Z :=
fold_right
  (λ limb result, (result * (Base mod 2 ^ bits) + limb mod 2 ^ bits) mod 2 ^ bits)
  0 this.

(** ** C strings *)

(** [for (number = *--i; *--resultPointer = char(48 | number % 10), ++numberLength, number /= 10;);]
    the characters of the top limb, written from the last to the first. *)
Fixpoint to_cstring_digits (fuel : nat) (number : Z) (suffix : list Z) : list Z :=
match fuel with
| O => suffix
| S fuel =>
    let suffix := Z.lor 48 (number mod 10) :: suffix in
    if decide (number / 10 = 0) then suffix
    else to_cstring_digits fuel (number / 10) suffix
end.

(** [explicit operator const char*]: the characters before the closing
    zero, where [resultLength] is the size of the thread-local buffer at the
    call. A buffer shorter than [length << 3 | 7] is replaced by one of that
    size. The characters of the top limb are written downwards from
    [result + 8] and moved to the front, eight characters follow for every
    other limb, then the closing zero; a write outside the buffer is
    [OutOfBounds]. With no limb, the 16-bit store of [48 << 8] puts a zero
    character first on a little-endian machine: the string is empty. *)
Definition toCString (resultLength : Z) (this : list Z) : outcome string :=
if decide (length this = 0%nat) then Ok String.EmptyString
else
  let wanted := Z.lor (wrap32 (len this ≪ 3)) 7 in
  let resultLength := if decide (resultLength < wanted) then wanted else resultLength in
  let top := (length this - 1)%nat in
  let leading := to_cstring_digits 10 (this !!! top) [] in
  let numberLength := len leading in
  if decide (numberLength ≤ 8 ∧ 8 ≤ resultLength
             ∧ numberLength + 8 * Z.of_nat top < resultLength)
  then Ok (text (appendLimbs this top leading))
  else Fail OutOfBounds.

End UnsignedInteger.

(** * [class SignedInteger] *)

Module SignedInteger.

Import UnsignedInteger.

Record t : Type := Signed { absolute : list Z; sign : bool }.

(** [SignedInteger(floatingPoint)]: [absolute(std::abs(value)), sign(value < 0)]. *)
Definition fromDouble (value : float) : outcome t :=
absolute ← UnsignedInteger.fromDouble (PrimFloat.abs value);
Ok (Signed absolute (PrimFloat.ltb value 0)).

(** [SignedInteger(const std::string&)] *)
Definition parse (value : string) : outcome t :=
let characters := codes value in
_ ← VALIDITY_CHECK (negb (length characters =? 0)%nat) EmptyString;
let sign := bool_decide (characters !!! 0%nat = 45) in
let rest := if sign then drop 1 characters else characters in
_ ← VALIDITY_CHECK (forallb isdigit rest) NonDigitCharacter;
_ ← VALIDITY_CHECK (negb (length rest =? 0)%nat) EmptyString;
absolute ← construct rest (Z.to_nat (wrap32 (Z.of_nat (length rest))));
Ok (Signed absolute (sign && toBool absolute)).

(** [operator std::string] *)
Definition toString (this : t) : string :=
if sign this && toBool (absolute this)
then String "-" (toString (absolute this))
else toString (absolute this).

Definition eqb (this other : t) : bool :=
Bool.eqb (sign this) (sign other) && eqb (absolute this) (absolute other).

Definition ltb (this other : t) : bool :=
if sign this
then negb (sign other) || gtb (absolute this) (absolute other)
else negb (sign other) && ltb (absolute this) (absolute other).

Definition gtb (this other : t) : bool :=
if sign this
then sign other && UnsignedInteger.ltb (absolute this) (absolute other)
else sign other || UnsignedInteger.gtb (absolute this) (absolute other).

Definition leb (this other : t) : bool :=
if sign this
then negb (sign other) || geb (absolute this) (absolute other)
else negb (sign other) && leb (absolute this) (absolute other).

Definition geb (this other : t) : bool :=
if sign this
then sign other && UnsignedInteger.leb (absolute this) (absolute other)
else sign other || UnsignedInteger.geb (absolute this) (absolute other).

(** The body shared by [operator+=] and [operator-=], once the signs are
    known to differ (for [+=]) or to agree (for [-=]). *)
Definition subtractMagnitudes (this other : t) : outcome t :=
if UnsignedInteger.ltb (absolute this) (absolute other)
then
  difference ← subAssign (absolute other) (absolute this);
  Ok (Signed difference (negb (sign this)))
else
  difference ← subAssign (absolute this) (absolute other);
  Ok (Signed difference (sign this)).

(** [sign = sign && bool(absolute)] *)
Definition normalize (this : t) : t :=
Signed (absolute this) (sign this && toBool (absolute this)).

(** [operator+=] with a right operand that is another object than
    [*this]. *)
Definition addAssign (this other : t) : outcome t :=
result ←
  (if Bool.eqb (sign this) (sign other)
   then Ok (Signed (addAssign (absolute this) (absolute other)) (sign this))
   else subtractMagnitudes this other);
Ok (normalize result).

(** [operator-=]. The magnitudes are added when the signs differ, and then
    [other] is another object than [*this]. *)
Definition subAssign (this other : t) : outcome t :=
result ←
  (if negb (Bool.eqb (sign this) (sign other))
   then Ok (Signed (UnsignedInteger.addAssign (absolute this) (absolute other)) (sign this))
   else subtractMagnitudes this other);
Ok (normalize result).

(** [*this += other] on the signed object whose magnitude owns [array] and
    has [length] limbs, and whose sign is [negative]. In [x += x] the signs
    agree, and the magnitude is added to itself. *)
Definition addAssignOn (array : list Z) (length : nat) (negative : bool)
  (other : operand t) : outcome t :=
match other with
| Another other => addAssign (Signed (take length array) negative) other
| Itself =>
    absolute ← addAssignSelf array length;
    Ok (normalize (Signed absolute negative))
end.

Section Engine.

Variable transformProduct : list Z → list Z → list Z.

Definition mulAssign (this other : t) : outcome t :=
product ← UnsignedInteger.mulAssign transformProduct (absolute this) (absolute other);
Ok (Signed product (xorb (sign this) (sign other) && toBool product)).

Definition divAssign (fuel : nat) (this other : t) : outcome t :=
_ ← VALIDITY_CHECK (toBool (absolute other)) DivisorIsZero;
quotient ← UnsignedInteger.divAssign transformProduct fuel (absolute this) (absolute other);
Ok (normalize (Signed quotient (xorb (sign this) (sign other)))).

(** [operator%=]: [*this -= ( *this / other) * other]. *)
Definition modAssign (fuel : nat) (this other : t) : outcome t :=
_ ← VALIDITY_CHECK (toBool (absolute other)) ModulusIsZero;
quotient ← divAssign fuel this other;
product ← mulAssign quotient other;
subAssign this product.

End Engine.

End SignedInteger.

(** * Objects in memory

    Move construction and move assignment exchange the [digits] pointers of
    two objects, and an exception leaves every object as it was: both are
    statements about objects at addresses, so this part models the store. *)

Module Memory.

Import UnsignedInteger.

(** The fields of an [UnsignedInteger]; [digits] points to a limb array. *)
Record object : Type := Object { digits : positive; length : nat; capacity : nat }.

(** Objects by address and limb arrays by pointer. *)
Record state : Type :=
  State { objects : gmap positive object; arrays : gmap positive (list Z) }.

(** [new std::uint32_t[n]] holding [contents]. *)
Definition allocate (contents : list Z) (st : state) : positive * state :=
let pointer := fresh (dom (arrays st)) in
(pointer, State (objects st) (<[pointer := contents]> (arrays st))).

(** [delete[] pointer] *)
Definition deallocate (pointer : positive) (st : state) : state :=
State (objects st) (delete pointer (arrays st)).

(** The limbs [digits[0 .. length)] of the object at [this]. *)
Definition limbs (st : state) (this : positive) : option (list Z) :=
o ← objects st !! this;
array ← arrays st !! digits o;
Some (take (length o) array).

(** [other.digits = new std::uint32_t[other.length = other.capacity = 1]()] *)
Definition resetToZero (other : positive) (st : state) : state :=
let '(pointer, st) := allocate [0] st in
State (<[other := Object pointer 1 1]> (objects st)) (arrays st).

(** [UnsignedInteger(UnsignedInteger&& other)], constructing at [this]. *)
Definition moveConstruct (this other : positive) (st : state) : option state :=
source ← objects st !! other;
let st := State (<[this := source]> (objects st)) (arrays st) in
Some (resetToZero other st).

(** [operator=(UnsignedInteger&& other)] *)
Definition moveAssign (this other : positive) (st : state) : option state :=
target ← objects st !! this;
source ← objects st !! other;
if decide (this ≠ other)
then
  if decide (digits target ≠ digits source)
  then
    let st := deallocate (digits target) st in
    let st := State (<[this := source]> (objects st)) (arrays st) in
    Some (resetToZero other st)
  else Some st
else Some st.

(** [UnsignedInteger(const UnsignedInteger& other)], constructing at
    [this]: a new array of [other.length] limbs. *)
Definition copyConstruct (this other : positive) (st : state) : option state :=
source ← objects st !! other;
array ← arrays st !! digits source;
let '(pointer, st) := allocate (take (length source) array) st in
Some (State (<[this := Object pointer (length source) (length source)]> (objects st))
        (arrays st)).

(** [operator=(const UnsignedInteger& other)] *)
Definition copyAssign (this other : positive) (st : state) : option state :=
target ← objects st !! this;
source ← objects st !! other;
if decide (digits target ≠ digits source)
then
  array ← arrays st !! digits source;
  if decide (capacity target < length source)%nat
  then
    let st := deallocate (digits target) st in
    let '(pointer, st) := allocate (take (length source) array) st in
    Some (State (<[this := Object pointer (length source) (length source)]> (objects st))
            (arrays st))
  else
    old ← arrays st !! digits target;
    let contents := take (length source) array ++ drop (length source) old in
    Some (State (<[this := Object (digits target) (length source) (capacity target)]>
                   (objects st))
            (<[digits target := contents]> (arrays st)))
else Some st.

(** [*this = std::move(temporary)] for a temporary holding [result]. *)
Definition assignTemporary (this : positive) (result : list Z) (st : state) : state :=
match objects st !! this with
| Some target =>
    let st := deallocate (digits target) st in
    let '(pointer, st) := allocate result st in
    State (<[this := Object pointer (List.length result) (List.length result)]> (objects st))
      (arrays st)
| None => st
end.

Section Engine.

Variable transformProduct : list Z → list Z → list Z.

(** An in-place operator whose right-hand side is computed by a [const]
    member before [*this] is assigned: an exception leaves the store as it
    was. *)
Definition assignFrom (operation : list Z → list Z → outcome (list Z))
  (this other : positive) (st : state) : outcome unit * state :=
match limbs st this, limbs st other with
| Some x, Some y =>
    match operation x y with
    | Ok result => (Ok (), assignTemporary this result st)
    | Fail f => (Fail f, st)
    end
| _, _ => (Fail OutOfBounds, st)
end.

(** [operator/=]: [return *this = std::move(divisionAndModulus(other).first);] *)
Definition divAssign (fuel : nat) : positive → positive → state → outcome unit * state :=
assignFrom (UnsignedInteger.divAssign transformProduct fuel).

(** [operator%=]: [return *this = std::move(divisionAndModulus(other).second);] *)
Definition modAssign (fuel : nat) : positive → positive → state → outcome unit * state :=
assignFrom (UnsignedInteger.modAssign transformProduct fuel).

End Engine.

End Memory.

(** * Vocabulary of the specification *)

Import UnsignedInteger.

(** The integer a limb array stands for: the sum of [d[i] * Base ^ i]. *)
Fixpoint value (digits : list Z) : Z :=
match digits with
| [] => 0
| digit :: higher => digit + Base * value higher
end.

(** Every limb lies in [[0, Base)]. *)
Definition limbsOk (digits : list Z) : Prop :=
Forall (λ digit, 0 ≤ digit < Base) digits.

(** Canonical form: [n >= 1], and if [n > 1] then [d[n-1] != 0]. *)
Definition canonical (digits : list Z) : Prop :=
(1 ≤ length digits)%nat
∧ ((1 < length digits)%nat → digits !!! (length digits - 1)%nat ≠ 0).

(** An unsigned magnitude of the data model. *)
Definition magnitude (digits : list Z) : Prop :=
limbsOk digits ∧ canonical digits.

(** The integer a signed value stands for. *)
Definition signedValue (x : SignedInteger.t) : Z :=
if SignedInteger.sign x then - value (SignedInteger.absolute x)
else value (SignedInteger.absolute x).

(** The invariant of a signed value: a canonical magnitude, and no negative
    zero. *)
Definition signedOk (x : SignedInteger.t) : Prop :=
magnitude (SignedInteger.absolute x)
∧ (value (SignedInteger.absolute x) = 0 → SignedInteger.sign x = false).

(** The number that a string of digit characters writes, most significant
    digit first. *)
Definition decimal (characters : list Z) : Z :=
fold_left (λ number c, number * 10 + (c - 48)) characters 0.

(** Every character is a decimal digit. *)
Definition allDigits (characters : list Z) : Prop :=
Forall (λ c, 48 ≤ c ≤ 57) characters.

(** A decimal string without its insignificant leading zeros; a string of
    zeros only becomes ["0"]. *)
Fixpoint dropZeros (characters : list Z) : list Z :=
match characters with
| [] => []
| c :: rest => if decide (c = 48) then dropZeros rest else characters
end.

Definition withoutLeadingZeros (s : string) : string :=
match dropZeros (codes s) with
| [] => "0"%string
| characters => text characters
end.

(** The sum of [f k * Base ^ k] for [k] in [[from, from + count)]. *)
Fixpoint weightedSum (f : nat → Z) (from count : nat) : Z :=
match count with
| O => 0
| S count => f from * Base ^ Z.of_nat from + weightedSum f (S from) count
end.

(** Column [i] of the product of two limb arrays, from index [j] of the
    second on; [other] is the part of the second operand from [j] on, and
    limbs beyond the end of [this] count as zero. *)
Fixpoint column (this other : list Z) (i j : nat) : Z :=
match other with
| [] => 0
| otherDigit :: rest =>
    if decide (j ≤ i)%nat
    then nth (i - j) this 0 * otherDigit + column this rest i (S j)
    else 0
end.

(** An engine to instantiate the parameter with in examples: the limbs of
    [v], [n] of them. *)
Fixpoint limbsOf (n : nat) (v : Z) : list Z :=
match n with
| O => []
| S n => v mod Base :: limbsOf n (v / Base)
end.

Definition referenceProduct (a b : list Z) : list Z :=
limbsOf (length a + length b) (value a * value b).

(** ** States of the carry and borrow loops *)

(** Every limb is in range, except that limb [i] may hold a carry that is
    still to be passed on: it may be as large as [Base]. *)
Definition carryState (digits : list Z) (i : nat) : Prop :=
∀ k : nat, (k < length digits)%nat →
  0 ≤ digits !!! k ≤ Base ∧ (k ≠ i → digits !!! k < Base).

(** Every limb is in range, except that limb [i] may hold a borrow that is
    still to be passed on: the wrapped [-1]. *)
Definition borrowState (digits : list Z) (i : nat) : Prop :=
∀ k : nat, (k < length digits)%nat →
  0 ≤ digits !!! k < Base ∨ (k = i ∧ digits !!! k = 2 ^ 32 - 1).

(** The integer such an array stands for, the wrapped limb counting as [-1]. *)
Definition borrowValue (digits : list Z) (i : nat) : Z :=
value digits
- (if decide ((i < length digits)%nat ∧ Base ≤ digits !!! i)
   then 2 ^ 32 * Base ^ Z.of_nat i else 0).

(** * Machine arithmetic *)

Lemma wrap32_small x : 0 ≤ x < 2 ^ 32 → wrap32 x = x.
Proof. intros H. unfold wrap32. apply Z.mod_small; lia. Qed.

Lemma wrap64_small x : 0 ≤ x < 2 ^ 64 → wrap64 x = x.
Proof. intros H. unfold wrap64. apply Z.mod_small; lia. Qed.

Lemma int64_small x : - 2 ^ 63 ≤ x < 2 ^ 63 → int64 x = x.
Proof.
  intros H. unfold int64, wrap64.
  destruct (Z_lt_le_dec x 0) as [Hneg|Hpos].
  - replace (x mod 2 ^ 64) with (x + 2 ^ 64).
    + case_decide; lia.
    + apply Z.mod_unique with (-1); lia.
  - rewrite Z.mod_small by lia. case_decide; lia.
Qed.

Lemma int32_small x : - 2 ^ 31 ≤ x < 2 ^ 31 → int32 (wrap32 x) = x.
Proof.
  intros H. unfold int32, wrap32. rewrite Z.mod_mod by lia.
  destruct (Z_lt_le_dec x 0) as [Hneg|Hpos].
  - replace (x mod 2 ^ 32) with (x + 2 ^ 32).
    + case_decide; lia.
    + apply Z.mod_unique with (-1); lia.
  - rewrite Z.mod_small by lia. case_decide; lia.
Qed.

Lemma Base_eq : Base = 100000000.
Proof. reflexivity. Qed.

Lemma Base_gt_1 : 1 < Base.
Proof. rewrite Base_eq. lia. Qed.

Lemma Base_pow_pos (n : nat) : 0 < Base ^ Z.of_nat n.
Proof. apply Z.pow_pos_nonneg; [pose proof Base_gt_1|]; lia. Qed.

Lemma Base_pow_S (n : nat) : Base ^ Z.of_nat (S n) = Base * Base ^ Z.of_nat n.
Proof. rewrite Nat2Z.inj_succ, Z.pow_succ_r by lia. reflexivity. Qed.

Lemma Base_pow_add (n m : nat) :
  Base ^ Z.of_nat (n + m) = Base ^ Z.of_nat n * Base ^ Z.of_nat m.
Proof. rewrite Nat2Z.inj_add, Z.pow_add_r by lia. reflexivity. Qed.

Lemma Base_pow_le (n m : nat) : (n ≤ m)%nat → Base ^ Z.of_nat n ≤ Base ^ Z.of_nat m.
Proof. intros H. apply Z.pow_le_mono_r; [pose proof Base_gt_1|]; lia. Qed.

Lemma Base_pow_lt (n m : nat) : (n < m)%nat → Base ^ Z.of_nat n < Base ^ Z.of_nat m.
Proof. intros H. apply Z.pow_lt_mono_r; [pose proof Base_gt_1| |]; lia. Qed.

(** * Values of limb arrays *)

Lemma value_app (a b : list Z) :
  value (a ++ b) = value a + Base ^ Z.of_nat (length a) * value b.
Proof.
  induction a as [|x a IH]; cbn [value app length].
  - rewrite Z.pow_0_r. lia.
  - rewrite IH, Base_pow_S. ring.
Qed.

Lemma value_replicate_0 (n : nat) : value (replicate n 0) = 0.
Proof. induction n as [|n IH]; cbn [value replicate]; lia. Qed.

Lemma limbsOk_nil : limbsOk [].
Proof. constructor. Qed.

Lemma limbsOk_cons x d : limbsOk (x :: d) ↔ (0 ≤ x < Base) ∧ limbsOk d.
Proof. unfold limbsOk. rewrite Forall_cons. reflexivity. Qed.

Lemma limbsOk_app a b : limbsOk (a ++ b) ↔ limbsOk a ∧ limbsOk b.
Proof. unfold limbsOk. apply Forall_app. Qed.

Lemma limbsOk_replicate_0 n : limbsOk (replicate n 0).
Proof. apply Forall_replicate. pose proof Base_gt_1. lia. Qed.

Lemma limbsOk_take n d : limbsOk d → limbsOk (take n d).
Proof. apply Forall_take. Qed.

Lemma limbsOk_drop n d : limbsOk d → limbsOk (drop n d).
Proof. apply Forall_drop. Qed.

Lemma lookup_total_nth (d : list Z) (i : nat) : (i < length d)%nat → d !!! i = nth i d 0.
Proof.
  intros Hi. destruct (lookup_lt_is_Some_2 d i Hi) as [x Hx].
  rewrite (list_lookup_total_correct _ _ _ Hx). symmetry.
  apply nth_lookup_Some with (d := 0) in Hx. exact Hx.
Qed.

Lemma limbsOk_lookup (d : list Z) (i : nat) :
  limbsOk d → (i < length d)%nat → 0 ≤ d !!! i < Base.
Proof.
  intros H Hi. destruct (lookup_lt_is_Some_2 d i Hi) as [x Hx].
  rewrite (list_lookup_total_correct _ _ _ Hx).
  exact (proj1 (Forall_lookup _ d) H i x Hx).
Qed.

Lemma limbsOk_nth (d : list Z) (i : nat) : limbsOk d → 0 ≤ nth i d 0 < Base.
Proof.
  intros H. destruct (decide (i < length d)%nat) as [Hi|Hi].
  - rewrite <- lookup_total_nth by lia. apply limbsOk_lookup; assumption.
  - rewrite nth_overflow by lia. pose proof Base_gt_1. lia.
Qed.

Lemma limbsOk_insert (d : list Z) (i : nat) (x : Z) :
  limbsOk d → 0 ≤ x < Base → limbsOk (<[i := x]> d).
Proof. intros H Hx. apply Forall_insert; assumption. Qed.

Lemma value_bounds (d : list Z) : limbsOk d → 0 ≤ value d < Base ^ Z.of_nat (length d).
Proof.
  induction d as [|x d IH]; intros H; cbn [value length].
  - rewrite Z.pow_0_r. lia.
  - apply limbsOk_cons in H as [Hx Hd]. specialize (IH Hd).
    rewrite Base_pow_S. nia.
Qed.

Lemma value_nonneg (d : list Z) : limbsOk d → 0 ≤ value d.
Proof. intros H. apply value_bounds in H. lia. Qed.

Lemma value_take_drop (n : nat) (d : list Z) :
  value d = value (take n d) + Base ^ Z.of_nat (length (take n d)) * value (drop n d).
Proof. rewrite <- value_app, take_drop. reflexivity. Qed.

Lemma value_insert (d : list Z) (i : nat) (x : Z) :
  (i < length d)%nat →
  value (<[i := x]> d) = value d + (x - d !!! i) * Base ^ Z.of_nat i.
Proof.
  revert i. induction d as [|y d IH]; intros i Hi; cbn [length] in Hi; [lia|].
  destruct i as [|i]; cbn [value].
  - change (<[0%nat := x]> (y :: d)) with (x :: d). cbn [value].
    change ((y :: d) !!! 0%nat) with y. rewrite Z.pow_0_r. ring.
  - change (<[S i := x]> (y :: d)) with (y :: <[i := x]> d). cbn [value].
    change ((y :: d) !!! S i) with (d !!! i).
    rewrite IH by lia. rewrite Base_pow_S. ring.
Qed.

Lemma value_lookup_split (d : list Z) (i : nat) :
  (i < length d)%nat →
  value d = value (take i d) + d !!! i * Base ^ Z.of_nat i
            + Base ^ Z.of_nat (S i) * value (drop (S i) d).
Proof.
  intros Hi. rewrite (value_take_drop i d) at 1.
  rewrite length_take, Nat.min_l by lia.
  destruct (lookup_lt_is_Some_2 d i Hi) as [x Hx].
  rewrite (drop_S _ _ _ Hx). rewrite (list_lookup_total_correct _ _ _ Hx).
  cbn [value]. rewrite Base_pow_S. ring.
Qed.

(** The top limb of a canonical array of more than one limb is positive,
    so its value is at least [Base ^ (n - 1)]. *)
Lemma value_lower_bound (d : list Z) :
  limbsOk d → (1 ≤ length d)%nat → d !!! (length d - 1)%nat ≠ 0 →
  Base ^ Z.of_nat (length d - 1) ≤ value d.
Proof.
  intros Hok Hlen Htop.
  rewrite (value_lookup_split d (length d - 1)) by lia.
  pose proof (limbsOk_lookup d (length d - 1) Hok ltac:(lia)) as Hb.
  pose proof (value_nonneg _ (limbsOk_take (length d - 1) d Hok)).
  rewrite drop_ge by lia. cbn [value].
  pose proof (Base_pow_pos (length d - 1)). nia.
Qed.

Lemma value_zero_all (d : list Z) :
  limbsOk d → value d = 0 → ∀ i : nat, (i < length d)%nat → d !!! i = 0.
Proof.
  induction d as [|x d IH]; intros Hok Hv i Hi; cbn [length] in Hi; [lia|].
  apply limbsOk_cons in Hok as [Hx Hd]. cbn [value] in Hv.
  pose proof (value_nonneg d Hd). pose proof Base_gt_1.
  assert (x = 0 ∧ value d = 0) as [-> Hd0] by nia.
  destruct i as [|i]; [reflexivity|]. apply (IH Hd Hd0 i). lia.
Qed.

Lemma value_inj (a b : list Z) :
  limbsOk a → limbsOk b → length a = length b → value a = value b → a = b.
Proof.
  revert b. induction a as [|x a IH]; intros [|y b] Ha Hb Hlen Hv;
    cbn [length] in Hlen; try discriminate; [reflexivity|].
  apply limbsOk_cons in Ha as [Hx Ha]. apply limbsOk_cons in Hb as [Hy Hb].
  cbn [value] in Hv.
  assert (x = y ∧ value a = value b) as [-> Hv'].
  { pose proof Base_gt_1.
    assert (x - y = Base * (value b - value a)) as E by lia.
    assert (value b - value a = 0) by nia. lia. }
  f_equal. apply IH; auto.
Qed.

(** * The trailing-zero loop *)

Lemma trimLength_SS (d : list Z) (n : nat) :
  trimLength d (S (S n))
  = if decide (d !!! S n = 0) then trimLength d (S n) else S (S n).
Proof. reflexivity. Qed.

Lemma trimLength_le (d : list Z) (n : nat) : (trimLength d n ≤ n)%nat.
Proof.
  induction n as [|[|n] IH]; [cbn; lia..|rewrite trimLength_SS].
  case_decide; lia.
Qed.

Lemma trimLength_pos (d : list Z) (n : nat) : (1 ≤ n → 1 ≤ trimLength d n)%nat.
Proof.
  induction n as [|[|n] IH]; [cbn; lia..|rewrite trimLength_SS].
  case_decide; lia.
Qed.

Lemma trimLength_zeros (d : list Z) (n i : nat) :
  (trimLength d n ≤ i < n)%nat → d !!! i = 0.
Proof.
  induction n as [|[|n] IH]; [cbn; lia..|rewrite trimLength_SS].
  case_decide as Hz; [|lia].
  intros Hi. destruct (decide (i = S n)) as [->|]; [exact Hz|]. apply IH. lia.
Qed.

Lemma trimLength_top (d : list Z) (n : nat) :
  (1 < trimLength d n)%nat → d !!! (trimLength d n - 1)%nat ≠ 0.
Proof.
  induction n as [|[|n] IH]; [cbn; lia..|rewrite trimLength_SS].
  case_decide as Hz; [exact IH|].
  intros _. replace (S (S n) - 1)%nat with (S n) by lia. exact Hz.
Qed.

Lemma trimLength_fixed (d : list Z) (n : nat) :
  ((1 < n)%nat → d !!! (n - 1)%nat ≠ 0) → trimLength d n = n.
Proof.
  destruct n as [|[|n]]; [reflexivity..|rewrite trimLength_SS].
  intros H. case_decide as Hz; [|reflexivity].
  exfalso. apply H; [lia|]. replace (S (S n) - 1)%nat with (S n) by lia. exact Hz.
Qed.

Lemma value_zeros (d : list Z) :
  (∀ i : nat, (i < length d)%nat → d !!! i = 0) → value d = 0.
Proof.
  induction d as [|x d IH]; intros H; [reflexivity|]. cbn [value].
  assert (x = 0) as -> by exact (H 0%nat ltac:(cbn; lia)). rewrite IH; [lia|].
  intros i Hi. apply (H (S i)). cbn; lia.
Qed.

Lemma length_trim (d : list Z) : length (trim d) = trimLength d (length d).
Proof.
  unfold trim. rewrite length_take. pose proof (trimLength_le d (length d)). lia.
Qed.

Lemma length_trim_le (d : list Z) : (length (trim d) ≤ length d)%nat.
Proof. rewrite length_trim. apply trimLength_le. Qed.

Lemma length_trim_pos (d : list Z) : (1 ≤ length d → 1 ≤ length (trim d))%nat.
Proof. rewrite length_trim. apply trimLength_pos. Qed.

Lemma value_trim (d : list Z) : value (trim d) = value d.
Proof.
  rewrite (value_take_drop (trimLength d (length d)) d). unfold trim.
  rewrite (value_zeros (drop _ d)); [lia|].
  intros i Hi. rewrite length_drop in Hi.
  rewrite lookup_total_drop. apply (trimLength_zeros d (length d)). lia.
Qed.

Lemma limbsOk_trim (d : list Z) : limbsOk d → limbsOk (trim d).
Proof. apply limbsOk_take. Qed.

Lemma canonical_trim (d : list Z) : (1 ≤ length d)%nat → canonical (trim d).
Proof.
  intros Hlen. split; [apply length_trim_pos; assumption|].
  rewrite length_trim. intros H. unfold trim.
  rewrite lookup_total_take_lt by lia.
  apply trimLength_top. assumption.
Qed.

Lemma trim_canonical (d : list Z) : canonical d → trim d = d.
Proof.
  intros [_ H]. unfold trim. rewrite trimLength_fixed by exact H.
  apply take_ge. lia.
Qed.

Lemma magnitude_trim (d : list Z) :
  limbsOk d → (1 ≤ length d)%nat → magnitude (trim d).
Proof. intros. split; [apply limbsOk_trim|apply canonical_trim]; assumption. Qed.

Lemma magnitude_zero : magnitude zero.
Proof.
  split.
  - repeat constructor; rewrite ?Base_eq; lia.
  - split; cbn; lia.
Qed.

Lemma value_zero : value zero = 0.
Proof. reflexivity. Qed.

(** A canonical array with [n] limbs lies in [[Base ^ (n - 1), Base ^ n)],
    except for zero. *)
Lemma magnitude_bounds (d : list Z) :
  magnitude d → (1 < length d)%nat →
  Base ^ Z.of_nat (length d - 1) ≤ value d < Base ^ Z.of_nat (length d).
Proof.
  intros [Hok [Hlen Htop]] Hn. split.
  - apply value_lower_bound; auto.
  - apply value_bounds; assumption.
Qed.

Lemma magnitude_length_lt (a b : list Z) :
  magnitude a → magnitude b → (length a < length b)%nat → value a < value b.
Proof.
  intros [Ha [Hla _]] Hb Hlen.
  pose proof (value_bounds a Ha) as Hva.
  pose proof (magnitude_bounds b Hb ltac:(lia)) as Hvb.
  pose proof (Base_pow_le (length a) (length b - 1) ltac:(lia)). lia.
Qed.

Lemma magnitude_value_zero (d : list Z) : magnitude d → value d = 0 → d = zero.
Proof.
  intros Hm Hv. destruct (decide (1 < length d)%nat) as [Hn|Hn].
  - pose proof (magnitude_bounds d Hm Hn) as [H _].
    pose proof (Base_pow_pos (length d - 1)). lia.
  - destruct Hm as [Hok [Hlen _]].
    destruct d as [|x [|y d]]; cbn [length] in *; try lia.
    cbn [value] in Hv. unfold zero. f_equal. lia.
Qed.

Lemma magnitude_inj (a b : list Z) :
  magnitude a → magnitude b → value a = value b → a = b.
Proof.
  intros Ha Hb Hv.
  destruct (lt_eq_lt_dec (length a) (length b)) as [[Hlt|Heq]|Hgt].
  - pose proof (magnitude_length_lt a b Ha Hb Hlt). lia.
  - apply value_inj; [apply Ha|apply Hb|assumption|assumption].
  - pose proof (magnitude_length_lt b a Hb Ha Hgt). lia.
Qed.

Lemma toBool_magnitude (d : list Z) : magnitude d → toBool d = negb (value d =? 0).
Proof.
  intros Hm. unfold toBool.
  destruct (decide (1 < length d)%nat) as [Hn|Hn].
  - pose proof (magnitude_bounds d Hm Hn) as [H _].
    pose proof (Base_pow_pos (length d - 1)).
    replace (length d =? 1)%nat with false by (symmetry; apply Nat.eqb_neq; lia).
    replace (value d =? 0) with false by (symmetry; apply Z.eqb_neq; lia).
    reflexivity.
  - destruct Hm as [Hok [Hlen _]].
    destruct d as [|x [|y d]]; cbn [length] in *; try lia.
    cbn [value]. change ([x] !!! 0%nat) with x. cbn [Nat.eqb negb orb].
    replace (x + Base * 0) with x by lia. reflexivity.
Qed.

(** * Comparison *)

Lemma scanBlock_None (a b : list Z) (start count : nat) :
  scanBlock a b start count = None →
  ∀ i : nat, (start ≤ i < start + count)%nat → a !!! i = b !!! i.
Proof.
  induction count as [|count IH]; cbn [scanBlock]; intros H i Hi; [lia|].
  case_decide as Hne; [discriminate|].
  destruct (decide (i = start + count)%nat) as [->|].
  - destruct (decide (a !!! (start + count)%nat = b !!! (start + count)%nat)); tauto.
  - apply IH; [assumption|lia].
Qed.

Lemma scanBlock_Some (a b : list Z) (start count : nat) (r : Z) :
  scanBlock a b start count = Some r →
  ∃ i : nat, (start ≤ i < start + count)%nat ∧ a !!! i ≠ b !!! i
    ∧ (∀ j : nat, (i < j < start + count)%nat → a !!! j = b !!! j)
    ∧ r = int32 (wrap32 (a !!! i - b !!! i)).
Proof.
  induction count as [|count IH]; cbn [scanBlock]; intros H; [discriminate|].
  case_decide as Hne.
  - exists (start + count)%nat. injection H as <-. repeat split; auto; lia.
  - destruct (IH H) as (i & Hi & Hd & Hab & Hr).
    exists i. repeat split; auto; try lia.
    intros j Hj. destruct (decide (j = start + count)%nat) as [->|].
    + destruct (decide (a !!! (start + count)%nat = b !!! (start + count)%nat)); tauto.
    + apply Hab. lia.
Qed.

Lemma memcmp_agrees (a b : list Z) (start count : nat) :
  memcmpDiffers a b start count = false →
  (start + count ≤ length a)%nat → length a = length b →
  ∀ i : nat, (start ≤ i < start + count)%nat → a !!! i = b !!! i.
Proof.
  unfold memcmpDiffers. intros H Hlen Hab i Hi.
  apply bool_decide_eq_false in H.
  assert (take count (drop start a) = take count (drop start b)) as E
    by (destruct (decide (take count (drop start a) = take count (drop start b))); tauto).
  apply (f_equal (λ l : list Z, l !!! (i - start)%nat)) in E.
  rewrite !lookup_total_take_lt, !lookup_total_drop in E by lia.
  replace (start + (i - start))%nat with i in E by lia. exact E.
Qed.

(** What the comparison of the limbs below [high] yields: zero when they
    all agree, else the difference at the highest index that differs. *)
Lemma compareBlocks_spec (a b : list Z) (blocks : nat) :
  (64 * blocks ≤ length a)%nat → length a = length b →
  let r := compareBlocks a b blocks in
  (r = 0 ∧ ∀ i : nat, (i < 64 * blocks)%nat → a !!! i = b !!! i)
  ∨ (∃ i : nat, (i < 64 * blocks)%nat ∧ a !!! i ≠ b !!! i
      ∧ (∀ j : nat, (i < j < 64 * blocks)%nat → a !!! j = b !!! j)
      ∧ r = int32 (wrap32 (a !!! i - b !!! i))).
Proof.
  intros Hlen Hab. induction blocks as [|blocks IH]; cbn zeta.
  - left. split; [reflexivity|]. intros i Hi. lia.
  - cbn [compareBlocks].
    destruct (memcmpDiffers a b (64 * blocks) 64) eqn:Hm.
    + destruct (scanBlock a b (64 * blocks) 64) as [r|] eqn:Hs.
      * right. destruct (scanBlock_Some _ _ _ _ _ Hs) as (i & Hi & Hd & Hj & Hr).
        exists i. repeat split; auto; try lia.
        intros j Hjj. apply Hj. lia.
      * pose proof (scanBlock_None _ _ _ _ Hs) as Hagree.
        destruct (IH ltac:(lia)) as [[Hr Heq]|(i & Hi & Hd & Hj & Hr)].
        -- left. split; [exact Hr|]. intros i Hi.
           destruct (decide (i < 64 * blocks)%nat); [apply Heq; lia|apply Hagree; lia].
        -- right. exists i. repeat split; auto; try lia.
           intros j Hjj.
           destruct (decide (j < 64 * blocks)%nat); [apply Hj; lia|apply Hagree; lia].
    + pose proof (memcmp_agrees _ _ _ _ Hm ltac:(lia) Hab) as Hagree.
      destruct (IH ltac:(lia)) as [[Hr Heq]|(i & Hi & Hd & Hj & Hr)].
      * left. split; [exact Hr|]. intros i Hi.
        destruct (decide (i < 64 * blocks)%nat); [apply Heq; lia|apply Hagree; lia].
      * right. exists i. repeat split; auto; try lia.
        intros j Hjj.
        destruct (decide (j < 64 * blocks)%nat); [apply Hj; lia|apply Hagree; lia].
Qed.

Lemma reverseCompare_spec (a b : list Z) :
  length a = length b →
  let r := reverseCompare a b in
  (r = 0 ∧ a = b)
  ∨ (∃ i : nat, (i < length a)%nat ∧ a !!! i ≠ b !!! i
      ∧ drop (S i) a = drop (S i) b
      ∧ r = int32 (wrap32 (a !!! i - b !!! i))).
Proof.
  intros Hab. cbn zeta. unfold reverseCompare.
  set (remaining := (length a mod 64)%nat).
  set (firstBlock := (length a - remaining)%nat).
  pose proof (Nat.div_mod_eq (length a) 64) as Hdm.
  pose proof (Nat.mod_upper_bound (length a) 64 ltac:(lia)) as Hrem.
  assert (firstBlock = 64 * (length a / 64))%nat as Hfb by (unfold firstBlock, remaining; lia).
  assert (firstBlock / 64 = length a / 64)%nat as Hq.
  { rewrite Hfb. rewrite Nat.mul_comm. apply Nat.div_mul. lia. }
  rewrite Hq.
  assert (∀ P : Z → Prop,
    ((∀ i : nat, (firstBlock ≤ i < length a)%nat → a !!! i = b !!! i) →
       P (compareBlocks a b (length a / 64))) →
    (∀ r, (∃ i : nat, (firstBlock ≤ i < length a)%nat ∧ a !!! i ≠ b !!! i
        ∧ (∀ j : nat, (i < j < length a)%nat → a !!! j = b !!! j)
        ∧ r = int32 (wrap32 (a !!! i - b !!! i))) → P r) →
    P match (if memcmpDiffers a b firstBlock remaining
             then scanBlock a b firstBlock remaining else None) with
      | Some difference => difference
      | None => compareBlocks a b (length a / 64)
      end) as Hcases.
  { intros P Hnone Hsome.
    destruct (memcmpDiffers a b firstBlock remaining) eqn:Hm.
    - destruct (scanBlock a b firstBlock remaining) as [r|] eqn:Hs.
      + apply Hsome. destruct (scanBlock_Some _ _ _ _ _ Hs) as (i & Hi & Hd & Hj & Hr).
        exists i. repeat split; auto; try (unfold firstBlock, remaining in *; lia).
        intros j Hjj. apply Hj. unfold firstBlock, remaining in *; lia.
      + apply Hnone. intros i Hi. apply (scanBlock_None _ _ _ _ Hs).
        unfold firstBlock, remaining in *; lia.
    - apply Hnone. intros i Hi.
      apply (memcmp_agrees _ _ _ _ Hm); [unfold firstBlock, remaining in *; lia|assumption|].
      unfold firstBlock, remaining in *; lia. }
  assert (∀ i : nat, (∀ j : nat, (i < j < length a)%nat → a !!! j = b !!! j) →
            drop (S i) a = drop (S i) b) as Hdrop.
  { intros i Hj. apply list_eq_same_length with (length a - S i)%nat;
      rewrite ?length_drop; try lia.
    intros k x y Hk Hx Hy.
    rewrite lookup_drop in Hx, Hy.
    apply list_lookup_total_correct in Hx, Hy. rewrite <- Hx, <- Hy. apply Hj. lia. }
  apply Hcases.
  - intros Htop.
    pose proof (compareBlocks_spec a b (length a / 64) ltac:(lia) Hab) as Hspec.
    cbn zeta in Hspec. destruct Hspec as [[Hr Heq]|(i & Hi & Hd & Hj & Hr)].
    + left. split; [exact Hr|].
      apply list_eq_same_length with (length a); try lia.
      intros k x y Hk Hx Hy.
      apply list_lookup_total_correct in Hx, Hy. rewrite <- Hx, <- Hy.
      destruct (decide (k < firstBlock)%nat); [apply Heq; lia|apply Htop; lia].
    + right. exists i. repeat split; auto; try lia.
      apply Hdrop. intros j Hjj.
      destruct (decide (j < firstBlock)%nat); [apply Hj; lia|apply Htop; lia].
  - intros r (i & Hi & Hd & Hj & Hr). right. exists i. repeat split; auto; try lia.
Qed.

(** The sign of [reverseCompare] is the sign of the difference of the
    values. *)
Lemma reverseCompare_sgn (a b : list Z) :
  limbsOk a → limbsOk b → length a = length b →
  Z.sgn (reverseCompare a b) = Z.sgn (value a - value b).
Proof.
  intros Ha Hb Hab.
  destruct (reverseCompare_spec a b Hab) as [[Hr Heq]|(i & Hi & Hd & Hdrop & Hr)].
  - rewrite Hr, Heq. replace (value b - value b) with 0 by lia. reflexivity.
  - rewrite Hr.
    pose proof (limbsOk_lookup a i Ha Hi) as Hai.
    pose proof (limbsOk_lookup b i Hb ltac:(lia)) as Hbi.
    rewrite int32_small by (rewrite Base_eq in *; lia).
    rewrite (value_lookup_split a i Hi), (value_lookup_split b i ltac:(lia)), Hdrop.
    pose proof (value_bounds _ (limbsOk_take i a Ha)) as Hta.
    pose proof (value_bounds _ (limbsOk_take i b Hb)) as Htb.
    rewrite length_take, Nat.min_l in Hta, Htb by lia.
    pose proof (Base_pow_pos i).
    destruct (Z_lt_le_dec (a !!! i) (b !!! i)).
    + rewrite !Z.sgn_neg; [reflexivity|nia|lia].
    + rewrite !Z.sgn_pos; [reflexivity|nia|lia].
Qed.

Lemma ltb_spec (a b : list Z) :
  magnitude a → magnitude b → ltb a b = (value a <? value b).
Proof.
  intros Ha Hb. unfold ltb.
  destruct (lt_eq_lt_dec (length a) (length b)) as [[Hlt|Heq]|Hgt].
  - pose proof (magnitude_length_lt a b Ha Hb Hlt).
    rewrite (proj2 (Nat.ltb_lt _ _) Hlt). symmetry. apply Z.ltb_lt. lia.
  - rewrite (proj2 (Nat.ltb_ge _ _)) by lia. rewrite (proj2 (Nat.eqb_eq _ _) Heq).
    cbn [orb andb].
    pose proof (reverseCompare_sgn a b (proj1 Ha) (proj1 Hb) Heq) as Hs.
    destruct (Z.ltb_spec (reverseCompare a b) 0), (Z.ltb_spec (value a) (value b));
      try reflexivity; lia.
  - pose proof (magnitude_length_lt b a Hb Ha Hgt).
    rewrite (proj2 (Nat.ltb_ge _ _)) by lia. rewrite (proj2 (Nat.eqb_neq _ _)) by lia.
    symmetry. apply Z.ltb_ge. lia.
Qed.

Lemma gtb_spec (a b : list Z) :
  magnitude a → magnitude b → gtb a b = (value b <? value a).
Proof.
  intros Ha Hb. unfold gtb.
  destruct (lt_eq_lt_dec (length a) (length b)) as [[Hlt|Heq]|Hgt].
  - pose proof (magnitude_length_lt a b Ha Hb Hlt).
    rewrite (proj2 (Nat.ltb_ge _ _)) by lia. rewrite (proj2 (Nat.eqb_neq _ _)) by lia.
    symmetry. apply Z.ltb_ge. lia.
  - rewrite (proj2 (Nat.ltb_ge _ _)) by lia. rewrite (proj2 (Nat.eqb_eq _ _) Heq).
    cbn [orb andb].
    pose proof (reverseCompare_sgn a b (proj1 Ha) (proj1 Hb) Heq) as Hs.
    destruct (Z.ltb_spec 0 (reverseCompare a b)), (Z.ltb_spec (value b) (value a));
      try reflexivity; lia.
  - pose proof (magnitude_length_lt b a Hb Ha Hgt).
    rewrite (proj2 (Nat.ltb_lt _ _) Hgt). symmetry. apply Z.ltb_lt. lia.
Qed.

Lemma leb_spec (a b : list Z) :
  magnitude a → magnitude b → leb a b = (value a <=? value b).
Proof.
  intros Ha Hb. unfold leb.
  destruct (lt_eq_lt_dec (length a) (length b)) as [[Hlt|Heq]|Hgt].
  - pose proof (magnitude_length_lt a b Ha Hb Hlt).
    rewrite (proj2 (Nat.ltb_lt _ _) Hlt). symmetry. apply Z.leb_le. lia.
  - rewrite (proj2 (Nat.ltb_ge _ _)) by lia. rewrite (proj2 (Nat.eqb_eq _ _) Heq).
    cbn [orb andb].
    pose proof (reverseCompare_sgn a b (proj1 Ha) (proj1 Hb) Heq) as Hs.
    destruct (Z.leb_spec (reverseCompare a b) 0), (Z.leb_spec (value a) (value b));
      try reflexivity; lia.
  - pose proof (magnitude_length_lt b a Hb Ha Hgt).
    rewrite (proj2 (Nat.ltb_ge _ _)) by lia. rewrite (proj2 (Nat.eqb_neq _ _)) by lia.
    symmetry. apply Z.leb_gt. lia.
Qed.

Lemma geb_spec (a b : list Z) :
  magnitude a → magnitude b → geb a b = (value b <=? value a).
Proof.
  intros Ha Hb. unfold geb.
  destruct (lt_eq_lt_dec (length a) (length b)) as [[Hlt|Heq]|Hgt].
  - pose proof (magnitude_length_lt a b Ha Hb Hlt).
    rewrite (proj2 (Nat.ltb_ge _ _)) by lia. rewrite (proj2 (Nat.eqb_neq _ _)) by lia.
    symmetry. apply Z.leb_gt. lia.
  - rewrite (proj2 (Nat.ltb_ge _ _)) by lia. rewrite (proj2 (Nat.eqb_eq _ _) Heq).
    cbn [orb andb].
    pose proof (reverseCompare_sgn a b (proj1 Ha) (proj1 Hb) Heq) as Hs.
    destruct (Z.leb_spec 0 (reverseCompare a b)), (Z.leb_spec (value b) (value a));
      try reflexivity; lia.
  - pose proof (magnitude_length_lt b a Hb Ha Hgt).
    rewrite (proj2 (Nat.ltb_lt _ _) Hgt). symmetry. apply Z.leb_le. lia.
Qed.

Lemma eqb_spec (a b : list Z) :
  magnitude a → magnitude b → eqb a b = (value a =? value b).
Proof.
  intros Ha Hb. unfold eqb, memcmpDiffers.
  rewrite drop_0.
  destruct (Z.eqb_spec (value a) (value b)) as [Hv|Hv].
  - rewrite (magnitude_inj a b Ha Hb Hv).
    rewrite Nat.eqb_refl. cbn [andb].
    rewrite bool_decide_eq_false_2; [reflexivity|]. intros H. apply H. reflexivity.
  - destruct (Nat.eqb_spec (length a) (length b)) as [Hl|Hl]; [|reflexivity].
    cbn [andb]. rewrite bool_decide_eq_true_2; [reflexivity|].
    rewrite (take_ge a) by lia. rewrite (take_ge b) by lia. congruence.
Qed.

(** * Signed comparison *)

(** Closes the side conditions of concrete examples: limb ranges and
    canonical form of explicit arrays. *)
Ltac concrete :=
  repeat match goal with
  | |- signedOk _ => split; cbn [SignedInteger.absolute SignedInteger.sign]
  | |- magnitude _ => split
  | |- limbsOk _ => unfold limbsOk
  | |- Forall _ _ => constructor
  | |- canonical _ => split; cbn
  | |- _ ∧ _ => split
  | |- _ → _ => intros ?
  end; rewrite ?Base_eq in *; cbn in *; try lia; try congruence; try reflexivity.

(** C10. For signed values that satisfy the representation invariant,
    [x < y] holds exactly when the integer of [x] is below the integer of
    [y], and [x == y] exactly when the two integers are equal. *)
Theorem signed_comparison_correct (x y : SignedInteger.t) :
  signedOk x → signedOk y →
  (SignedInteger.ltb x y = true ↔ signedValue x < signedValue y)
  ∧ (SignedInteger.eqb x y = true ↔ signedValue x = signedValue y).
Proof.
  intros [Hx Hx0] [Hy Hy0].
  unfold SignedInteger.ltb, SignedInteger.eqb, signedValue.
  pose proof (value_nonneg _ (proj1 Hx)) as Hvx.
  pose proof (value_nonneg _ (proj1 Hy)) as Hvy.
  rewrite (eqb_spec _ _ Hx Hy), (ltb_spec _ _ Hx Hy), (gtb_spec _ _ Hx Hy).
  destruct (SignedInteger.sign x) eqn:Sx, (SignedInteger.sign y) eqn:Sy;
    cbn [negb orb andb Bool.eqb];
    rewrite ?Z.ltb_lt, ?Z.eqb_eq.
  - split; split; lia.
  - assert (value (SignedInteger.absolute x) ≠ 0) by (intros E; specialize (Hx0 E); congruence).
    split; split; try lia; try discriminate.
  - assert (value (SignedInteger.absolute y) ≠ 0) by (intros E; specialize (Hy0 E); congruence).
    split; split; try lia; try discriminate.
  - split; split; lia.
Qed.

Lemma signed_comparison_correct_witness :
  (SignedInteger.ltb (SignedInteger.Signed [5; 7] true) (SignedInteger.Signed [3] false) = true
   ↔ signedValue (SignedInteger.Signed [5; 7] true) < signedValue (SignedInteger.Signed [3] false))
  ∧ (SignedInteger.eqb (SignedInteger.Signed [5; 7] true) (SignedInteger.Signed [3] false) = true
     ↔ signedValue (SignedInteger.Signed [5; 7] true) = signedValue (SignedInteger.Signed [3] false)).
Proof.
  apply (signed_comparison_correct (SignedInteger.Signed [5; 7] true) (SignedInteger.Signed [3] false));
    concrete.
Defined.

(** * Carry and borrow loops *)

Lemma limbsOk_pointwise (d : list Z) :
  limbsOk d ↔ ∀ k : nat, (k < length d)%nat → 0 ≤ d !!! k < Base.
Proof.
  split.
  - intros H k Hk. apply limbsOk_lookup; assumption.
  - intros H. apply Forall_lookup. intros k x Hx.
    pose proof (lookup_lt_Some _ _ _ Hx) as Hk.
    rewrite <- (list_lookup_total_correct _ _ _ Hx). apply H. exact Hk.
Qed.

Lemma carryState_of_limbsOk (d : list Z) (i : nat) : limbsOk d → carryState d i.
Proof.
  intros H k Hk. pose proof (limbsOk_lookup d k H Hk). split; [lia|]. intros _. lia.
Qed.

Lemma carryState_limbsOk (d : list Z) (i : nat) :
  carryState d i → ((i < length d)%nat → d !!! i < Base) → limbsOk d.
Proof.
  intros H Hi. apply limbsOk_pointwise. intros k Hk.
  destruct (H k Hk) as [Hr Hne].
  destruct (decide (k = i)) as [->|Hki]; [specialize (Hi Hk)|specialize (Hne Hki)]; lia.
Qed.

(** Rewrites the lookups of updated arrays and splits on the indices. *)
Ltac updated :=
  rewrite ?list_lookup_total_insert, ?length_insert in *;
  repeat case_decide; try lia.

Lemma addLimbs_spec (o : list Z) (i : nat) (D : list Z) :
  limbsOk o → (i + length o < length D)%nat → carryState D i →
  length (addLimbs o i D) = length D
  ∧ value (addLimbs o i D) = value D + Base ^ Z.of_nat i * value o
  ∧ carryState (addLimbs o i D) (i + length o)
  ∧ addLimbs o i D !!! (i + length o)%nat ≤ D !!! (i + length o)%nat + 1.
Proof.
  revert i D. induction o as [|o0 o IH]; intros i D Ho Hlen HD.
  - cbn [addLimbs length value]. rewrite !Nat.add_0_r.
    split; [reflexivity|]. split; [lia|]. split; [exact HD|]. lia.
  - cbn [length] in Hlen. apply limbsOk_cons in Ho as [Ho0 Ho].
    cbn [addLimbs value length].
    destruct (HD i ltac:(lia)) as [Hi _].
    destruct (HD (S i) ltac:(lia)) as [HSi HSi'].  specialize (HSi' ltac:(lia)).
    assert (wrap32 (D !!! i + o0) = D !!! i + o0) as Hsum
      by (apply wrap32_small; rewrite Base_eq in *; lia).
    rewrite Hsum.
    set (D2 := if decide (Base ≤ D !!! i + o0)
               then <[S i := wrap32 (<[i := D !!! i + o0]> D !!! S i + 1)]>
                      (<[i := wrap32 (D !!! i + o0 - Base)]> (<[i := D !!! i + o0]> D))
               else <[i := D !!! i + o0]> D).
    assert (length D2 = length D) as HlenD2
      by (unfold D2; case_decide; rewrite ?length_insert; reflexivity).
    assert (value D2 = value D + o0 * Base ^ Z.of_nat i) as HvD2.
    { unfold D2. case_decide.
      - rewrite !value_insert by (rewrite ?length_insert; lia).
        updated. rewrite !wrap32_small by (rewrite Base_eq in *; lia).
        rewrite Base_pow_S. ring.
      - rewrite !value_insert by lia. ring. }
    assert (carryState D2 (S i)) as HcD2.
    { intros k Hk. rewrite HlenD2 in Hk. destruct (HD k Hk) as [Hk1 Hk2].
      unfold D2. case_decide.
      - updated; rewrite ?wrap32_small by (rewrite Base_eq in *; lia);
          try (specialize (Hk2 ltac:(lia))); subst; split; intros; lia.
      - updated; try (specialize (Hk2 ltac:(lia))); subst; split; intros; lia. }
    assert (D2 !!! S i ≤ D !!! S i + 1) as HtopD2.
    { unfold D2. case_decide.
      - updated. rewrite wrap32_small by (rewrite Base_eq in *; lia). lia.
      - updated. }
    assert (∀ k : nat, (S i < k)%nat → D2 !!! k = D !!! k) as HaboveD2.
    { intros k Hk. unfold D2. case_decide; updated. }
    destruct (IH (S i) D2 Ho ltac:(lia) HcD2) as (Hl & Hv & Hc & Ht).
    replace (i + S (length o))%nat with (S i + length o)%nat by lia.
    split_and!.
    + lia.
    + rewrite Hv, HvD2, Base_pow_S. ring.
    + exact Hc.
    + destruct o as [|o1 o].
      * cbn [addLimbs length] in *. rewrite Nat.add_0_r in *. exact HtopD2.
      * rewrite <- (HaboveD2 (S i + length (o1 :: o))%nat) by (cbn [length]; lia).
        exact Ht.
Qed.

Lemma propagateCarry_spec (distance i : nat) (D : list Z) :
  (i + distance < length D)%nat → carryState D i →
  let '(D', i') := propagateCarry distance i D in
  length D' = length D ∧ value D' = value D ∧ carryState D' i'
  ∧ (i ≤ i' ≤ i + distance)%nat
  ∧ ((i' < i + distance)%nat → D' !!! i' < Base)
  ∧ (∀ k : nat, (i' < k)%nat → D' !!! k = D !!! k)
  ∧ ((i < i')%nat → 1 ≤ D' !!! i')
  ∧ (i' = i → D' = D).
Proof.
  revert i D. induction distance as [|distance IH]; intros i D Hlen HD.
  - cbn [propagateCarry]. split_and!; try lia; auto.
  - cbn [propagateCarry]. case_decide as Hc.
    + destruct (HD i ltac:(lia)) as [Hi _].
      destruct (HD (S i) ltac:(lia)) as [HSi HSi']. specialize (HSi' ltac:(lia)).
      set (D2 := <[S i := wrap32 (D !!! S i + 1)]> (<[i := wrap32 (D !!! i - Base)]> D)).
      assert (length D2 = length D) as HlenD2 by (unfold D2; rewrite !length_insert; reflexivity).
      assert (D2 !!! S i = D !!! S i + 1) as HtopD2.
      { unfold D2. updated. rewrite wrap32_small by (rewrite Base_eq in *; lia). lia. }
      assert (value D2 = value D) as HvD2.
      { unfold D2. rewrite !value_insert by (rewrite ?length_insert; lia).
        updated. rewrite !wrap32_small by (rewrite Base_eq in *; lia).
        rewrite Base_pow_S. ring. }
      assert (carryState D2 (S i)) as HcD2.
      { intros k Hk. rewrite HlenD2 in Hk. destruct (HD k Hk) as [Hk1 Hk2].
        unfold D2.
        updated; rewrite ?wrap32_small by (rewrite Base_eq in *; lia);
          try (specialize (Hk2 ltac:(lia))); subst; split; intros; lia. }
      assert (∀ k : nat, (S i < k)%nat → D2 !!! k = D !!! k) as HaboveD2.
      { intros k Hk. unfold D2. updated. }
      specialize (IH (S i) D2 ltac:(lia) HcD2).
      destruct (propagateCarry distance (S i) D2) as [D' i'].
      destruct IH as (Hl & Hv & Hcs & Hi' & Hlt & Habove & Hpos & Hsame).
      split_and!; [lia|lia|exact Hcs|lia|lia|..].
      * intros H. apply Hlt. lia.
      * intros k Hk. rewrite Habove by lia. apply HaboveD2. lia.
      * intros _. destruct (decide (S i < i')%nat) as [Hgt|Hle]; [apply Hpos; lia|].
        assert (i' = S i) as -> by lia.
        rewrite (Hsame eq_refl). lia.
      * intros ->. lia.
    + split_and!; try lia; auto.
Qed.

(** * Addition and increment *)

(** When the top limb is the only one that may be out of range and the
    value fits the length, the top limb is in range too. *)
Lemma carryState_top_fits (D : list Z) :
  (1 ≤ length D)%nat → carryState D (length D - 1) →
  value D < Base ^ Z.of_nat (length D) → limbsOk D.
Proof.
  intros Hlen HD Hv. apply (carryState_limbsOk D (length D - 1) HD). intros _.
  destruct (length D) as [|n] eqn:Hn; [lia|].
  replace (S n - 1)%nat with n in * by lia.
  rewrite (value_lookup_split D n) in Hv by lia.
  rewrite drop_ge in Hv by lia. cbn [value] in Hv.
  assert (limbsOk (take n D)) as Hlow.
  { apply limbsOk_pointwise. intros k Hk. rewrite length_take in Hk.
    rewrite lookup_total_take_lt by lia.
    destruct (HD k ltac:(lia)) as [H1 H2]. specialize (H2 ltac:(lia)). lia. }
  pose proof (value_nonneg _ Hlow).
  rewrite Base_pow_S in Hv. pose proof (Base_pow_pos n). nia.
Qed.

Lemma addAssign_spec (this other : list Z) :
  limbsOk this → limbsOk other → (1 ≤ length this)%nat →
  ((length this ≤ length other)%nat
   ∨ value this + value other < Base ^ Z.of_nat (length this)) →
  value (addAssign this other) = value this + value other
  ∧ magnitude (addAssign this other).
Proof.
  intros Hthis Hother Hlen Hfit. unfold addAssign.
  destruct (decide (length this ≤ length other)%nat) as [Hle|Hgt].
  - set (D0 := this ++ replicate (length other + 1 - length this) 0).
    assert (length D0 = length other + 1)%nat as HlenD0
      by (unfold D0; rewrite length_app, length_replicate; lia).
    assert (limbsOk D0) as HokD0
      by (apply limbsOk_app; split; [assumption|apply limbsOk_replicate_0]).
    assert (value D0 = value this) as HvD0
      by (unfold D0; rewrite value_app, value_replicate_0; lia).
    assert (D0 !!! length other = 0) as Htop.
    { unfold D0. rewrite lookup_total_app_r by lia.
      apply lookup_total_replicate_2. lia. }
    destruct (addLimbs_spec other 0 D0 Hother ltac:(lia) (carryState_of_limbsOk _ _ HokD0))
      as (Hl & Hv & Hc & Ht).
    cbn [Nat.add] in *. rewrite Z.pow_0_r, Z.mul_1_l in Hv.
    replace (length D0 - 1 - length other)%nat with 0%nat by lia.
    cbn [propagateCarry fst].
    assert (limbsOk (addLimbs other 0 D0)) as Hok
      by (apply (carryState_limbsOk _ _ Hc); intros _; rewrite Base_eq; lia).
    split.
    + rewrite value_trim. lia.
    + apply magnitude_trim; [assumption|lia].
  - destruct Hfit as [?|Hfit]; [lia|].
    destruct (addLimbs_spec other 0 this Hother ltac:(lia) (carryState_of_limbsOk _ _ Hthis))
      as (Hl & Hv & Hc & Ht).
    cbn [Nat.add] in *. rewrite Z.pow_0_r, Z.mul_1_l in Hv.
    pose proof (propagateCarry_spec (length this - 1 - length other) (length other)
                  (addLimbs other 0 this) ltac:(lia) Hc) as Hp.
    destruct (propagateCarry _ _ _) as [D' i']. cbn [fst].
    destruct Hp as (Hl' & Hv' & Hc' & Hi' & Hlt & _).
    assert (limbsOk D') as Hok.
    { destruct (decide (i' < length D' - 1)%nat) as [Hin|Hin].
      - apply (carryState_limbsOk _ _ Hc'). intros _. apply Hlt. lia.
      - replace i' with (length D' - 1)%nat in Hc' by lia.
        apply carryState_top_fits; [lia|assumption|].
        rewrite Hv', Hv, Hl', Hl. assumption. }
    split.
    + rewrite value_trim. lia.
    + apply magnitude_trim; [assumption|lia].
Qed.

Lemma increment_spec (this : list Z) :
  limbsOk this → (1 ≤ length this)%nat →
  value (increment this) = value this + 1
  ∧ limbsOk (increment this)
  ∧ (canonical this → canonical (increment this))
  ∧ (length this ≤ length (increment this) ≤ length this + 1)%nat.
Proof.
  intros Hthis Hlen. unfold increment.
  pose proof (limbsOk_lookup this 0 Hthis ltac:(lia)) as H0.
  set (D0 := <[0%nat := wrap32 (this !!! 0%nat + 1)]> this).
  assert (length D0 = length this) as HlenD0 by (unfold D0; apply length_insert).
  assert (value D0 = value this + 1) as HvD0.
  { unfold D0. rewrite value_insert by lia.
    rewrite wrap32_small by (rewrite Base_eq in *; lia). rewrite Z.pow_0_r. ring. }
  assert (carryState D0 0) as HcD0.
  { intros k Hk. rewrite HlenD0 in Hk. pose proof (limbsOk_lookup this k Hthis Hk).
    unfold D0. updated; rewrite ?wrap32_small by (rewrite Base_eq in *; lia);
      split; intros; lia. }
  assert (∀ k : nat, (0 < k)%nat → D0 !!! k = this !!! k) as Hab0
    by (intros k Hk; unfold D0; updated).
  pose proof (propagateCarry_spec (length this - 1) 0 D0 ltac:(lia) HcD0) as Hp.
  destruct (propagateCarry _ _ _) as [D' i'].
  destruct Hp as (Hl' & Hv' & Hc' & Hi' & Hlt & Habove & Hpos & Hsame).
  case_decide as Hgrow.
  - destruct Hgrow as [-> Htop].
    destruct (Hc' (length this - 1)%nat ltac:(lia)) as [Hr _].
    assert (D' !!! (length this - 1)%nat = Base) as HB by lia.
    rewrite HB, Z.sub_diag. change (wrap32 0) with 0.
    assert (limbsOk (<[(length this - 1)%nat := 0]> D')) as Hok.
    { apply limbsOk_pointwise. intros k Hk. rewrite length_insert in Hk.
      destruct (Hc' k Hk) as [Hk1 Hk2].
      updated; try (rewrite Base_eq; lia); specialize (Hk2 ltac:(lia)); lia. }
    split_and!.
    + rewrite value_app, length_insert, value_insert by lia. cbn [value].
      rewrite HB, Hl', HlenD0.
      pose proof (Base_pow_S (length this - 1)) as HS.
      replace (S (length this - 1)) with (length this) in HS by lia. lia.
    + apply limbsOk_app. split; [assumption|].
      apply limbsOk_cons. split; [rewrite Base_eq; lia|apply limbsOk_nil].
    + intros _. split; rewrite length_app, length_insert; cbn [length]; [lia|].
      intros _. rewrite lookup_total_app_r by (rewrite length_insert; lia).
      rewrite length_insert.
      replace (length D' + 1 - 1 - length D')%nat with 0%nat by lia.
      cbn. lia.
    + rewrite length_app, length_insert. cbn [length]. lia.
    + rewrite length_app, length_insert. cbn [length]. lia.
  - assert (limbsOk D') as Hok.
    { apply (carryState_limbsOk _ _ Hc'). intros Hin.
      destruct (decide (i' < 0 + (length this - 1))%nat) as [Hlow|Hhigh];
        [apply Hlt; assumption|].
      destruct (decide (Base ≤ D' !!! i')); [|lia].
      exfalso. apply Hgrow. split; [lia|assumption]. }
    split_and!; try lia; try assumption.
    intros [_ Hcan]. split; [lia|]. rewrite Hl', HlenD0. intros Hn.
    specialize (Hcan Hn).
    destruct (decide (i' < length this - 1)%nat) as [Hlow|Hhigh].
    + rewrite Habove, Hab0 by lia. exact Hcan.
    + replace (length this - 1)%nat with i' by lia.
      specialize (Hpos ltac:(lia)). lia.
Qed.

(** * Subtraction and decrement *)

Lemma borrowState_of_limbsOk (d : list Z) (i : nat) : limbsOk d → borrowState d i.
Proof. intros H k Hk. left. apply limbsOk_lookup; assumption. Qed.

Lemma borrowState_limbsOk (d : list Z) (i : nat) :
  borrowState d i → ((i < length d)%nat → d !!! i < Base) → limbsOk d.
Proof.
  intros H Hi. apply limbsOk_pointwise. intros k Hk.
  destruct (H k Hk) as [Hr|[-> Hw]]; [assumption|].
  specialize (Hi Hk). rewrite Base_eq in Hi. lia.
Qed.

Lemma borrowState_below (d : list Z) (i : nat) :
  borrowState d i → (i ≤ length d)%nat → limbsOk (take i d).
Proof.
  intros H Hi. apply limbsOk_pointwise. intros k Hk. rewrite length_take in Hk.
  rewrite lookup_total_take_lt by lia.
  destruct (H k ltac:(lia)) as [Hr|[-> _]]; [assumption|lia].
Qed.

(** A borrow pending in the top limb makes the array stand for a negative
    integer. *)
Lemma borrowValue_top_negative (d : list Z) (i : nat) :
  borrowState d i → S i = length d → Base ≤ d !!! i → borrowValue d i < 0.
Proof.
  intros H Hi Hp. unfold borrowValue. rewrite decide_True by (split; [lia|assumption]).
  destruct (H i ltac:(lia)) as [Hr|[_ Hw]]; [lia|].
  rewrite (value_lookup_split d i) by lia. rewrite drop_ge by lia. cbn [value].
  pose proof (value_bounds _ (borrowState_below d i H ltac:(lia))) as Hb.
  rewrite length_take, Nat.min_l in Hb by lia. rewrite Hw. nia.
Qed.

Lemma borrowValue_settled (d : list Z) (i : nat) :
  ((i < length d)%nat → d !!! i < Base) → borrowValue d i = value d.
Proof.
  intros H. unfold borrowValue. case_decide as Hc; [|lia].
  destruct Hc as [Hi Hc]. specialize (H Hi). lia.
Qed.

Lemma borrowValue_pending (d : list Z) (i : nat) :
  (i < length d)%nat → d !!! i = 2 ^ 32 - 1 →
  borrowValue d i = value d - 2 ^ 32 * Base ^ Z.of_nat i.
Proof.
  intros Hi H. unfold borrowValue. rewrite decide_True; [reflexivity|].
  split; [assumption|]. rewrite H, Base_eq. lia.
Qed.

(** One step of borrowing: limb [i], holding the signed digit [s], becomes
    [s + Base] and limb [i + 1] loses one. *)
Lemma borrow_step (D : list Z) (i : nat) (x : Z) :
  (S i < length D)%nat → borrowState D i → 0 ≤ x < Base →
  let D' := <[S i := wrap32 (D !!! S i - 1)]> (<[i := x]> D) in
  length D' = length D
  ∧ borrowState D' (S i)
  ∧ borrowValue D' (S i) = value D + (x - Base - D !!! i) * Base ^ Z.of_nat i.
Proof.
  intros Hi HD Hx D'.
  assert (length D' = length D) as Hl by (unfold D'; rewrite !length_insert; reflexivity).
  destruct (HD (S i) ltac:(lia)) as [HS|[? _]]; [|lia].
  split; [exact Hl|].
  destruct (decide (D !!! S i = 0)) as [Hz|Hnz].
  - assert (D' !!! S i = 2 ^ 32 - 1) as Htop.
    { unfold D'. updated. rewrite Hz. reflexivity. }
    split.
    + intros k Hk. rewrite Hl in Hk. destruct (decide (k = S i)) as [->|Hne].
      * right. split; [reflexivity|exact Htop].
      * left. unfold D'. updated. destruct (HD k Hk) as [Hr|[? _]]; [exact Hr|lia].
    + rewrite borrowValue_pending; [|rewrite Hl; lia|exact Htop].
      unfold D'. rewrite !value_insert by (rewrite ?length_insert; lia).
      updated. rewrite Hz. change (wrap32 (0 - 1)) with (2 ^ 32 - 1).
      rewrite Base_pow_S. ring.
  - assert (D' !!! S i = D !!! S i - 1) as Htop.
    { unfold D'. updated. apply wrap32_small. rewrite Base_eq in *. lia. }
    split.
    + intros k Hk. rewrite Hl in Hk. left. destruct (decide (k = S i)) as [->|Hne].
      * rewrite Htop. lia.
      * unfold D'. updated. destruct (HD k Hk) as [Hr|[? _]]; [exact Hr|lia].
    + rewrite borrowValue_settled by (intros _; rewrite Htop; lia).
      unfold D'. rewrite !value_insert by (rewrite ?length_insert; lia).
      updated. rewrite wrap32_small by (rewrite Base_eq in *; lia).
      rewrite Base_pow_S. ring.
Qed.

Lemma subLimbs_spec (o : list Z) (i : nat) (D : list Z) :
  limbsOk o → (i + length o ≤ length D)%nat → borrowState D i →
  0 ≤ borrowValue D i - Base ^ Z.of_nat i * value o →
  length (subLimbs o i D) = length D
  ∧ borrowState (subLimbs o i D) (i + length o)
  ∧ borrowValue (subLimbs o i D) (i + length o)
    = borrowValue D i - Base ^ Z.of_nat i * value o.
Proof.
  revert i D. induction o as [|o0 o IH]; intros i D Ho Hlen HD HQ.
  - cbn [subLimbs length value]. rewrite !Nat.add_0_r.
    split_and!; [reflexivity|assumption|lia].
  - cbn [length] in Hlen. apply limbsOk_cons in Ho as [Ho0 Ho].
    cbn [subLimbs value length]. cbn [value] in HQ.
    replace (i + S (length o))%nat with (S i + length o)%nat by lia.
    pose proof (value_nonneg o Ho) as Hvo.
    pose proof (Base_pow_pos i) as HBi.
    pose proof (value_bounds _ (borrowState_below D i HD ltac:(lia))) as Hlow.
    rewrite length_take, Nat.min_l in Hlow by lia.
    (* the signed digit at [i] and the limb written back *)
    assert (∃ s : Z, -1 ≤ s < Base ∧ borrowValue D i = value D + (s - D !!! i) * Base ^ Z.of_nat i
             ∧ ((o0 ≤ s ∧ wrap32 (D !!! i - o0) = s - o0)
                ∨ (s < o0 ∧ Base ≤ wrap32 (D !!! i - o0)
                   ∧ wrap32 (wrap32 (D !!! i - o0) + Base) = s - o0 + Base)))
      as (s & Hs & HQs & Hcase).
    { destruct (HD i ltac:(lia)) as [Hr|[_ Hw]].
      - exists (D !!! i). split; [lia|]. split.
        + rewrite borrowValue_settled by (intros _; lia). ring.
        + destruct (Z_le_gt_dec o0 (D !!! i)).
          * left. split; [lia|]. apply wrap32_small. rewrite Base_eq in *. lia.
          * right. split; [lia|].
            assert (wrap32 (D !!! i - o0) = D !!! i - o0 + 2 ^ 32) as ->.
            { unfold wrap32. symmetry. apply Z.mod_unique with (-1); rewrite Base_eq in *; lia. }
            split; [rewrite Base_eq in *; lia|].
            unfold wrap32. symmetry. apply Z.mod_unique with 1; rewrite Base_eq in *; lia.
      - exists (-1). split; [lia|]. split.
        + rewrite borrowValue_pending by (lia || assumption). rewrite Hw. ring.
        + right. split; [lia|]. rewrite Hw.
          rewrite (wrap32_small (2 ^ 32 - 1 - o0)) by (rewrite Base_eq in *; lia).
          split; [rewrite Base_eq in *; lia|].
          unfold wrap32. symmetry. apply Z.mod_unique with 1; rewrite Base_eq in *; lia. }
    destruct Hcase as [[Hge Hw]|(Hlt & Hb & Hw)].
    + (* no borrow *)
      rewrite Hw. rewrite decide_False by lia.
      set (D2 := <[i := s - o0]> D).
      assert (length D2 = length D) as Hl2 by apply length_insert.
      assert (borrowState D2 (S i)) as Hst.
      { intros k Hk. rewrite Hl2 in Hk. left. unfold D2. updated.
        destruct (HD k Hk) as [Hr|[? _]]; [exact Hr|lia]. }
      assert (borrowValue D2 (S i) = borrowValue D i - o0 * Base ^ Z.of_nat i) as HQ2.
      { rewrite borrowValue_settled.
        - unfold D2. rewrite value_insert by lia. rewrite HQs. ring.
        - intros HSi. unfold D2. updated.
          destruct (HD (S i) ltac:(lia)) as [Hr|[? _]]; lia. }
      destruct (IH (S i) D2 Ho ltac:(lia) Hst) as (Hl & Hst' & Hv).
      { rewrite HQ2, Base_pow_S. lia. }
      split_and!; [lia|assumption|]. rewrite Hv, HQ2, Base_pow_S. ring.
    + (* borrow from the next limb *)
      rewrite decide_True by assumption.
      rewrite list_insert_insert_eq, Hw.
      rewrite list_lookup_total_insert_ne by lia.
      destruct (decide (S i < length D)%nat) as [Hin|Hout].
      * destruct (borrow_step D i (s - o0 + Base) Hin HD ltac:(lia)) as (Hl2 & Hst & HQ2).
        set (D2 := <[S i := wrap32 (D !!! S i - 1)]> (<[i := s - o0 + Base]> D)) in *.
        assert (borrowValue D2 (S i) = borrowValue D i - o0 * Base ^ Z.of_nat i) as HQ2'
          by (rewrite HQ2, HQs; ring).
        destruct (IH (S i) D2 Ho ltac:(lia) Hst) as (Hl & Hst' & Hv).
        { rewrite HQ2', Base_pow_S. lia. }
        split_and!; [lia|assumption|]. rewrite Hv, HQ2', Base_pow_S. ring.
      * (* the borrow would leave the array: the difference is negative *)
        exfalso.
        rewrite HQs in HQ.
        rewrite (value_lookup_split D i) in HQ by lia.
        rewrite drop_ge in HQ by lia. cbn [value] in HQ.
        pose proof Base_gt_1.
        assert (0 ≤ Base ^ Z.of_nat i * (Base * value o)) by nia.
        assert ((s - o0) * Base ^ Z.of_nat i ≤ - Base ^ Z.of_nat i) by nia.
        lia.
Qed.

Lemma propagateBorrow_spec (distance i : nat) (D : list Z) :
  (length D - 1 ≤ i + distance ≤ length D)%nat → (1 ≤ length D)%nat →
  borrowState D i → 0 ≤ borrowValue D i →
  length (propagateBorrow distance i D) = length D
  ∧ limbsOk (propagateBorrow distance i D)
  ∧ value (propagateBorrow distance i D) = borrowValue D i.
Proof.
  revert i D. induction distance as [|distance IH]; intros i D Hlen Hpos HD HQ.
  - cbn [propagateBorrow].
    assert ((i < length D)%nat → D !!! i < Base) as Hsettled.
    { intros Hi. destruct (Z_lt_le_dec (D !!! i) Base) as [|Hp]; [assumption|].
      pose proof (borrowValue_top_negative D i HD ltac:(lia) Hp). lia. }
    split_and!; [reflexivity|apply (borrowState_limbsOk D i HD Hsettled)|].
    symmetry. apply borrowValue_settled. exact Hsettled.
  - cbn [propagateBorrow]. case_decide as Hp.
    + destruct (decide (S i < length D)%nat) as [Hin|Hout].
      * destruct (HD i ltac:(lia)) as [Hr|[_ Hw]]; [lia|].
        assert (wrap32 (D !!! i + Base) = Base - 1) as Hwrap.
        { rewrite Hw. unfold wrap32. symmetry.
          apply Z.mod_unique with 1; rewrite Base_eq; lia. }
        rewrite Hwrap.
        destruct (borrow_step D i (Base - 1) Hin HD ltac:(rewrite Base_eq; lia))
          as (Hl2 & Hst & HQ2).
        set (D2 := <[S i := wrap32 (D !!! S i - 1)]> (<[i := Base - 1]> D)) in *.
        assert (borrowValue D2 (S i) = borrowValue D i) as HQ2'.
        { rewrite HQ2, borrowValue_pending by (lia || assumption). rewrite Hw. ring. }
        destruct (IH (S i) D2 ltac:(lia) ltac:(lia) Hst ltac:(lia)) as (Hl & Hok & Hv).
        split_and!; [lia|assumption|lia].
      * exfalso. pose proof (borrowValue_top_negative D i HD ltac:(lia) Hp). lia.
    + assert ((i < length D)%nat → D !!! i < Base) as Hsettled by (intros _; lia).
      split_and!; [reflexivity|apply (borrowState_limbsOk D i HD Hsettled)|].
      symmetry. apply borrowValue_settled. exact Hsettled.
Qed.

Lemma subAssign_spec (this other : list Z) :
  magnitude this → magnitude other → value other ≤ value this →
  ∃ r, subAssign this other = Ok r
       ∧ value r = value this - value other ∧ magnitude r.
Proof.
  intros Hthis Hother Hle. unfold subAssign.
  rewrite (geb_spec _ _ Hthis Hother), (proj2 (Z.leb_le _ _) Hle).
  cbn [VALIDITY_CHECK mbind outcome_bind].
  assert (length other ≤ length this)%nat as Hlen.
  { destruct (decide (length other ≤ length this)%nat) as [|Hgt]; [assumption|].
    pose proof (magnitude_length_lt this other Hthis Hother ltac:(lia)). lia. }
  destruct Hthis as [Hokt [Hlt _]]. destruct Hother as [Hoko _].
  assert (borrowValue this 0 = value this) as HQ0.
  { apply borrowValue_settled. intros Hi. apply limbsOk_lookup; assumption. }
  destruct (subLimbs_spec other 0 this Hoko ltac:(lia) (borrowState_of_limbsOk _ _ Hokt))
    as (Hl & Hst & Hv).
  { rewrite HQ0, Z.pow_0_r. lia. }
  cbn [Nat.add] in *. rewrite Z.pow_0_r, Z.mul_1_l, HQ0 in Hv.
  destruct (propagateBorrow_spec (length this - length other) (length other)
              (subLimbs other 0 this) ltac:(lia) ltac:(lia) Hst ltac:(lia))
    as (Hl' & Hok' & Hv').
  eexists. split; [reflexivity|]. split.
  - rewrite value_trim. lia.
  - apply magnitude_trim; [assumption|lia].
Qed.

Lemma subAssign_underflow (this other : list Z) :
  magnitude this → magnitude other → value this < value other →
  subAssign this other = Fail (invalid_argument SubtractionUnderflow).
Proof.
  intros Hthis Hother Hlt. unfold subAssign.
  rewrite (geb_spec _ _ Hthis Hother), (proj2 (Z.leb_gt _ _) Hlt). reflexivity.
Qed.

Lemma decrement_spec (this : list Z) :
  limbsOk this → (1 ≤ length this)%nat → 1 ≤ value this →
  ∃ r, decrement this = Ok r
       ∧ value r = value this - 1 ∧ limbsOk r ∧ length r = length this.
Proof.
  intros Hok Hlen Hv. unfold decrement.
  pose proof (limbsOk_lookup this 0 Hok ltac:(lia)) as H0.
  assert (toBool this = true) as ->.
  { unfold toBool. destruct this as [|x [|y this]]; cbn [length] in *; try lia.
    - cbn [value] in Hv. change ([x] !!! 0%nat) with x in *.
      cbn [Nat.eqb negb orb]. apply negb_true_iff, Z.eqb_neq. lia.
    - reflexivity. }
  cbn [VALIDITY_CHECK mbind outcome_bind].
  set (D0 := <[0%nat := wrap32 (this !!! 0%nat - 1)]> this).
  assert (length D0 = length this) as Hl0 by apply length_insert.
  assert (borrowState D0 0 ∧ borrowValue D0 0 = value this - 1) as [Hst HQ].
  { destruct (decide (this !!! 0%nat = 0)) as [Hz|Hnz].
    - assert (D0 !!! 0%nat = 2 ^ 32 - 1) as Hw by (unfold D0; updated; rewrite Hz; reflexivity).
      split.
      + intros k Hk. rewrite Hl0 in Hk. destruct (decide (k = 0%nat)) as [->|Hne].
        * right. split; [reflexivity|exact Hw].
        * left. unfold D0. updated. apply limbsOk_lookup; assumption.
      + rewrite borrowValue_pending; [|lia|exact Hw].
        unfold D0. rewrite value_insert by lia. rewrite Hz.
        change (wrap32 (0 - 1)) with (2 ^ 32 - 1). rewrite Z.pow_0_r. ring.
    - assert (D0 !!! 0%nat = this !!! 0%nat - 1) as Hw.
      { unfold D0. updated. apply wrap32_small. rewrite Base_eq in *. lia. }
      split.
      + intros k Hk. rewrite Hl0 in Hk. left. destruct (decide (k = 0%nat)) as [->|Hne].
        * rewrite Hw. lia.
        * unfold D0. updated. apply limbsOk_lookup; assumption.
      + rewrite borrowValue_settled by (intros _; rewrite Hw; lia).
        unfold D0. rewrite value_insert by lia.
        rewrite wrap32_small by (rewrite Base_eq in *; lia). rewrite Z.pow_0_r. ring. }
  destruct (propagateBorrow_spec (length this - 1) 0 D0 ltac:(lia) ltac:(lia) Hst ltac:(lia))
    as (Hl & Hok' & Hv').
  eexists. split; [reflexivity|]. split_and!; [lia|assumption|lia].
Qed.

Lemma decrement_zero : decrement zero = Fail (invalid_argument DecrementOfZero).
Proof. reflexivity. Qed.

(** * Limb shifts *)

Lemma value_drop (k : nat) (d : list Z) :
  limbsOk d → value (drop k d) = value d / Base ^ Z.of_nat k.
Proof.
  intros Hok. destruct (decide (k ≤ length d)%nat) as [Hk|Hk].
  - rewrite (value_take_drop k d).
    pose proof (value_bounds _ (limbsOk_take k d Hok)) as Hb.
    rewrite length_take, Nat.min_l in * by lia.
    pose proof (Base_pow_pos k).
    apply Z.div_unique with (value (take k d)); lia.
  - rewrite drop_ge by lia. cbn [value].
    pose proof (value_bounds d Hok) as Hb.
    pose proof (Base_pow_le (length d) k ltac:(lia)).
    symmetry. apply Z.div_small. lia.
Qed.

Lemma rightShift_spec (this : list Z) (k : nat) :
  limbsOk this →
  value (rightShift this k) = value this / Base ^ Z.of_nat k
  ∧ magnitude (rightShift this k).
Proof.
  intros Hok. unfold rightShift. case_decide as Hk.
  - split; [|apply magnitude_zero]. rewrite value_zero. symmetry.
    pose proof (value_bounds this Hok) as Hb.
    pose proof (Base_pow_le (length this) k ltac:(lia)).
    apply Z.div_small. lia.
  - split.
    + rewrite value_trim. apply value_drop. assumption.
    + apply magnitude_trim; [apply limbsOk_drop; assumption|].
      rewrite length_drop. lia.
Qed.

Lemma leftShift_spec (this : list Z) (k : nat) :
  magnitude this → 0 < value this →
  value (leftShift this k) = value this * Base ^ Z.of_nat k
  ∧ magnitude (leftShift this k)
  ∧ length (leftShift this k) = (length this + k)%nat.
Proof.
  intros Hm Hv. unfold leftShift. case_decide as Hk.
  - destruct Hm as [Hok [Hlen Htop]]. destruct Hk as [Hk | Hk]; [lia|subst k].
    rewrite Z.pow_0_r. split_and!; [lia|split; [assumption|split; assumption]|lia].
  - split_and!.
    + rewrite value_app, value_replicate_0, length_replicate. lia.
    + destruct Hm as [Hok [Hlen Htop]]. split.
      * apply limbsOk_app. split; [apply limbsOk_replicate_0|assumption].
      * split; rewrite length_app, length_replicate; [lia|].
        intros _. rewrite lookup_total_app_r by (rewrite length_replicate; lia).
        rewrite length_replicate.
        replace (k + length this - 1 - k)%nat with (length this - 1)%nat by lia.
        destruct (decide (1 < length this)%nat) as [Hn|Hn]; [apply Htop; assumption|].
        destruct this as [|x [|y this]]; cbn [length] in *; try lia.
        cbn [value] in Hv. cbn. lia.
    + rewrite length_app, length_replicate. lia.
Qed.

(** * Schoolbook multiplication *)

Lemma weightedSum_ext (f g : nat → Z) (from count : nat) :
  (∀ k : nat, (from ≤ k < from + count)%nat → f k = g k) →
  weightedSum f from count = weightedSum g from count.
Proof.
  revert from. induction count as [|count IH]; intros from H; cbn [weightedSum];
    [reflexivity|].
  rewrite (H from) by lia. rewrite (IH (S from)); [reflexivity|].
  intros k Hk. apply H. lia.
Qed.

Lemma weightedSum_plus (f g : nat → Z) (from count : nat) :
  weightedSum (λ k, f k + g k) from count
  = weightedSum f from count + weightedSum g from count.
Proof.
  revert from. induction count as [|count IH]; intros from; cbn [weightedSum]; [lia|].
  rewrite IH. ring.
Qed.

Lemma weightedSum_scale (c : Z) (f : nat → Z) (from count : nat) :
  weightedSum (λ k, f k * c) from count = c * weightedSum f from count.
Proof.
  revert from. induction count as [|count IH]; intros from; cbn [weightedSum]; [lia|].
  rewrite IH. ring.
Qed.

Lemma weightedSum_shift (g : nat → Z) (from count : nat) :
  weightedSum (λ k, g (k - 1)%nat) (S from) count = Base * weightedSum g from count.
Proof.
  revert from. induction count as [|count IH]; intros from; cbn [weightedSum]; [lia|].
  rewrite IH. replace (S from - 1)%nat with from by lia. rewrite Base_pow_S. ring.
Qed.

Lemma weightedSum_limbs (a : list Z) (from count : nat) :
  (length a ≤ from + count)%nat →
  weightedSum (λ k, nth k a 0) from count
  = Base ^ Z.of_nat from * value (drop from a).
Proof.
  revert from. induction count as [|count IH]; intros from H; cbn [weightedSum].
  - rewrite drop_ge by lia. cbn [value]. lia.
  - rewrite IH by lia.
    destruct (decide (from < length a)%nat) as [Hin|Hout].
    + destruct (lookup_lt_is_Some_2 a from Hin) as [x Hx].
      rewrite (drop_S _ _ _ Hx). cbn [value].
      rewrite (nth_lookup_Some _ _ 0 _ Hx). rewrite Base_pow_S. ring.
    + rewrite nth_overflow by lia. rewrite !drop_ge by lia. cbn [value]. lia.
Qed.

Lemma column_nil (this : list Z) (i j : nat) : column this [] i j = 0.
Proof. reflexivity. Qed.

Lemma column_above (this other : list Z) (i j : nat) :
  (i < j)%nat → column this other i j = 0.
Proof.
  intros H. destruct other; cbn [column]; [reflexivity|].
  rewrite decide_False by lia. reflexivity.
Qed.

Lemma column_succ (this other : list Z) (i j : nat) :
  column this other (S i) (S j) = column this other i j.
Proof.
  revert j. induction other as [|o other IH]; intros j; cbn [column]; [reflexivity|].
  destruct (decide (j ≤ i)%nat).
  - rewrite decide_True by lia. rewrite IH. reflexivity.
  - rewrite decide_False by lia. reflexivity.
Qed.

Lemma column_nonneg (this other : list Z) (i j : nat) :
  limbsOk this → limbsOk other → 0 ≤ column this other i j.
Proof.
  intros Ht. revert j. induction other as [|o other IH]; intros j Ho; cbn [column]; [lia|].
  apply limbsOk_cons in Ho as [Ho0 Ho]. case_decide; [|lia].
  pose proof (limbsOk_nth this (i - j) Ht). specialize (IH (S j) Ho). nia.
Qed.

Lemma column_bound_other (this other : list Z) (i j : nat) :
  limbsOk this → limbsOk other →
  column this other i j ≤ Z.of_nat (length other) * ((Base - 1) * (Base - 1)).
Proof.
  intros Ht. revert j. induction other as [|o other IH]; intros j Ho;
    cbn [column length]; [lia|].
  apply limbsOk_cons in Ho as [Ho0 Ho]. pose proof Base_gt_1.
  specialize (IH (S j) Ho). case_decide; [|nia].
  pose proof (limbsOk_nth this (i - j) Ht). nia.
Qed.

Lemma column_bound_index (this other : list Z) (i j : nat) :
  limbsOk this → limbsOk other → (j ≤ S i)%nat →
  column this other i j ≤ Z.of_nat (S i - j) * ((Base - 1) * (Base - 1)).
Proof.
  intros Ht. revert j. induction other as [|o other IH]; intros j Ho Hj;
    cbn [column]; [pose proof Base_gt_1; nia|].
  apply limbsOk_cons in Ho as [Ho0 Ho]. pose proof Base_gt_1.
  case_decide; [|nia].
  specialize (IH (S j) Ho ltac:(lia)).
  pose proof (limbsOk_nth this (i - j) Ht).
  replace (Z.of_nat (S i - j)) with (Z.of_nat (S i - S j) + 1) by lia. nia.
Qed.

(** Terms that reach beyond the first operand vanish. *)
Lemma column_skip (this other : list Z) (i j k : nat) :
  (length this + j + k ≤ S i)%nat →
  column this other i j = column this (drop k other) i (j + k).
Proof.
  revert other j. induction k as [|k IH]; intros other j H.
  - rewrite drop_0, Nat.add_0_r. reflexivity.
  - destruct other as [|o other]; [reflexivity|].
    cbn [column drop]. rewrite decide_True by lia.
    rewrite nth_overflow by lia.
    rewrite (IH other (S j)) by lia.
    replace (S j + k)%nat with (j + S k)%nat by lia. lia.
Qed.

(** The columns of the product add up to the product. *)
Lemma weightedSum_columns (this other : list Z) (count : nat) :
  (length this + length other ≤ S count)%nat →
  weightedSum (λ k, column this other k 0) 0 count = value this * value other.
Proof.
  revert count. induction other as [|o other IH]; intros count H.
  - cbn [value]. rewrite (weightedSum_ext _ (λ _, 0 * 0)) by reflexivity.
    rewrite weightedSum_scale. lia.
  - cbn [length] in H. cbn [value].
    rewrite (weightedSum_ext _ (λ k, nth k this 0 * o + column this other k 1)).
    2:{ intros k _. cbn [column]. rewrite decide_True by lia.
        rewrite Nat.sub_0_r. reflexivity. }
    rewrite weightedSum_plus, weightedSum_scale.
    rewrite weightedSum_limbs by lia. rewrite drop_0, Z.pow_0_r.
    destruct count as [|count].
    + cbn [weightedSum]. assert (length this = 0%nat) as Hn by lia.
      destruct this; [|discriminate]. cbn [value]. lia.
    + cbn [weightedSum]. rewrite column_above by lia.
      rewrite (weightedSum_ext _ (λ k, (λ k', column this other k' 0) (k - 1)%nat)).
      2:{ intros k Hk. cbn beta. destruct k as [|k]; [lia|].
          rewrite column_succ. replace (S k - 1)%nat with k by lia. reflexivity. }
      rewrite (weightedSum_shift (λ k', column this other k' 0)), IH by lia. ring.
Qed.

Lemma columnSum_spec (this other : list Z) (i steps j : nat) (carry : Z) :
  limbsOk this → limbsOk other →
  (length other ≤ j + steps)%nat → (i < length this + j)%nat →
  0 ≤ carry → carry + column this (drop j other) i j < 2 ^ 64 →
  columnSum this other i steps j carry = carry + column this (drop j other) i j.
Proof.
  intros Ht Ho. revert j carry.
  induction steps as [|steps IH]; intros j carry Hsteps Hi Hc Hfit; cbn [columnSum].
  - rewrite drop_ge by lia. cbn [column]. lia.
  - case_decide as Hcond.
    + destruct Hcond as [Hji Hjo].
      destruct (lookup_lt_is_Some_2 other j Hjo) as [x Hx].
      rewrite (drop_S _ _ _ Hx) in *. cbn [column] in *.
      rewrite decide_True in * by lia.
      rewrite (list_lookup_total_correct _ _ _ Hx).
      rewrite lookup_total_nth by lia.
      pose proof (limbsOk_nth this (i - j) Ht) as Hn.
      pose proof (proj1 (Forall_lookup _ other) Ho j x Hx) as Hxr. cbn beta in Hxr.
      pose proof (column_nonneg this (drop (S j) other) i (S j) Ht
                    (limbsOk_drop _ _ Ho)) as Hrest.
      assert (0 ≤ nth (i - j) this 0 * x) by nia.
      rewrite (wrap64_small (nth (i - j) this 0 * x)) by lia.
      rewrite wrap64_small by lia.
      rewrite IH by lia. ring.
    + assert (column this (drop j other) i j = 0) as ->; [|lia].
      destruct (decide (j < length other)%nat); [apply column_above; lia|].
      rewrite drop_ge by lia. reflexivity.
Qed.

(** A column of a product with an operand of fewer than 64 limbs has fewer
    than 64 terms. *)
Lemma column_bound (this other : list Z) (i : nat) :
  limbsOk this → limbsOk other →
  (length this < 64 ∨ length other < 64)%nat →
  let first := if decide (length this ≤ i)%nat then (i - length this + 1)%nat else 0%nat in
  column this other i 0 = column this (drop first other) i first
  ∧ 0 ≤ column this other i 0 ≤ 63 * ((Base - 1) * (Base - 1)).
Proof.
  intros Ht Ho Hshort first.
  assert (column this other i 0 = column this (drop first other) i first) as Hskip.
  { unfold first. case_decide.
    - rewrite (column_skip this other i 0 (i - length this + 1)) by lia. reflexivity.
    - rewrite drop_0. reflexivity. }
  split; [exact Hskip|]. split; [apply column_nonneg; assumption|].
  pose proof Base_gt_1. rewrite Hskip.
  destruct Hshort as [Hs|Hs].
  - pose proof (column_bound_index this (drop first other) i first Ht
                  (limbsOk_drop _ _ Ho) ltac:(unfold first; case_decide; lia)) as Hb.
    assert (Z.of_nat (S i - first) ≤ 63) by (unfold first; case_decide; lia).
    assert (0 ≤ (Base - 1) * (Base - 1)) by nia.
    etrans; [exact Hb|]. apply Z.mul_le_mono_nonneg_r; lia.
  - pose proof (column_bound_other this (drop first other) i first Ht
                  (limbsOk_drop _ _ Ho)) as Hb.
    rewrite length_drop in Hb.
    assert (0 ≤ (Base - 1) * (Base - 1)) by nia.
    etrans; [exact Hb|]. apply Z.mul_le_mono_nonneg_r; lia.
Qed.

Lemma schoolbookColumns_spec (this other : list Z) (count i : nat) (carry : Z) :
  limbsOk this → limbsOk other →
  (length this < 64 ∨ length other < 64)%nat →
  0 ≤ carry ≤ 64 * Base →
  let '(digits, last) := schoolbookColumns this other count i carry in
  length digits = count ∧ limbsOk digits ∧ 0 ≤ last ≤ 64 * Base
  ∧ Base ^ Z.of_nat i * value digits + Base ^ Z.of_nat (i + count) * last
    = Base ^ Z.of_nat i * carry + weightedSum (λ k, column this other k 0) i count.
Proof.
  intros Ht Ho Hshort. revert i carry.
  induction count as [|count IH]; intros i carry Hc; cbn [schoolbookColumns weightedSum].
  - rewrite Nat.add_0_r. cbn [value length]. split_and!; [reflexivity|constructor|lia..].
  - destruct (column_bound this other i Ht Ho Hshort) as [Hskip Hbound].
    cbn zeta in Hskip.
    set (first := if decide (length this ≤ i)%nat then (i - length this + 1)%nat else 0%nat) in *.
    rewrite columnSum_spec; try assumption.
    2:{ lia. }
    2:{ unfold first. case_decide; lia. }
    2:{ lia. }
    2:{ rewrite <- Hskip. rewrite Base_eq in *. lia. }
    rewrite <- Hskip.
    set (c := carry + column this other i 0).
    assert (0 ≤ c ≤ 64 * Base + 63 * ((Base - 1) * (Base - 1))) as Hcr by (unfold c; lia).
    pose proof Base_gt_1.
    assert (0 ≤ c / Base ≤ 64 * Base) as Hnext.
    { split; [apply Z.div_pos; lia|].
      apply Z.div_le_upper_bound; [lia|]. rewrite Base_eq in *. lia. }
    specialize (IH (S i) (c / Base) Hnext).
    destruct (schoolbookColumns this other count (S i) (c / Base)) as [higher last].
    destruct IH as (Hl & Hok & Hlast & Hv).
    pose proof (Z.mod_pos_bound c Base ltac:(lia)) as Hmod.
    rewrite wrap32_small by (rewrite Base_eq in *; lia).
    split_and!.
    + cbn [length]. lia.
    + apply limbsOk_cons. split; assumption.
    + lia.
    + lia.
    + cbn [value]. replace (i + S count)%nat with (S i + count)%nat by lia.
      rewrite Base_pow_S in Hv.
      pose proof (Z.div_mod c Base ltac:(lia)) as Hdm.
      unfold c in *. nia.
Qed.

Lemma schoolbookMultiply_spec (this other : list Z) :
  limbsOk this → limbsOk other → (1 ≤ length this)%nat → (1 ≤ length other)%nat →
  (length this < 64 ∨ length other < 64)%nat →
  value (schoolbookMultiply this other) = value this * value other
  ∧ magnitude (schoolbookMultiply this other).
Proof.
  intros Ht Ho Hlt Hlo Hshort. unfold schoolbookMultiply.
  pose proof Base_gt_1.
  pose proof (schoolbookColumns_spec this other (length this + length other - 1) 0 0
                Ht Ho Hshort ltac:(lia)) as Hspec.
  destruct (schoolbookColumns _ _ _ _ _) as [digits last].
  destruct Hspec as (Hl & Hok & Hlast & Hv).
  rewrite weightedSum_columns in Hv by lia.
  cbn [Nat.add] in Hv. rewrite Z.pow_0_r in Hv.
  pose proof (value_bounds this Ht) as Hbt. pose proof (value_bounds other Ho) as Hbo.
  pose proof (value_nonneg digits Hok) as Hd.
  set (n := (length this + length other - 1)%nat) in *.
  assert (value this * value other < Base * Base ^ Z.of_nat n) as Hprod.
  { rewrite <- Base_pow_S. replace (S n) with (length this + length other)%nat by lia.
    rewrite Base_pow_add. nia. }
  pose proof (Base_pow_pos n).
  assert (last < Base) as HlastB by nia.
  case_decide as Hnz.
  - rewrite wrap32_small by (rewrite Base_eq in *; lia). split.
    + rewrite value_trim, value_app, Hl. cbn [value]. lia.
    + apply magnitude_trim.
      * apply limbsOk_app. split; [assumption|].
        apply limbsOk_cons. split; [lia|apply limbsOk_nil].
      * rewrite length_app. cbn [length]. lia.
  - assert (last = 0) as -> by lia. split.
    + rewrite value_trim. lia.
    + apply magnitude_trim; [assumption|lia].
Qed.

(** * Multiplication *)

Section Multiplication.

Variable transformProduct : list Z → list Z → list Z.

Lemma mulAssign_schoolbook (this other : list Z) :
  len this < BruteforceThreshold ∨ len other < BruteforceThreshold →
  mulAssign transformProduct this other = Ok (schoolbookMultiply this other).
Proof. intros H. unfold mulAssign. rewrite decide_True by assumption. reflexivity. Qed.

Lemma mulAssign_left_limit (this other : list Z) :
  BruteforceThreshold ≤ len this → BruteforceThreshold ≤ len other →
  TransformLimit < len this →
  mulAssign transformProduct this other = Fail (invalid_argument LeftOperandExceedsLimit).
Proof.
  intros Ht Ho Hl. unfold mulAssign.
  unfold BruteforceThreshold, TransformLimit, len in *.
  rewrite decide_False by lia.
  rewrite (bool_decide_eq_false_2 (Z.of_nat (length this) ≤ 4194304)) by lia. reflexivity.
Qed.

Lemma mulAssign_right_limit (this other : list Z) :
  BruteforceThreshold ≤ len this → BruteforceThreshold ≤ len other →
  len this ≤ TransformLimit → TransformLimit < len other →
  mulAssign transformProduct this other = Fail (invalid_argument RightOperandExceedsLimit).
Proof.
  intros Ht Ho Hl Hr. unfold mulAssign.
  unfold BruteforceThreshold, TransformLimit, len in *.
  rewrite decide_False by lia.
  rewrite (bool_decide_eq_true_2 (Z.of_nat (length this) ≤ 4194304)) by lia.
  rewrite (bool_decide_eq_false_2 (Z.of_nat (length other) ≤ 4194304)) by lia. reflexivity.
Qed.

Lemma mulAssign_transform (this other : list Z) :
  BruteforceThreshold ≤ len this ≤ TransformLimit →
  BruteforceThreshold ≤ len other ≤ TransformLimit →
  mulAssign transformProduct this other = Ok (trim (transformProduct this other)).
Proof.
  intros Ht Ho. unfold mulAssign.
  unfold BruteforceThreshold, TransformLimit, len in *.
  rewrite decide_False by lia.
  rewrite !bool_decide_eq_true_2 by lia. reflexivity.
Qed.

(** Whatever the engine, the product is exact when one operand has fewer
    than 64 limbs: the schoolbook branch computes it. *)
Lemma mulAssign_short (this other : list Z) :
  limbsOk this → limbsOk other → (1 ≤ length this)%nat → (1 ≤ length other)%nat →
  len this < BruteforceThreshold ∨ len other < BruteforceThreshold →
  ∃ r, mulAssign transformProduct this other = Ok r
       ∧ value r = value this * value other ∧ magnitude r.
Proof.
  intros Ht Ho Hlt Hlo Hshort.
  rewrite mulAssign_schoolbook by exact Hshort.
  eexists. split; [reflexivity|]. apply schoolbookMultiply_spec; try assumption.
  unfold BruteforceThreshold, len in Hshort. lia.
Qed.

End Multiplication.

(** * Schoolbook division: the subtraction of a multiple of the divisor *)

(** The truncating division of the source, followed by its correction of a
    negative remainder, is the flooring division. *)
Lemma truncate_then_correct (t : Z) :
  - 2 ^ 62 < t < 2 ^ 62 →
  (if decide (Base ≤ wrap32 (t `rem` Base))
   then (wrap32 (wrap32 (t `rem` Base) + Base), int64 (t `quot` Base - 1))
   else (wrap32 (t `rem` Base), t `quot` Base))
  = (t mod Base, t / Base).
Proof.
  intros Ht. pose proof Base_gt_1 as HB.
  pose proof (Z.quot_rem' t Base) as Hqr.
  pose proof (Z.div_mod t Base ltac:(lia)) as Hdm.
  pose proof (Z.mod_pos_bound t Base ltac:(lia)) as Hm.
  destruct (Z_lt_le_dec t 0) as [Hneg|Hpos].
  - pose proof (Z.rem_bound_pos_neg t Base ltac:(lia) ltac:(lia)) as Hr.
    destruct (decide (t `rem` Base = 0)) as [Hz|Hnz].
    + rewrite Hz. change (wrap32 0) with 0. rewrite decide_False by lia.
      assert (t `quot` Base = t / Base ∧ 0 = t mod Base) as [-> <-]; [|reflexivity].
      rewrite Hz in Hqr.
      assert (t mod Base = 0) as Hm0.
      { apply Z.mod_divide; [lia|]. exists (t `quot` Base). lia. }
      split; [|lia]. nia.
    + assert (wrap32 (t `rem` Base) = t `rem` Base + 2 ^ 32) as Hw.
      { unfold wrap32. symmetry. apply Z.mod_unique with (-1); rewrite Base_eq in *; lia. }
      rewrite Hw. rewrite decide_True by (rewrite Base_eq in *; lia).
      assert (wrap32 (t `rem` Base + 2 ^ 32 + Base) = t `rem` Base + Base) as ->.
      { unfold wrap32. symmetry. apply Z.mod_unique with 1; rewrite Base_eq in *; lia. }
      assert (t `rem` Base + Base = t mod Base ∧ t `quot` Base - 1 = t / Base) as [-> Hq].
      { assert (t / Base = t `quot` Base - 1) by nia. split; lia. }
      rewrite int64_small; [rewrite Hq; reflexivity|].
      rewrite Hq. assert (- 2 ^ 62 ≤ t / Base ≤ 0); [|lia].
      split; [apply Z.div_le_lower_bound; lia|].
      apply Z.lt_succ_r. apply Z.div_lt_upper_bound; lia.
  - rewrite Z.rem_mod_nonneg, Z.quot_div_nonneg by lia.
    rewrite wrap32_small by (rewrite Base_eq in *; lia).
    rewrite decide_False by lia. reflexivity.
Qed.

Lemma subtractProduct_spec (Ys : list Z) (q : Z) (i : nat) (carry : Z) (R : list Z) :
  limbsOk Ys → limbsOk R → (i + length Ys ≤ length R)%nat →
  0 ≤ q < Base → - (Base - 1) ≤ carry ≤ 0 →
  let '(R', c') := subtractProduct Ys q i carry R in
  length R' = length R ∧ limbsOk R' ∧ - (Base - 1) ≤ c' ≤ 0
  ∧ value R' + c' * Base ^ Z.of_nat (i + length Ys)
    = value R + carry * Base ^ Z.of_nat i - q * value Ys * Base ^ Z.of_nat i
  ∧ (∀ k : nat, (i + length Ys ≤ k)%nat → R' !!! k = R !!! k).
Proof.
  revert i carry R. induction Ys as [|y Ys IH]; intros i carry R HY HR Hlen Hq Hc.
  - cbn [subtractProduct length value]. rewrite Nat.add_0_r.
    split_and!; [reflexivity|assumption|lia|lia|lia|reflexivity].
  - cbn [length] in Hlen. apply limbsOk_cons in HY as [Hy HY].
    cbn [subtractProduct value length].
    pose proof (limbsOk_lookup R i HR ltac:(lia)) as Hr.
    pose proof Base_gt_1 as HB.
    assert (0 ≤ q * y ≤ (Base - 1) * (Base - 1)) as Hqy by nia.
    rewrite (int64_small (q * y)) by (rewrite Base_eq in *; lia).
    rewrite (int64_small (carry - q * y)) by (rewrite Base_eq in *; lia).
    rewrite (int64_small (carry - q * y + R !!! i)) by (rewrite Base_eq in *; lia).
    set (t := carry - q * y + R !!! i).
    assert (- (Base - 1) * Base ≤ t ≤ Base - 1) as Ht by (unfold t; nia).
    rewrite truncate_then_correct by (rewrite Base_eq in *; lia).
    pose proof (Z.mod_pos_bound t Base ltac:(lia)) as Hm.
    pose proof (Z.div_mod t Base ltac:(lia)) as Hdm.
    assert (- (Base - 1) ≤ t / Base ≤ 0) as Hnext.
    { split; [apply Z.div_le_lower_bound; lia|].
      apply Z.lt_succ_r. apply Z.div_lt_upper_bound; lia. }
    specialize (IH (S i) (t / Base) (<[i := t mod Base]> R) HY
                  (limbsOk_insert _ _ _ HR Hm)
                  ltac:(rewrite length_insert; lia) Hq Hnext).
    destruct (subtractProduct Ys q (S i) (t / Base) (<[i := t mod Base]> R)) as [R' c'].
    destruct IH as (Hl & Hok & Hc' & Hv & Habove).
    rewrite length_insert in Hl. rewrite value_insert in Hv by lia.
    replace (i + S (length Ys))%nat with (S i + length Ys)%nat by lia.
    split_and!; [exact Hl|exact Hok|lia|lia| |].
    + rewrite Hv, Base_pow_S. unfold t in *. nia.
    + intros k Hk. rewrite Habove by lia. apply list_lookup_total_insert_ne. lia.
Qed.

Lemma subtractProduct_prefix (Ys : list Z) (q : Z) (i : nat) (carry : Z) (R : list Z) :
  take i (subtractProduct Ys q i carry R).1 = take i R.
Proof.
  revert i carry R. induction Ys as [|y Ys IH]; intros i carry R; [reflexivity|].
  cbn [subtractProduct].
  destruct (decide _) as [?|?];
    match goal with
    | |- take i (subtractProduct Ys q (S i) ?c ?R').1 = _ =>
        transitivity (take i (take (S i) (subtractProduct Ys q (S i) c R').1));
          [rewrite take_take, Nat.min_l by lia; reflexivity|];
        rewrite IH, take_take, Nat.min_l by lia;
        apply take_insert_ge; lia
    end.
Qed.

Lemma lookup_of_total (a b : list Z) (k : nat) :
  length a = length b → a !!! k = b !!! k → a !! k = b !! k.
Proof.
  intros Hl Hk. destruct (decide (k < length a)%nat) as [Hin|Hout].
  - rewrite !list_lookup_lookup_total_lt by lia. rewrite Hk. reflexivity.
  - rewrite !lookup_ge_None_2 by lia. reflexivity.
Qed.

Lemma value_drop_zero (R : list Z) (k : nat) :
  limbsOk R → value R < Base ^ Z.of_nat k → value (drop k R) = 0.
Proof.
  intros HR Hv. rewrite value_drop by assumption.
  apply Z.div_small. pose proof (value_nonneg R HR). lia.
Qed.

Lemma value_drop_S (R : list Z) (k : nat) :
  value (drop k R) = nth k R 0 + Base * value (drop (S k) R).
Proof.
  destruct (decide (k < length R)%nat) as [Hin|Hout].
  - destruct (lookup_lt_is_Some_2 R k Hin) as [x Hx].
    rewrite (drop_S _ _ _ Hx). cbn [value]. rewrite (nth_lookup_Some _ _ 0 _ Hx). reflexivity.
  - rewrite nth_overflow by lia. rewrite !drop_ge by lia. cbn [value]. lia.
Qed.

Lemma value_split_at (R : list Z) (k : nat) :
  limbsOk R →
  value R = value (take k R) + Base ^ Z.of_nat k * value (drop k R)
  ∧ 0 ≤ value (take k R) < Base ^ Z.of_nat k.
Proof.
  intros HR. pose proof (value_bounds _ (limbsOk_take k R HR)) as Hb.
  rewrite (value_take_drop k R) at 1.
  destruct (decide (k ≤ length R)%nat) as [Hk|Hk].
  - rewrite length_take, Nat.min_l in * by lia. split; [reflexivity|lia].
  - rewrite drop_ge by lia. cbn [value]. rewrite length_take, Nat.min_r in Hb by lia.
    pose proof (Base_pow_le (length R) k ltac:(lia)). split; lia.
Qed.

(** [performSubtraction] succeeds and subtracts [q * divisor * Base ^ p]
    when that does not exceed the remainder and the remainder has no limb
    above the window. *)
Lemma performSubtraction_spec (Y : list Z) (q : Z) (p : nat) (R Q : list Z) :
  limbsOk Y → limbsOk R → (p + length Y ≤ length R)%nat → 0 ≤ q < Base →
  q * value Y * Base ^ Z.of_nat p ≤ value R →
  value R < Base ^ Z.of_nat (p + length Y + 1) →
  ∃ R', performSubtraction Y q p R Q
        = Ok (R', <[p := wrap32 (Q !!! p + q)]> Q)
    ∧ length R' = length R ∧ limbsOk R'
    ∧ value R' = value R - q * value Y * Base ^ Z.of_nat p
    ∧ take p R' = take p R.
Proof.
  intros HY HR Hlen Hq Hle Hhigh. unfold performSubtraction.
  pose proof Base_gt_1 as HB.
  pose proof (subtractProduct_spec Y q p 0 R HY HR Hlen Hq ltac:(lia)) as Hs.
  pose proof (subtractProduct_prefix Y q p 0 R) as Hpre.
  destruct (subtractProduct Y q p 0 R) as [R1 c]. cbn [fst] in Hpre.
  destruct Hs as (Hl & Hok & Hc & Hv & Habove).
  set (top := (p + length Y)%nat) in *.
  pose proof (Base_pow_pos top) as Htop.
  destruct (decide (c = 0)) as [->|Hnz].
  - rewrite decide_False by lia. cbn [mbind outcome_bind].
    eexists. split; [reflexivity|]. split_and!; [assumption|assumption|lia|assumption].
  - rewrite decide_True by assumption.
    destruct (value_split_at R1 top Hok) as [Hsplit Hlow].
    destruct (decide (top < length R1)%nat) as [Hin|Hout].
    + cbn [mbind outcome_bind].
      (* the limbs above [top] are zero, so limb [top] absorbs the carry *)
      assert (value (drop (S top) R1) = 0) as Hz.
      { rewrite <- (value_drop_zero R (S top) HR)
          by (replace (S top) with (top + 1)%nat by lia; exact Hhigh).
        f_equal. apply list_eq. intros k. rewrite !lookup_drop.
        apply lookup_of_total; [exact Hl|]. apply Habove. lia. }
      rewrite value_drop_S, Hz in Hsplit.
      rewrite <- lookup_total_nth in Hsplit by lia.
      pose proof (limbsOk_lookup R1 top Hok Hin) as Hlt.
      assert (0 ≤ R1 !!! top + c) as Hge by nia.
      assert (wrap32 (R1 !!! top + wrap32 c) = R1 !!! top + c) as Hw.
      { unfold wrap32. rewrite Zplus_mod_idemp_r.
        apply Z.mod_small. rewrite Base_eq in *. lia. }
      rewrite Hw.
      eexists. split; [reflexivity|].
      split_and!.
      * rewrite length_insert. exact Hl.
      * apply limbsOk_insert; [assumption|lia].
      * rewrite value_insert by lia. lia.
      * rewrite take_insert_ge by (unfold top; lia). exact Hpre.
    + (* no limb at [top]: the carry must be zero *)
      exfalso. rewrite drop_ge in Hsplit by lia. cbn [value] in Hsplit.
      pose proof (value_bounds R1 Hok) as Hb.
      assert (Base ^ Z.of_nat (length R1) ≤ Base ^ Z.of_nat top)
        by (apply Base_pow_le; lia).
      nia.
Qed.

(** * Schoolbook division: the quotient estimate *)

(** The estimate never exceeds the true partial quotient and misses at
    most a tenth of it: divisor of two limbs or more. *)
Lemma estimate_arith_long (W Y u estR estY q : Z) :
  0 < u → 0 ≤ W → estR = W / u → estY = Y / u → 10 ≤ estY →
  q = estR / (estY + 1) →
  0 ≤ q ∧ q * Y ≤ W ∧ 10 * W < 11 * (q + 1) * Y.
Proof.
  intros Hu HW HR HY H10 Hq.
  pose proof (Z.div_mod W u ltac:(lia)) as HdW.
  pose proof (Z.mod_pos_bound W u ltac:(lia)) as HmW.
  pose proof (Z.div_mod Y u ltac:(lia)) as HdY.
  pose proof (Z.mod_pos_bound Y u ltac:(lia)) as HmY.
  pose proof (Z.div_mod estR (estY + 1) ltac:(lia)) as Hdq.
  pose proof (Z.mod_pos_bound estR (estY + 1) ltac:(lia)) as Hmq.
  rewrite <- HR in *. rewrite <- HY in *. rewrite <- Hq in *.
  assert (0 ≤ estR) by (subst estR; apply Z.div_pos; lia).
  assert (0 ≤ q) by (subst q; apply Z.div_pos; lia).
  assert (q * (estY + 1) ≤ estR) by lia.
  assert (estR + 1 ≤ (q + 1) * (estY + 1)) by lia.
  split; [assumption|]. split.
  - assert (q * Y ≤ q * ((estY + 1) * u)) by (apply Z.mul_le_mono_nonneg_l; lia).
    assert (q * (estY + 1) * u ≤ estR * u) by (apply Z.mul_le_mono_nonneg_r; lia).
    lia.
  - assert ((estR + 1) * u ≤ (q + 1) * (estY + 1) * u)
      by (apply Z.mul_le_mono_nonneg_r; lia).
    assert (10 * ((q + 1) * (estY + 1) * u) ≤ 11 * ((q + 1) * (estY * u))) by nia.
    assert ((q + 1) * (estY * u) ≤ (q + 1) * Y) by (apply Z.mul_le_mono_nonneg_l; lia).
    lia.
Qed.

(** The same for a divisor of one limb. *)
Lemma estimate_arith_short (W Y g estR estY q : Z) :
  0 ≤ W → 1 ≤ Y → 0 ≤ g ≤ 9 → estR = 10 * W + g → estY = 10 * Y →
  q = estR / (estY + 1) →
  0 ≤ q ∧ q * Y ≤ W ∧ 10 * W < 11 * (q + 1) * Y.
Proof.
  intros HW HY Hg HR HeY Hq.
  pose proof (Z.div_mod estR (estY + 1) ltac:(lia)) as Hdq.
  pose proof (Z.mod_pos_bound estR (estY + 1) ltac:(lia)) as Hmq.
  rewrite <- Hq in *.
  assert (0 ≤ q) by (subst q; apply Z.div_pos; lia).
  split; [assumption|]. split; nia.
Qed.

Lemma getEstimatedValue_eq (d : list Z) (h : nat) :
  limbsOk d → (h < length d)%nat →
  getEstimatedValue d h (length d)
  = 10 * Base * nth (h + 1) d 0 + 10 * nth h d 0
    + (if decide (h ≠ 0%nat) then nth (h - 1) d 0 else 0) / (Base / 10).
Proof.
  intros Hd Hh. unfold getEstimatedValue.
  pose proof (limbsOk_nth d (h + 1) Hd) as H2.
  pose proof (limbsOk_nth d h Hd) as H1.
  pose proof (limbsOk_nth d (h - 1) Hd) as H0.
  assert ((if decide (h + 1 < length d)%nat then d !!! (h + 1)%nat else 0)
          = nth (h + 1) d 0) as ->.
  { case_decide; [apply lookup_total_nth; lia|]. rewrite nth_overflow by lia. reflexivity. }
  rewrite (lookup_total_nth d h) by lia.
  assert ((if decide (h ≠ 0%nat) then d !!! (h - 1)%nat else 0)
          = (if decide (h ≠ 0%nat) then nth (h - 1) d 0 else 0)) as ->.
  { case_decide; [apply lookup_total_nth; lia|reflexivity]. }
  assert (0 ≤ (if decide (h ≠ 0%nat) then nth (h - 1) d 0 else 0) / (Base / 10) ≤ 9) as Hg.
  { rewrite Base_eq in *. change (100000000 / 10) with 10000000.
    case_decide; [|rewrite Z.div_0_l by lia; lia].
    split; [apply Z.div_pos; lia|].
    apply Z.lt_succ_r. apply Z.div_lt_upper_bound; lia. }
  set (g := (if decide (h ≠ 0%nat) then nth (h - 1) d 0 else 0) / (Base / 10)) in *.
  rewrite Base_eq in *.
  rewrite (wrap64_small (10 * 100000000)) by lia.
  rewrite (wrap64_small (10 * 100000000 * nth (h + 1) d 0)) by lia.
  rewrite (wrap64_small (10 * nth h d 0)) by lia.
  rewrite (wrap64_small (10 * 100000000 * nth (h + 1) d 0 + 10 * nth h d 0)) by lia.
  rewrite wrap64_small by lia. reflexivity.
Qed.

(** The estimate of an array from its three leading limbs, in terms of the
    value of the array from position [h - 1] on. *)
Lemma estimate_of_window (d : list Z) (h : nat) :
  limbsOk d → (1 ≤ h < length d)%nat → value (drop (h + 2) d) = 0 →
  getEstimatedValue d h (length d) = value (drop (h - 1) d) / (Base / 10).
Proof.
  intros Hd Hh Hz. rewrite getEstimatedValue_eq by (assumption || lia).
  rewrite decide_True by lia.
  rewrite (value_drop_S d (h - 1)), (value_drop_S d (S (h - 1))), (value_drop_S d (S (S (h - 1)))).
  replace (S (S (S (h - 1)))) with (h + 2)%nat by lia.
  replace (S (S (h - 1))) with (h + 1)%nat by lia.
  replace (S (h - 1)) with h by lia.
  rewrite Hz.
  pose proof (limbsOk_nth d (h - 1) Hd) as H0.
  rewrite Base_eq in *. change (100000000 / 10) with 10000000.
  apply Z.div_unique with (nth (h - 1) d 0 mod 10000000).
  - left. apply Z.mod_pos_bound. lia.
  - pose proof (Z.div_mod (nth (h - 1) d 0) 10000000 ltac:(lia)). lia.
Qed.

Lemma estimate_of_single (d : list Z) :
  limbsOk d → (0 < length d)%nat → value (drop 2 d) = 0 →
  getEstimatedValue d 0 (length d) = 10 * value d.
Proof.
  intros Hd Hh Hz. rewrite getEstimatedValue_eq by (assumption || lia).
  rewrite decide_False by lia.
  rewrite <- (drop_0 d) at 3.
  rewrite (value_drop_S d 0), (value_drop_S d 1), Hz.
  rewrite Base_eq. change (0 / (100000000 / 10)) with 0. cbn [Nat.add]. lia.
Qed.

Lemma Base_tenth : Base / 10 = 10000000.
Proof. reflexivity. Qed.

Lemma Base_ten : Base = 10 * 10000000.
Proof. reflexivity. Qed.

Section SchoolbookDivision.

(** The divisor: a non-zero magnitude. *)
Variable Y : list Z.
Hypothesis Y_magnitude : magnitude Y.
Hypothesis Y_positive : 0 < value Y.

Lemma divisor_length : (1 ≤ length Y)%nat.
Proof. destruct Y_magnitude as [_ [H _]]. exact H. Qed.

Lemma divisor_bounds :
  Base ^ Z.of_nat (length Y - 1) ≤ value Y < Base ^ Z.of_nat (length Y).
Proof.
  destruct Y_magnitude as [Hok [Hlen Htop]]. split; [|apply value_bounds; assumption].
  destruct (decide (1 < length Y)%nat) as [Hn|Hn].
  - apply value_lower_bound; auto.
  - replace (length Y - 1)%nat with 0%nat by lia. rewrite Z.pow_0_r. lia.
Qed.

(** The window of the remainder at position [p]: its value from limb [p]
    on. *)
Lemma window_bounds (R : list Z) (p : nat) :
  limbsOk R → 
  value (drop p R) * Base ^ Z.of_nat p ≤ value R
  ∧ value R < (value (drop p R) + 1) * Base ^ Z.of_nat p.
Proof.
  intros HR. destruct (value_split_at R p HR) as [Hs Hb]. nia.
Qed.

Lemma partialQuotient_spec (R : list Z) (p : nat) :
  limbsOk R → (p + length Y ≤ length R)%nat →
  value R < value Y * Base ^ Z.of_nat (p + 1) →
  let W := value (drop p R) in
  let q := wrap32 (getEstimatedValue R (p + length Y - 1) (length R)
                   / wrap64 (getEstimatedValue Y (length Y - 1) (length Y) + 1)) in
  0 ≤ q < Base ∧ q * value Y ≤ W ∧ 10 * W < 11 * (q + 1) * value Y
  ∧ (q = 0 → W < Base ^ Z.of_nat (length Y)).
Proof.
  intros HR Hlen Hhigh W q.
  pose proof Base_gt_1 as HB. pose proof divisor_length as Hm.
  pose proof divisor_bounds as [HYlo HYhi].
  destruct Y_magnitude as [HY _].
  pose proof (Base_pow_pos p) as Hp.
  destruct (window_bounds R p HR) as [HWlo HWhi]. fold W in HWlo, HWhi.
  assert (0 ≤ W) as HW0 by (apply value_nonneg, limbsOk_drop; assumption).
  assert (W < value Y * Base) as HWY.
  { replace (p + 1)%nat with (S p) in Hhigh by lia. rewrite Base_pow_S in Hhigh. nia. }
  assert (value (drop (p + length Y + 1) R) = 0) as Hzero.
  { apply value_drop_zero; [assumption|].
    rewrite !Base_pow_add in *. change (Z.of_nat 1) with 1 in *.
    rewrite Z.pow_1_r in *. nia. }
  (* the unwrapped quotient of the two estimates *)
  set (estR := getEstimatedValue R (p + length Y - 1) (length R)) in *.
  set (estY := getEstimatedValue Y (length Y - 1) (length Y)) in *.
  assert (0 ≤ estY < 10 * Base
          ∧ 0 ≤ estR / (estY + 1) ∧ estR / (estY + 1) * value Y ≤ W
          ∧ 10 * W < 11 * (estR / (estY + 1) + 1) * value Y
          ∧ (Base ^ Z.of_nat (length Y) ≤ W → estY + 1 ≤ estR))
    as (HestY & Hq0 & Hunder & Hkey & Htop).
  { destruct (decide (2 ≤ length Y)%nat) as [Hlong|Hshort].
    - (* two limbs or more: both estimates are quotients by the same unit *)
      set (u := Base ^ Z.of_nat (length Y - 2) * (Base / 10)).
      assert (0 < u) as Hu
        by (unfold u; pose proof (Base_pow_pos (length Y - 2)); rewrite Base_tenth; lia).
      assert (Base ^ Z.of_nat (length Y) = 10 * Base * u) as HBm.
      { unfold u. replace (length Y) with (2 + (length Y - 2))%nat at 1 by lia.
        rewrite Base_pow_add. change (Z.of_nat 2) with 2. rewrite Base_tenth.
        replace (Base ^ 2) with (Base * Base) by (rewrite Base_eq; reflexivity).
        rewrite Base_ten at 2. lia. }
      assert (Base ^ Z.of_nat (length Y - 1) = 10 * u) as HBm1.
      { unfold u. replace (length Y - 1)%nat with (S (length Y - 2)) by lia.
        rewrite Base_pow_S, Base_tenth. rewrite Base_ten at 1. lia. }
      assert (estR = W / u) as HeR.
      { unfold estR, u. rewrite estimate_of_window; try assumption; try lia.
        2:{ replace (p + length Y - 1 + 2)%nat with (p + length Y + 1)%nat by lia.
            exact Hzero. }
        replace (p + length Y - 1 - 1)%nat with (p + (length Y - 2))%nat by lia.
        rewrite <- drop_drop. rewrite value_drop by (apply limbsOk_drop; assumption).
        fold W. apply Z.div_div;
          [pose proof (Base_pow_pos (length Y - 2)); lia|rewrite Base_tenth; lia]. }
      assert (estY = value Y / u) as HeY.
      { unfold estY, u. rewrite estimate_of_window; try assumption; try lia.
        2:{ rewrite drop_ge by lia. reflexivity. }
        replace (length Y - 1 - 1)%nat with (length Y - 2)%nat by lia.
        rewrite value_drop by assumption.
        apply Z.div_div;
          [pose proof (Base_pow_pos (length Y - 2)); lia|rewrite Base_tenth; lia]. }
      assert (10 ≤ estY) as H10.
      { rewrite HeY. apply Z.div_le_lower_bound; lia. }
      assert (estY < 10 * Base) as HeYhi.
      { rewrite HeY. apply Z.div_lt_upper_bound; lia. }
      destruct (estimate_arith_long W (value Y) u estR estY (estR / (estY + 1))
                  Hu HW0 HeR HeY H10 eq_refl) as (H1 & H2 & H3).
      split_and!; try assumption; try lia.
      intros Hbig. rewrite HeR.
      assert (10 * Base ≤ W / u) by (apply Z.div_le_lower_bound; lia). lia.
    - (* one limb *)
      assert (length Y = 1%nat) as Hone by lia.
      assert (estY = 10 * value Y) as HeY.
      { unfold estY. rewrite Hone. change (1 - 1)%nat with 0%nat.
        rewrite <- Hone. apply estimate_of_single; [assumption|lia|].
        rewrite drop_ge by lia. reflexivity. }
      rewrite Hone in *. change (Z.of_nat 1) with 1 in *. rewrite Z.pow_1_r in *.
      assert (∃ g, 0 ≤ g ≤ 9 ∧ estR = 10 * W + g) as (g & Hg & HeR).
      { unfold estR. rewrite Hone. replace (p + 1 - 1)%nat with p by lia.
        destruct p as [|p'].
        - exists 0. split; [lia|].
          rewrite estimate_of_single;
            [unfold W; rewrite drop_0; lia|assumption|lia|exact Hzero].
        - exists (nth p' R 0 / (Base / 10)).
          pose proof (limbsOk_nth R p' HR) as Hn.
          rewrite estimate_of_window; try assumption; try lia.
          2:{ replace (S p' + 2)%nat with (S p' + 1 + 1)%nat by lia. exact Hzero. }
          replace (S p' - 1)%nat with p' by lia.
          rewrite (value_drop_S R p'). fold W.
          rewrite Base_eq in *. change (100000000 / 10) with 10000000.
          split.
          + split; [apply Z.div_pos; lia|].
            apply Z.lt_succ_r. apply Z.div_lt_upper_bound; lia.
          + symmetry. apply Z.div_unique with (nth p' R 0 mod 10000000).
            * left. apply Z.mod_pos_bound. lia.
            * pose proof (Z.div_mod (nth p' R 0) 10000000 ltac:(lia)). lia. }
      destruct (estimate_arith_short W (value Y) g estR estY (estR / (estY + 1))
                  HW0 ltac:(lia) Hg HeR HeY eq_refl) as (H1 & H2 & H3).
      split_and!; try assumption; try lia. }
  assert (wrap64 (estY + 1) = estY + 1) as Hw64
    by (apply wrap64_small; rewrite Base_eq in *; lia).
  assert (estR / (estY + 1) < Base) as Hsmall by nia.
  unfold q. rewrite Hw64.
  rewrite wrap32_small by (rewrite Base_eq in *; lia).
  split_and!; try assumption; try lia.
  intros Hz. destruct (Z_lt_le_dec W (Base ^ Z.of_nat (length Y))) as [|Hbig]; [assumption|].
  specialize (Htop Hbig).
  assert (1 ≤ estR / (estY + 1)) by (apply Z.div_le_lower_bound; lia). lia.
Qed.

End SchoolbookDivision.

(** * Schoolbook division: the loops *)

Lemma value_take_S (d : list Z) (k : nat) :
  (k < length d)%nat →
  value (take (S k) d) = value (take k d) + Base ^ Z.of_nat k * d !!! k.
Proof.
  intros Hk. destruct (lookup_lt_is_Some_2 d k Hk) as [x Hx].
  rewrite (take_S_r _ _ _ Hx), value_app, length_take, Nat.min_l by lia.
  rewrite (list_lookup_total_correct _ _ _ Hx). cbn [value]. lia.
Qed.

(** The final comparison decides whether the window is at least the
    divisor. *)
Lemma compareWindow_spec (Y R : list Z) (p k : nat) :
  limbsOk Y → limbsOk R → (k ≤ length Y)%nat → (p + k ≤ length R)%nat →
  compareWindow Y R p k
  = if decide (value (take k Y) ≤ value (take k (drop p R))) then 1 else 0.
Proof.
  intros HY HR. induction k as [|k IH]; intros HkY HkR.
  - cbn [compareWindow]. rewrite !take_0. rewrite decide_True by lia. reflexivity.
  - cbn [compareWindow].
    rewrite !value_take_S by (rewrite ?length_drop; lia).
    rewrite lookup_total_drop. replace (p + k)%nat with (k + p)%nat by lia.
    pose proof (limbsOk_lookup Y k HY ltac:(lia)) as Hy.
    pose proof (limbsOk_lookup R (k + p) HR ltac:(lia)) as Hr.
    pose proof (value_bounds _ (limbsOk_take k Y HY)) as HbY.
    pose proof (value_bounds _ (limbsOk_take k (drop p R) (limbsOk_drop p R HR))) as HbR.
    rewrite length_take, Nat.min_l in HbY by lia.
    rewrite length_take, length_drop, Nat.min_l in HbR by lia.
    pose proof (Base_pow_pos k).
    destruct (decide (R !!! (k + p)%nat ≠ Y !!! k)) as [Hne|Heq].
    + destruct (decide (Y !!! k < R !!! (k + p)%nat)) as [Hlt|Hge].
      * assert (Base ^ Z.of_nat k * (Y !!! k + 1) ≤ Base ^ Z.of_nat k * R !!! (k + p)%nat)
          by (apply Z.mul_le_mono_nonneg_l; lia).
        rewrite decide_True by lia. reflexivity.
      * assert (Base ^ Z.of_nat k * (R !!! (k + p)%nat + 1) ≤ Base ^ Z.of_nat k * Y !!! k)
          by (apply Z.mul_le_mono_nonneg_l; lia).
        rewrite decide_False by lia. reflexivity.
    + rewrite IH by lia.
      assert (R !!! (k + p)%nat = Y !!! k) as -> by lia.
      destruct (decide (value (take k Y) ≤ value (take k (drop p R))));
        [rewrite decide_True by lia|rewrite decide_False by lia]; reflexivity.
Qed.

Section SchoolbookLoops.

Variable Y : list Z.
Hypothesis Y_magnitude : magnitude Y.
Hypothesis Y_positive : 0 < value Y.

(** The estimate loop ends within [fuel] rounds once the window is below
    [2 ^ (fuel - 1)] times the divisor: every round leaves less than half
    of the window. *)
Lemma estimateLoop_spec (fuel : nat) (R Q : list Z) (p : nat) :
  limbsOk R → (p + length Y ≤ length R)%nat → (p < length Q)%nat →
  0 ≤ Q !!! p →
  value R + value Y * Base ^ Z.of_nat p * Q !!! p < value Y * Base ^ Z.of_nat (p + 1) →
  value (drop p R) < 2 ^ (Z.of_nat fuel - 1) * value Y → (1 ≤ fuel)%nat →
  ∃ R' q', estimateLoop fuel Y p R Q = Ok (R', <[p := q']> Q)
    ∧ limbsOk R' ∧ length R' = length R ∧ 0 ≤ q'
    ∧ value R' + value Y * Base ^ Z.of_nat p * q'
      = value R + value Y * Base ^ Z.of_nat p * Q !!! p
    ∧ value (drop p R') < Base ^ Z.of_nat (length Y)
    ∧ 10 * value (drop p R') < 11 * value Y.
Proof.
  revert R Q. induction fuel as [|fuel IH]; intros R Q HR Hlen HpQ HQ0 Hinv Hfuel Hf1; [lia|].
  cbn [estimateLoop].
  pose proof (Base_pow_pos p) as Hp.
  assert (value R < value Y * Base ^ Z.of_nat (p + 1)) as Hhigh by nia.
  destruct (partialQuotient_spec Y Y_magnitude Y_positive R p HR Hlen Hhigh)
    as (Hq & Hunder & Hkey & Htop).
  set (q := wrap32 (getEstimatedValue R (p + length Y - 1) (length R)
                    / wrap64 (getEstimatedValue Y (length Y - 1) (length Y) + 1))) in *.
  destruct (window_bounds R p HR) as [HWlo HWhi].
  set (W := value (drop p R)) in *.
  case_decide as Hnz.
  - (* one more round *)
    assert (q * value Y * Base ^ Z.of_nat p ≤ value R) as Hfits by nia.
    assert (value R < Base ^ Z.of_nat (p + length Y + 1)) as Hcap.
    { pose proof (divisor_bounds Y Y_magnitude Y_positive) as [_ HYhi].
      replace (p + length Y + 1)%nat with (length Y + (p + 1))%nat by lia.
      rewrite Base_pow_add. pose proof (Base_pow_pos (p + 1)). nia. }
    destruct (performSubtraction_spec Y q p R Q (proj1 Y_magnitude) HR Hlen Hq Hfits Hcap)
      as (R1 & Hrun & Hl1 & Hok1 & Hv1 & Htake).
    rewrite Hrun. cbn [mbind outcome_bind].
    assert (Q !!! p + q < Base) as Hqsum.
    { pose proof (value_nonneg R1 Hok1).
      replace (p + 1)%nat with (S p) in Hinv by lia. rewrite Base_pow_S in Hinv. nia. }
    rewrite wrap32_small by (rewrite Base_eq in *; lia).
    destruct (window_bounds R1 p Hok1) as [HW1lo HW1hi].
    assert (value (drop p R1) = W - q * value Y) as HW1.
    { destruct (value_split_at R p HR) as [Hs Hb].
      destruct (value_split_at R1 p Hok1) as [Hs1 Hb1].
      rewrite Htake in Hs1. fold W in Hs. nia. }
    destruct (decide (fuel = 0)%nat) as [->|Hfuel0].
    { (* a single round is left only when the window is below the divisor *)
      exfalso. change (2 ^ (Z.of_nat 1 - 1)) with 1 in Hfuel. nia. }
    assert (value R1 + value Y * Base ^ Z.of_nat p * (Q !!! p + q)
            < value Y * Base ^ Z.of_nat (p + 1)) as Hinv1 by (rewrite Hv1; nia).
    assert (value (drop p R1) < 2 ^ (Z.of_nat fuel - 1) * value Y) as Hfuel1.
    { rewrite HW1.
      replace (Z.of_nat (S fuel) - 1) with (Z.succ (Z.of_nat fuel - 1)) in Hfuel by lia.
      rewrite Z.pow_succ_r in Hfuel by lia.
      destruct (decide (fuel = 1)%nat) as [->|Hfuel1].
      * change (2 ^ (Z.of_nat 1 - 1)) with 1 in *. nia.
      * assert (2 ≤ 2 ^ (Z.of_nat fuel - 1)) as Hbig.
        { replace (Z.of_nat fuel - 1) with (Z.succ (Z.of_nat fuel - 2)) by lia.
          rewrite Z.pow_succ_r by lia.
          pose proof (Z.pow_pos_nonneg 2 (Z.of_nat fuel - 2) ltac:(lia) ltac:(lia)). lia. }
        nia. }
    destruct (IH R1 (<[p := Q !!! p + q]> Q)) as (R' & q' & Hrun' & Hok' & Hl' & Hq' & Hv' & Ht' & Hk').
    { assumption. }
    { lia. }
    { rewrite length_insert. lia. }
    { rewrite list_lookup_total_insert_eq by lia. lia. }
    { rewrite list_lookup_total_insert_eq by lia. exact Hinv1. }
    { exact Hfuel1. }
    { lia. }
    rewrite list_lookup_total_insert_eq in Hv' by lia.
    exists R', q'. rewrite Hrun'. rewrite list_insert_insert_eq.
    split_and!; [reflexivity|assumption|lia|assumption| |assumption|assumption].
    rewrite Hv', Hv1. ring.
  - (* the estimate is zero *)
    assert (q = 0) as Hq0 by lia.
    exists R, (Q !!! p). rewrite list_insert_id by (apply list_lookup_lookup_total_lt; lia).
    split_and!; try reflexivity; try assumption; try lia.
Qed.

End SchoolbookLoops.

Section SchoolbookPositions.

Variable Y : list Z.
Hypothesis Y_magnitude : magnitude Y.
Hypothesis Y_positive : 0 < value Y.

(** One position of the quotient: the estimate loop and the final
    adjustment leave a remainder below [divisor * Base ^ p]. *)
Lemma dividePosition_spec (fuel : nat) (R Q : list Z) (p : nat) :
  (28 ≤ fuel)%nat →
  limbsOk R → (p + length Y ≤ length R)%nat → (p < length Q)%nat →
  value R < value Y * Base ^ Z.of_nat (p + 1) →
  ∃ R' q',
    ('(remainder, quotient) ← estimateLoop fuel Y p R (<[p := 0]> Q);
     if decide (compareWindow Y remainder p (length Y) ≠ 0)
     then performSubtraction Y 1 p remainder quotient
     else Ok (remainder, quotient)) = Ok (R', <[p := q']> Q)
    ∧ limbsOk R' ∧ length R' = length R ∧ 0 ≤ q' < Base
    ∧ value R' + value Y * Base ^ Z.of_nat p * q' = value R
    ∧ value R' < value Y * Base ^ Z.of_nat p.
Proof.
  intros Hfuel HR Hlen HpQ Hhigh.
  pose proof Base_gt_1 as HB. pose proof (Base_pow_pos p) as Hp.
  pose proof (divisor_bounds Y Y_magnitude Y_positive) as [HYlo HYhi].
  destruct Y_magnitude as [HY [Hm _]].
  destruct (window_bounds R p HR) as [HWlo HWhi].
  assert (value (drop p R) < 2 ^ (Z.of_nat fuel - 1) * value Y) as Hwin.
  { assert (value (drop p R) < Base * value Y).
    { replace (p + 1)%nat with (S p) in Hhigh by lia. rewrite Base_pow_S in Hhigh. nia. }
    assert (Base ≤ 2 ^ 27) by (rewrite Base_eq; lia).
    assert (2 ^ 27 ≤ 2 ^ (Z.of_nat fuel - 1)) by (apply Z.pow_le_mono_r; lia).
    nia. }
  destruct (estimateLoop_spec Y Y_magnitude Y_positive fuel R (<[p := 0]> Q) p)
    as (R1 & q1 & Hrun & Hok1 & Hl1 & Hq1 & Hv1 & Ht1 & Hk1);
    rewrite ?length_insert, ?list_lookup_total_insert_eq by lia; try assumption; try lia.
  rewrite list_lookup_total_insert_eq in Hv1 by lia.
  rewrite list_insert_insert_eq in Hrun.
  rewrite Hrun. cbn [mbind outcome_bind].
  destruct (window_bounds R1 p Hok1) as [HW1lo HW1hi].
  set (W1 := value (drop p R1)) in *.
  assert (q1 < Base) as Hq1B.
  { pose proof (value_nonneg R1 Hok1).
    replace (p + 1)%nat with (S p) in Hhigh by lia. rewrite Base_pow_S in Hhigh. nia. }
  (* the window has [length Y] limbs, so the comparison sees all of it *)
  assert (value (take (length Y) (drop p R1)) = W1) as Hwindow.
  { destruct (value_split_at (drop p R1) (length Y) (limbsOk_drop p R1 Hok1)) as [Hs Hb].
    fold W1 in Hs.
    assert (value (drop (length Y) (drop p R1)) = 0); [|lia].
    pose proof (value_nonneg _ (limbsOk_drop (length Y) _ (limbsOk_drop p R1 Hok1))).
    pose proof (Base_pow_pos (length Y)).
    destruct (decide (value (drop (length Y) (drop p R1)) = 0)) as [|Hnz]; [assumption|].
    assert (Base ^ Z.of_nat (length Y) * 1
            ≤ Base ^ Z.of_nat (length Y) * value (drop (length Y) (drop p R1)))
      by (apply Z.mul_le_mono_nonneg_l; lia).
    clearbody W1. lia. }
  rewrite compareWindow_spec by (assumption || lia).
  rewrite take_ge by lia. rewrite Hwindow.
  destruct (decide (value Y ≤ W1)) as [Hge|Hlt].
  - rewrite decide_True by lia.
    destruct (performSubtraction_spec Y 1 p R1 (<[p := q1]> Q) HY Hok1 ltac:(lia)
                ltac:(lia)) as (R2 & Hrun2 & Hl2 & Hok2 & Hv2 & _).
    { nia. }
    { rewrite !Base_pow_add. change (Z.of_nat 1) with 1. rewrite Z.pow_1_r.
      pose proof (Base_pow_pos (length Y)).
      assert ((W1 + 1) * Base ^ Z.of_nat p ≤ Base ^ Z.of_nat (length Y) * Base ^ Z.of_nat p)
        by (apply Z.mul_le_mono_nonneg_r; lia).
      assert (0 < Base ^ Z.of_nat (length Y) * Base ^ Z.of_nat p) by nia.
      nia. }
    rewrite Hrun2. rewrite list_lookup_total_insert_eq, list_insert_insert_eq by lia.
    assert (q1 + 1 < Base) as Hq2B.
    { pose proof (value_nonneg R2 Hok2).
      replace (p + 1)%nat with (S p) in Hhigh by lia. rewrite Base_pow_S in Hhigh. nia. }
    rewrite wrap32_small by (rewrite Base_eq in *; lia).
    exists R2, (q1 + 1). split_and!; [reflexivity|assumption|lia|lia|lia|nia|nia].
  - rewrite decide_False by lia.
    exists R1, q1. split_and!; [reflexivity|assumption|lia|lia|lia|nia|nia].
Qed.

Lemma divideAt_spec (fuel : nat) (P : nat) (R Q : list Z) :
  (28 ≤ fuel)%nat →
  limbsOk R → (P + length Y ≤ length R + 1)%nat → (P ≤ length Q)%nat →
  limbsOk (drop P Q) →
  value R < value Y * Base ^ Z.of_nat P →
  ∃ R' Q', divideAt fuel Y P R Q = Ok (R', Q')
    ∧ limbsOk R' ∧ length R' = length R ∧ limbsOk Q' ∧ length Q' = length Q
    ∧ value R' + value Y * value Q'
      = value R + value Y * Base ^ Z.of_nat P * value (drop P Q)
    ∧ value R' < value Y.
Proof.
  intros Hfuel. revert R Q. induction P as [|p IH]; intros R Q HR Hlen HPQ HQ Hhigh.
  - cbn [divideAt]. rewrite drop_0 in *. rewrite Z.pow_0_r in *.
    exists R, Q. split_and!; try reflexivity; try assumption; lia.
  - cbn [divideAt].
    replace (S p) with (p + 1)%nat in Hhigh by lia.
    destruct (dividePosition_spec fuel R Q p Hfuel HR ltac:(lia) ltac:(lia) Hhigh)
      as (R1 & q1 & Hrun & Hok1 & Hl1 & Hq1 & Hv1 & Hhigh1).
    destruct (estimateLoop fuel Y p R (<[p := 0]> Q)) as [[R0 Q0]|] eqn:Hloop;
      cbn [mbind outcome_bind] in Hrun |- *; [|discriminate].
    rewrite Hrun. cbn [mbind outcome_bind].
    assert (drop p (<[p := q1]> Q) = q1 :: drop (S p) Q) as Hdrop.
    { rewrite drop_insert_ge by lia. replace (p - p)%nat with 0%nat by lia.
      destruct (lookup_lt_is_Some_2 Q p ltac:(lia)) as [x Hx].
      rewrite (drop_S _ _ _ Hx). reflexivity. }
    destruct (IH R1 (<[p := q1]> Q)) as (R' & Q' & Hrun' & Hok' & Hl' & HokQ' & HlQ' & Hv' & Hr');
      try assumption; rewrite ?length_insert; try lia.
    { rewrite Hdrop. apply limbsOk_cons. split; assumption. }
    exists R', Q'. rewrite Hrun'.
    rewrite length_insert in HlQ'.
    split_and!; try reflexivity; try assumption; try lia.
    rewrite Hv', Hdrop. cbn [value]. rewrite Base_pow_S. lia.
Qed.

End SchoolbookPositions.

(** Schoolbook division with remainder is exact. *)
Lemma bruteforceDivisionAndModulus_spec (fuel : nat) (X Y : list Z) :
  (28 ≤ fuel)%nat → magnitude X → magnitude Y → 0 < value Y →
  ∃ q r, bruteforceDivisionAndModulus fuel X Y = Ok (q, r)
    ∧ magnitude q ∧ magnitude r
    ∧ value q * value Y + value r = value X ∧ 0 ≤ value r < value Y.
Proof.
  intros Hfuel HX HY HYpos. unfold bruteforceDivisionAndModulus.
  rewrite (ltb_spec X Y HX HY).
  destruct (Z.ltb_spec (value X) (value Y)) as [Hlt|Hge].
  - exists zero, X. pose proof (value_nonneg X (proj1 HX)).
    split_and!; [reflexivity|apply magnitude_zero|assumption|rewrite value_zero; lia|lia|lia].
  - assert (length Y ≤ length X)%nat as Hlen.
    { destruct (decide (length Y ≤ length X)%nat) as [|Hgt]; [assumption|].
      pose proof (magnitude_length_lt X Y HX HY ltac:(lia)). lia. }
    pose proof (divisor_bounds Y HY HYpos) as [HYlo _].
    pose proof (divisor_length Y HY) as Hm.
    set (N := (length X - length Y + 1)%nat).
    destruct (divideAt_spec Y HY HYpos fuel N X (replicate N 0) Hfuel (proj1 HX))
      as (R' & Q' & Hrun & Hok' & Hl' & HokQ' & HlQ' & Hv' & Hr');
      rewrite ?length_replicate; try (unfold N; lia).
    { rewrite drop_ge by (rewrite length_replicate; lia). apply limbsOk_nil. }
    { pose proof (value_bounds X (proj1 HX)) as [_ HXhi].
      replace (length X) with ((length Y - 1) + N)%nat in HXhi by (unfold N; lia).
      rewrite Base_pow_add in HXhi. pose proof (Base_pow_pos N). nia. }
    rewrite Hrun. cbn [mbind outcome_bind].
    rewrite drop_ge in Hv' by (rewrite length_replicate; lia). cbn [value] in Hv'.
    rewrite length_replicate in HlQ'.
    exists (trim Q'), (trim R'). rewrite !value_trim.
    pose proof (value_nonneg R' Hok').
    split_and!; [reflexivity| | |lia|lia|lia].
    + apply magnitude_trim; [assumption|unfold N in *; lia].
    + apply magnitude_trim; [assumption|]. destruct HX as [_ [? _]]. lia.
Qed.

(** * The Newton step of the reciprocal *)

(** With [x] an approximation of [P / Y] whose error [E = P - x * Y]
    satisfies [E * E < Y * P], and [F] the floor of [Y * x * x / P], the
    refined value [2 * x - F - 1] is the floor of [P / Y] or one less. *)
Lemma newton_refine (P Y x F : Z) :
  0 < P → 0 < Y →
  F * P ≤ Y * x * x < (F + 1) * P →
  (P - x * Y) * (P - x * Y) < Y * P →
  (2 * x - F - 1) * Y < P ∧ P < (2 * x - F + 1) * Y.
Proof.
  intros HP HY [HF1 HF2] HE. split.
  - apply (proj2 (Z.mul_lt_mono_pos_r P _ _ HP)).
    assert ((2 * x - F - 1) * Y * P
            = P * P - (P - x * Y) * (P - x * Y) - Y * ((F + 1) * P - Y * x * x)) as -> by ring.
    assert (0 ≤ (P - x * Y) * (P - x * Y)) by apply Z.square_nonneg.
    assert (0 < Y * ((F + 1) * P - Y * x * x)) by (apply Z.mul_pos_pos; lia).
    lia.
  - apply (proj2 (Z.mul_lt_mono_pos_r P _ _ HP)).
    assert ((2 * x - F + 1) * Y * P
            = P * P - (P - x * Y) * (P - x * Y) + Y * P + Y * (Y * x * x - F * P)) as -> by ring.
    assert (0 ≤ Y * (Y * x * x - F * P)) by (apply Z.mul_nonneg_nonneg; lia).
    lia.
Qed.

Lemma square_lt_of_bounds (E M1 M2 T : Z) :
  0 ≤ M1 → 0 ≤ M2 → - M2 < E < M1 → M1 * M1 ≤ T → M2 * M2 ≤ T → E * E < T.
Proof.
  intros H1 H2 HE HT1 HT2. destruct (Z_lt_le_dec E 0).
  - assert (E * E < M2 * M2) by nia. lia.
  - destruct (decide (E = 0)) as [->|]; [nia|].
    assert (E * E < M1 * M1) by nia. lia.
Qed.

Lemma Base_pow_add_Z (a b : Z) : 0 ≤ a → 0 ≤ b → Base ^ (a + b) = Base ^ a * Base ^ b.
Proof. intros. apply Z.pow_add_r; assumption. Qed.

Lemma Base_pow_pos_Z (a : Z) : 0 ≤ a → 0 < Base ^ a.
Proof. intros. apply Z.pow_pos_nonneg; [pose proof Base_gt_1; lia|assumption]. Qed.

Lemma Base_pow_le_Z (a b : Z) : 0 ≤ a ≤ b → Base ^ a ≤ Base ^ b.
Proof. intros. apply Z.pow_le_mono_r; [pose proof Base_gt_1; lia|lia]. Qed.

Lemma Base_pow_lt_Z (a b : Z) : 0 ≤ a < b → Base ^ a < Base ^ b.
Proof. intros. apply Z.pow_lt_mono_r; [pose proof Base_gt_1; lia|lia|lia]. Qed.

(** The arithmetic of one level of [computeInverse]. [n] and [n'] are the
    limb counts of the divisor and of its truncation by [s] limbs, [delta]
    the excess of the precision over [n], [h] the half precision. *)
Lemma newton_step (Y Y' A F n n' delta h s : Z) :
  1 ≤ n → 8 ≤ delta → delta + 4 ≤ 2 * h ≤ delta + 5 →
  0 ≤ s → n' = n - s → 1 ≤ n' → (s = 0 ∨ n' = h) →
  Base ^ (n - 1) ≤ Y < Base ^ n →
  Y' * Base ^ s ≤ Y < (Y' + 1) * Base ^ s →
  Base ^ (n' - 1) ≤ Y' →
  0 ≤ A → A * Y' ≤ Base ^ (h + n') < (A + 2) * Y' →
  F * Base ^ (2 * h - delta + n) ≤ Y * A * A < (F + 1) * Base ^ (2 * h - delta + n) →
  let x := A * Base ^ (delta - h) in
  (2 * x - F - 1) * Y ≤ Base ^ (n + delta)
  ∧ Base ^ (n + delta) < (2 * x - F + 1) * Y
  ∧ 2 ≤ 2 * x - F.
Proof.
  intros Hn Hd Hh Hs Hn' Hn'1 Hcase HY HY' HY'lo HA0 HA HF x.
  pose proof Base_gt_1 as HB.
  set (P := Base ^ (n + delta)).
  set (Pk1 := Base ^ (delta - h)) in *.
  set (Pk2 := Base ^ (2 * h - delta + n)) in *.
  set (Ps := Base ^ s) in *.
  set (Pp' := Base ^ (h + n')) in *.
  assert (0 < Pk1) as HPk1 by (apply Base_pow_pos_Z; lia).
  assert (0 < Pk2) as HPk2 by (apply Base_pow_pos_Z; lia).
  assert (0 < Ps) as HPs by (apply Base_pow_pos_Z; lia).
  assert (0 < Pp') as HPp' by (apply Base_pow_pos_Z; lia).
  assert (0 < P) as HP by (apply Base_pow_pos_Z; lia).
  assert (P = Pp' * Ps * Pk1) as HP1.
  { unfold P, Pp', Ps, Pk1. rewrite <- !Base_pow_add_Z by lia. f_equal. lia. }
  assert (P = Pk2 * (Pk1 * Pk1)) as HP2.
  { unfold P, Pk2, Pk1. rewrite <- !Base_pow_add_Z by lia. f_equal. lia. }
  assert (0 < Y) as HYpos by (pose proof (Base_pow_pos_Z (n - 1) ltac:(lia)); lia).
  assert (0 < Y') as HY'pos by (pose proof (Base_pow_pos_Z (n' - 1) ltac:(lia)); lia).
  (* the floor of [Y * x * x / P] *)
  assert (F * P ≤ Y * x * x < (F + 1) * P) as HFP.
  { unfold x. rewrite HP2.
    replace (Y * (A * Pk1) * (A * Pk1)) with (Y * A * A * (Pk1 * Pk1)) by ring.
    replace (F * (Pk2 * (Pk1 * Pk1))) with (F * Pk2 * (Pk1 * Pk1)) by ring.
    replace ((F + 1) * (Pk2 * (Pk1 * Pk1))) with ((F + 1) * Pk2 * (Pk1 * Pk1)) by ring.
    assert (0 < Pk1 * Pk1) by (apply Z.mul_pos_pos; lia).
    split.
    - apply Z.mul_le_mono_nonneg_r; lia.
    - apply Z.mul_lt_mono_pos_r; lia. }
  (* the error of [x] *)
  set (E := P - x * Y).
  assert (E < 2 * Y * Pk1) as HEhi.
  { unfold E, x.
    assert (Pp' * (Ps * Pk1) < (A + 2) * Y' * (Ps * Pk1))
      by (apply Z.mul_lt_mono_pos_r; [nia|lia]).
    assert (A * Pk1 * (Y' * Ps) ≤ A * Pk1 * Y)
      by (apply Z.mul_le_mono_nonneg_l; [nia|lia]).
    assert (2 * (Y' * Ps) * Pk1 ≤ 2 * Y * Pk1)
      by (apply Z.mul_le_mono_nonneg_r; lia).
    rewrite HP1. lia. }
  assert (- (A * Ps * Pk1) < E ∧ (s = 0 → 0 ≤ E)) as [HElo HE0].
  { unfold E, x. split.
    - assert (A * Pk1 * Y < A * Pk1 * ((Y' + 1) * Ps) ∨ A = 0) as [Hlt| ->].
      { destruct (decide (A = 0)); [right; assumption|left].
        apply Z.mul_lt_mono_pos_l; [nia|lia]. }
      + assert (A * Y' * (Ps * Pk1) ≤ Pp' * (Ps * Pk1))
          by (apply Z.mul_le_mono_nonneg_r; [nia|lia]).
        rewrite HP1. lia.
      + lia.
    - intros ->. unfold Ps in *. rewrite Z.pow_0_r in *.
      assert (Y = Y') as -> by lia.
      assert (A * Y' * Pk1 ≤ Pp' * Pk1) by (apply Z.mul_le_mono_nonneg_r; lia).
      rewrite HP1. lia. }
  assert (E * E < Y * P) as HEE.
  { assert ((2 * Y * Pk1) * (2 * Y * Pk1) ≤ Y * P) as HM1.
    { assert (4 * Y * (Pk1 * Pk1) ≤ P); [|nia].
      assert (4 * Base ^ n * (Pk1 * Pk1) ≤ P).
      { unfold P, Pk1. rewrite <- !Base_pow_add_Z by lia.
        replace (n + delta) with (n + (delta - h + (delta - h)) + (2 * h - delta)) by lia.
        rewrite (Base_pow_add_Z (n + (delta - h + (delta - h)))) by lia.
        rewrite (Base_pow_add_Z n) by lia.
        pose proof (Base_pow_le_Z 1 (2 * h - delta) ltac:(lia)) as H4.
        rewrite Z.pow_1_r in H4.
        pose proof (Base_pow_pos_Z n ltac:(lia)).
        pose proof (Base_pow_pos_Z (delta - h + (delta - h)) ltac:(lia)).
        assert (4 ≤ Base ^ (2 * h - delta)) by (rewrite Base_eq in *; lia).
        nia. }
      assert (4 * Y * (Pk1 * Pk1) ≤ 4 * Base ^ n * (Pk1 * Pk1))
        by (apply Z.mul_le_mono_nonneg_r; nia).
      lia. }
    destruct (decide (s = 0)) as [Hs0|Hs0].
    - specialize (HE0 Hs0).
      assert (0 ≤ 2 * Y * Pk1) by nia.
      assert (1 * 1 ≤ Y * P) by nia.
      apply (square_lt_of_bounds E (2 * Y * Pk1) 1); lia.
    - assert (n' = h) as Hn'h by lia.
      assert (A ≤ Base ^ (h + 1)) as HAhi.
      { assert (A * Base ^ (n' - 1) ≤ Base ^ (h + 1) * Base ^ (n' - 1)).
        { rewrite <- Base_pow_add_Z by lia.
          replace (h + 1 + (n' - 1)) with (h + n') by lia. fold Pp'.
          assert (A * Base ^ (n' - 1) ≤ A * Y') by (apply Z.mul_le_mono_nonneg_l; lia).
          lia. }
        pose proof (Base_pow_pos_Z (n' - 1) ltac:(lia)). nia. }
      assert (A * Ps * Pk1 ≤ Base ^ (n + delta + 1 - h)) as HM2.
      { replace (n + delta + 1 - h) with ((h + 1) + s + (delta - h)) by lia.
        rewrite (Base_pow_add_Z (h + 1 + s)), (Base_pow_add_Z (h + 1)) by lia. fold Ps Pk1.
        apply Z.mul_le_mono_nonneg_r; [lia|].
        apply Z.mul_le_mono_nonneg_r; lia. }
      assert (Base ^ (n + delta + 1 - h) * Base ^ (n + delta + 1 - h) ≤ Y * P) as HM2sq.
      { rewrite <- Base_pow_add_Z by lia.
        assert (Base ^ (n - 1) * P ≤ Y * P) by (apply Z.mul_le_mono_nonneg_r; lia).
        unfold P in *. rewrite <- Base_pow_add_Z in * by lia.
        pose proof (Base_pow_le_Z (n + delta + 1 - h + (n + delta + 1 - h))
                      (n - 1 + (n + delta)) ltac:(lia)).
        lia. }
      assert (0 ≤ A * Ps * Pk1) by nia.
      assert (0 ≤ 2 * Y * Pk1) by nia.
      assert (A * Ps * Pk1 * (A * Ps * Pk1) ≤ Y * P).
      { etrans; [|exact HM2sq]. apply Z.mul_le_mono_nonneg; lia. }
      apply (square_lt_of_bounds E (2 * Y * Pk1) (A * Ps * Pk1)); lia. }
  destruct (newton_refine P Y x F HP HYpos HFP HEE) as [Hup Hlow].
  split_and!; [lia|lia|].
  assert (2 * Y < P); [|nia].
  unfold P. rewrite Base_pow_add_Z by lia.
  pose proof (Base_pow_le_Z 1 delta ltac:(lia)) as H1. rewrite Z.pow_1_r in H1.
  pose proof (Base_pow_pos_Z n ltac:(lia)).
  assert (2 * Y < 2 * Base ^ n) by lia.
  assert (2 * Base ^ n ≤ Base ^ n * Base ^ delta) by nia. lia.
Qed.

(** * Lengths from values *)

(** Linear arithmetic over the hypotheses that mention no power. *)
Ltac linear :=
  repeat match goal with H : context [Z.pow _ _] |- _ => clear H end; lia.

Lemma len_nonneg (d : list Z) : 0 ≤ len d.
Proof. unfold len. lia. Qed.

Lemma length_le_of_value (d : list Z) (k : Z) :
  magnitude d → 1 ≤ k → value d < Base ^ k → len d ≤ k.
Proof.
  intros Hm Hk Hv. unfold len.
  destruct (decide (Z.of_nat (length d) ≤ k)) as [|Hgt]; [assumption|exfalso].
  pose proof (magnitude_bounds d Hm ltac:(lia)) as [Hlo _].
  pose proof (Base_pow_le_Z k (Z.of_nat (length d - 1)) ltac:(lia)). lia.
Qed.

Lemma length_gt_of_value (d : list Z) (k : Z) :
  limbsOk d → 0 ≤ k → Base ^ k ≤ value d → k < len d.
Proof.
  intros Hok Hk Hv. unfold len.
  destruct (decide (k < Z.of_nat (length d))) as [|Hle]; [assumption|exfalso].
  pose proof (value_bounds d Hok) as [_ Hhi].
  pose proof (Base_pow_le_Z (Z.of_nat (length d)) k ltac:(lia)). lia.
Qed.

Lemma length_of_value (d : list Z) (k : Z) :
  magnitude d → 1 ≤ k → Base ^ (k - 1) ≤ value d < Base ^ k → len d = k.
Proof.
  intros Hm Hk [Hlo Hhi].
  pose proof (length_le_of_value d k Hm Hk Hhi).
  pose proof (length_gt_of_value d (k - 1) (proj1 Hm) ltac:(lia) Hlo). lia.
Qed.

Lemma magnitude_bounds_Z (d : list Z) :
  magnitude d → 0 < value d → Base ^ (len d - 1) ≤ value d < Base ^ len d.
Proof.
  intros Hm Hv. unfold len.
  replace (Z.of_nat (length d) - 1) with (Z.of_nat (length d - 1))
    by (destruct Hm as [_ [? _]]; lia).
  destruct Hm as [Hok [Hlen Htop]]. split; [|apply value_bounds; assumption].
  destruct (decide (1 < length d)%nat) as [Hn|Hn].
  - apply value_lower_bound; auto.
  - replace (length d - 1)%nat with 0%nat by lia. rewrite Z.pow_0_r. lia.
Qed.

Lemma magnitude_numerator (p : nat) :
  magnitude (replicate p 0 ++ [1]) ∧ value (replicate p 0 ++ [1]) = Base ^ Z.of_nat p.
Proof.
  split; [split|].
  - apply limbsOk_app. split; [apply limbsOk_replicate_0|].
    apply limbsOk_cons. split; [rewrite Base_eq; lia|apply limbsOk_nil].
  - split; rewrite length_app, length_replicate; cbn [length]; [lia|].
    intros _. rewrite lookup_total_app_r by (rewrite length_replicate; lia).
    rewrite length_replicate. replace (p + 1 - 1 - p)%nat with 0%nat by lia. cbn. lia.
  - rewrite value_app, value_replicate_0, length_replicate. cbn [value]. lia.
Qed.

Lemma rightShift_value_Z (this : list Z) (s : Z) :
  limbsOk this → 0 ≤ s →
  value (rightShift this (Z.to_nat s)) = value this / Base ^ s
  ∧ magnitude (rightShift this (Z.to_nat s)).
Proof.
  intros Hok Hs. destruct (rightShift_spec this (Z.to_nat s) Hok) as [Hv Hm].
  rewrite Z2Nat.id in Hv by lia. split; assumption.
Qed.

Lemma floor_bounds (a b : Z) : 0 < b → a / b * b ≤ a < (a / b + 1) * b.
Proof.
  intros Hb. pose proof (Z.div_mod a b ltac:(lia)).
  pose proof (Z.mod_pos_bound a b Hb). nia.
Qed.

(** * The Newton reciprocal *)

Lemma quotient_bound (A Y n p : Z) :
  1 ≤ n → n ≤ p → Base ^ (n - 1) ≤ Y → 0 ≤ A → A * Y ≤ Base ^ p →
  A ≤ Base ^ (p - n + 1).
Proof.
  intros Hn Hp HY HA HAY.
  pose proof (Base_pow_pos_Z (n - 1) ltac:(lia)) as Hpos.
  assert (Base ^ p = Base ^ (p - n + 1) * Base ^ (n - 1)) as Hsplit.
  { rewrite <- Base_pow_add_Z by lia. f_equal. lia. }
  destruct (decide (A ≤ Base ^ (p - n + 1))) as [|Hgt]; [assumption|exfalso].
  assert ((Base ^ (p - n + 1) + 1) * Base ^ (n - 1) ≤ A * Y).
  { transitivity (A * Base ^ (n - 1)).
    - apply Z.mul_le_mono_nonneg_r; lia.
    - apply Z.mul_le_mono_nonneg_l; lia. }
  lia.
Qed.

Section Reciprocal.

Variable transformProduct : list Z → list Z → list Z.

Lemma computeInverse_direct (fuel : nat) (Y : list Z) (p : Z) :
  len Y < BruteforceThreshold ∨ p < wrap32 (len Y + BruteforceThreshold) →
  computeInverse transformProduct (S fuel) Y p
  = ('(quotient, _) ←
       bruteforceDivisionAndModulus (S fuel) (replicate (Z.to_nat p) 0 ++ [1]) Y;
     Ok quotient).
Proof.
  intros Hdirect. cbn [computeInverse].
  destruct (decide (len Y < BruteforceThreshold
                    ∨ p < wrap32 (len Y + BruteforceThreshold)));
    [reflexivity|contradiction].
Qed.

Lemma computeInverse_step (fuel : nat) (Y : list Z) (p h s p' k1 k2 : Z) :
  ¬ (len Y < BruteforceThreshold ∨ p < wrap32 (len Y + BruteforceThreshold)) →
  wrap32 (p - len Y + 5) ≫ 1 = h →
  (if decide (len Y < h) then 0 else wrap32 (len Y - h)) = s →
  wrap32 (h + len (rightShift Y (Z.to_nat s))) = p' →
  wrap32 (p - p' - s) = k1 →
  wrap32 (2 * (p' + s) - p) = k2 →
  computeInverse transformProduct (S fuel) Y p
  = (approximateInverse ←
       computeInverse transformProduct fuel (rightShift Y (Z.to_nat s)) p';
     product ← mulAssign transformProduct Y approximateInverse;
     product ← mulAssign transformProduct product approximateInverse;
     result ← subAssign
                (leftShift (addAssign approximateInverse approximateInverse)
                   (Z.to_nat k1))
                (rightShift product (Z.to_nat k2));
     decrement result).
Proof.
  intros Hnewton <- <- <- <- <-. cbn [computeInverse].
  destruct (decide (len Y < BruteforceThreshold
                    ∨ p < wrap32 (len Y + BruteforceThreshold)));
    [contradiction|reflexivity].
Qed.

Lemma computeInverse_newton (fuel : nat) (Y : list Z) (p : Z) :
  64 ≤ len Y → len Y + 64 ≤ p → p + 64 < 2 ^ 32 →
  ∃ h s, (p - len Y + 4 ≤ 2 * h ≤ p - len Y + 5)
    ∧ 0 ≤ s < len Y ∧ ((s = 0 ∧ len Y < h) ∨ len Y - s = h) ∧ 1 ≤ len Y - s
    ∧ ∀ l, len (rightShift Y (Z.to_nat s)) = l → l = len Y - s →
      computeInverse transformProduct (S fuel) Y p
      = (approximateInverse ←
           computeInverse transformProduct fuel (rightShift Y (Z.to_nat s)) (h + l);
         product ← mulAssign transformProduct Y approximateInverse;
         product ← mulAssign transformProduct product approximateInverse;
         result ← subAssign
                    (leftShift (addAssign approximateInverse approximateInverse)
                       (Z.to_nat (p - (h + l) - s)))
                    (rightShift product (Z.to_nat (2 * (h + l + s) - p)));
         decrement result).
Proof.
  intros Hn Hp Hcap.
  set (n := len Y) in *.
  set (h := (p - n + 5) / 2) in *.
  assert (p - n + 4 ≤ 2 * h ≤ p - n + 5) as Hh.
  { unfold h. pose proof (Z.div_mod (p - n + 5) 2 ltac:(lia)).
    pose proof (Z.mod_pos_bound (p - n + 5) 2 ltac:(lia)). lia. }
  assert (wrap32 (p - n + 5) ≫ 1 = h) as Hhalf.
  { rewrite wrap32_small by lia. rewrite Z.shiftr_div_pow2 by lia. reflexivity. }
  clearbody h.
  set (s := if decide (n < h) then 0 else wrap32 (n - h)) in *.
  assert (0 ≤ s < n ∧ ((s = 0 ∧ n < h) ∨ n - s = h) ∧ 1 ≤ n - s) as (Hs0 & Hs & Hn').
  { unfold s. destruct (decide (n < h)); [lia|].
    rewrite wrap32_small by lia. lia. }
  assert ((if decide (n < h) then 0 else wrap32 (n - h)) = s) as Hshift
    by reflexivity.
  clearbody s.
  exists h, s. split_and!; [lia|lia|lia|lia|exact Hs|exact Hn'|].
  intros l Hl Hln.
  pose proof (len_nonneg (rightShift Y (Z.to_nat s))) as Hl0. rewrite Hl in Hl0.
  apply (computeInverse_step fuel Y p h s (h + l) (p - (h + l) - s)
           (2 * (h + l + s) - p));
    [unfold BruteforceThreshold; fold n; rewrite wrap32_small by lia; lia
    |exact Hhalf|exact Hshift
    |rewrite Hl; apply wrap32_small; lia
    |apply wrap32_small; lia
    |apply wrap32_small; lia].
Qed.

Lemma computeInverse_spec (fuel : nat) : ∀ (Y : list Z) (p : Z),
  magnitude Y → 0 < value Y → len Y ≤ p → p + 64 < 2 ^ 32 →
  (28 ≤ fuel)%nat →
  (p - len Y < 64 ∨ len Y < 64 ∨ ((29 ≤ fuel)%nat ∧ p - len Y ≤ 118)) →
  ∃ R, computeInverse transformProduct fuel Y p = Ok R
    ∧ limbsOk R ∧ (1 ≤ length R)%nat ∧ len R ≤ p - len Y + 2
    ∧ value R * value Y ≤ Base ^ p < (value R + 2) * value Y.
Proof.
  induction fuel as [|fuel IH]; intros Y p HY HYpos Hlen Hcap Hfuel Hbudget; [lia|].
  pose proof (magnitude_bounds_Z Y HY HYpos) as HYb.
  assert (1 ≤ len Y) as Hn by (destruct HY as [_ [? _]]; unfold len; lia).
  assert (wrap32 (len Y + BruteforceThreshold) = len Y + BruteforceThreshold) as Hw
    by (apply wrap32_small; unfold BruteforceThreshold; lia).
  change (2 ^ 32) with 4294967296 in Hcap.
  destruct (decide (len Y < BruteforceThreshold
                    ∨ p < wrap32 (len Y + BruteforceThreshold)))
    as [Hdirect|Hnewton].
  - rewrite computeInverse_direct by exact Hdirect. clear Hw Hdirect.
    destruct (magnitude_numerator (Z.to_nat p)) as [Hnm Hnv].
    rewrite Z2Nat.id in Hnv by lia.
    destruct (bruteforceDivisionAndModulus_spec (S fuel) _ Y Hfuel Hnm HY HYpos)
      as (q & r & Hrun & Hq & Hr & Hval & Hrem).
    rewrite Hrun. cbn [mbind outcome_bind]. exists q.
    rewrite Hnv in Hval.
    assert (0 ≤ value q) as Hq0 by (apply value_nonneg, Hq).
    assert (value q * value Y ≤ Base ^ p) as Hle by lia.
    pose proof (quotient_bound (value q) (value Y) (len Y) p Hn Hlen
                  (proj1 HYb) Hq0 Hle) as Hqb.
    split_and!; [reflexivity|apply Hq|apply Hq| |exact Hle|lia].
    apply length_le_of_value; [assumption|lia|].
    eapply Z.le_lt_trans; [exact Hqb|apply Base_pow_lt_Z; lia].
  - assert (64 ≤ len Y ∧ 64 ≤ p - len Y) as [Hn64 Hd64]
      by (rewrite Hw in Hnewton; unfold BruteforceThreshold in Hnewton; lia).
    clear Hw Hnewton.
    destruct Hbudget as [?|[?|[Hfuel' Hbudget]]]; [lia|lia|].
    destruct (computeInverse_newton fuel Y p Hn64 ltac:(lia) ltac:(lia))
      as (h & s & Hh & Hs0 & Hshift & Hn' & Hstep).
    set (n := len Y) in *. set (delta := p - n) in *.
    assert (delta = p - n) as Hdelta by reflexivity. clearbody delta.
    assert (n - s = h ∧ h ≤ 61) as [Hsh Hh61] by lia.
    assert (s = 0 ∨ n - s = h) as Hs by (right; exact Hsh).
    clear Hshift.
    destruct (rightShift_value_Z Y s (proj1 HY) ltac:(linear)) as [HY'v HY'].
    set (Y' := rightShift Y (Z.to_nat s)) in *.
    clearbody Y'.
    pose proof (Base_pow_pos_Z s ltac:(linear)) as HBs.
    pose proof (floor_bounds (value Y) (Base ^ s) HBs) as HY'fl.
    rewrite <- HY'v in HY'fl.
    assert (Base ^ (n - s - 1) ≤ value Y') as HY'lo.
    { rewrite HY'v. apply Z.div_le_lower_bound; [assumption|].
      rewrite <- Base_pow_add_Z by linear.
      replace (s + (n - s - 1)) with (n - 1) by linear. apply HYb. }
    assert (value Y' < Base ^ (n - s)) as HY'hi.
    { rewrite HY'v. apply Z.div_lt_upper_bound; [assumption|].
      rewrite <- Base_pow_add_Z by linear.
      replace (s + (n - s)) with n by linear. apply HYb. }
    assert (len Y' = n - s) as HlenY'.
    { apply length_of_value; [assumption|lia|split; assumption]. }
    assert (0 < value Y') as HY'pos.
    { eapply Z.lt_le_trans; [|exact HY'lo]. apply Base_pow_pos_Z; lia. }
    rewrite (Hstep (n - s) HlenY' eq_refl). clear Hstep.
    replace (p - (h + (n - s)) - s) with (delta - h) by linear.
    replace (2 * (h + (n - s) + s) - p) with (2 * h - delta + n) by linear.
    destruct (IH Y' (h + (n - s)) HY' HY'pos) as (A & Hrun & HA & HA1 & HAlen & HAc).
    { rewrite HlenY'. linear. }
    { change (2 ^ 32) with 4294967296. linear. }
    { linear. }
    { rewrite HlenY'. right; left. linear. }
    clear IH.
    rewrite HlenY' in HAlen. replace (h + (n - s) - (n - s) + 2) with (h + 2) in HAlen by linear.
    rewrite Hrun. cbn [mbind outcome_bind].
    assert (0 ≤ value A) as HA0 by (apply value_nonneg, HA).
    assert (1 ≤ value A) as HApos.
    { destruct (decide (1 ≤ value A)) as [|Hz]; [assumption|exfalso].
      assert (value A = 0) as Hz' by linear. rewrite Hz' in HAc.
      pose proof (Base_pow_add_Z h (n - s) ltac:(linear) ltac:(linear)) as Hsplit.
      pose proof (Base_pow_le_Z 1 h ltac:(linear)) as Hone.
      change (Base ^ 1) with Base in Hone.
      pose proof (Base_pow_pos_Z (n - s) ltac:(linear)) as Hpos.
      assert (Base * Base ^ (n - s) ≤ Base ^ h * Base ^ (n - s)) as Hmono
        by (apply Z.mul_le_mono_nonneg_r; [clear - Hpos; lia|exact Hone]).
      rewrite Base_eq in Hmono at 1.
      clear - HAc Hsplit Hmono HY'hi Hpos. lia. }
    destruct (addAssign_spec A A HA HA HA1 ltac:(left; linear)) as [Hdv Hdm].
    set (doubled := addAssign A A) in *.
    clearbody doubled.
    destruct (leftShift_spec doubled (Z.to_nat (delta - h)) Hdm ltac:(linear))
      as (Hmv & Hmm & _).
    rewrite Z2Nat.id in Hmv by linear.
    set (minuend := leftShift doubled (Z.to_nat (delta - h))) in *.
    clearbody minuend.
    destruct (mulAssign_short transformProduct Y A (proj1 HY) HA
                ltac:(apply HY) HA1) as (P1 & HP1 & HP1v & HP1m).
    { right. unfold BruteforceThreshold. linear. }
    rewrite HP1. cbn [mbind outcome_bind].
    destruct (mulAssign_short transformProduct P1 A (proj1 HP1m) HA
                ltac:(apply HP1m) HA1) as (P2 & HP2 & HP2v & HP2m).
    { right. unfold BruteforceThreshold. linear. }
    rewrite HP2. cbn [mbind outcome_bind].
    destruct (rightShift_value_Z P2 (2 * h - delta + n) (proj1 HP2m) ltac:(linear))
      as [HSv HSm].
    set (subtrahend := rightShift P2 (Z.to_nat (2 * h - delta + n))) in *.
    clearbody subtrahend.
    pose proof (Base_pow_pos_Z (2 * h - delta + n) ltac:(linear)) as HBk.
    pose proof (floor_bounds (value P2) (Base ^ (2 * h - delta + n)) HBk) as HFfl.
    rewrite <- HSv, HP2v, HP1v in HFfl.
    assert (value A * value Y' ≤ Base ^ (h + (n - s)) < (value A + 2) * value Y') as HAc'
      by exact HAc.
    pose proof (newton_step (value Y) (value Y') (value A) (value subtrahend)
                  n (n - s) delta h s Hn ltac:(linear) Hh (proj1 Hs0) eq_refl Hn' Hs HYb
                  HY'fl ltac:(exact HY'lo) HA0 HAc' HFfl) as (Hlow & Hhigh & Htwo).
    cbv zeta in Hlow, Hhigh, Htwo.
    replace (n + delta) with p in Hlow, Hhigh by linear.
    destruct (subAssign_spec minuend subtrahend Hmm HSm) as (R0 & HR0 & HR0v & HR0m).
    { rewrite Hmv, Hdv. clear - Htwo. lia. }
    rewrite HR0. cbn [mbind outcome_bind].
    destruct (decrement_spec R0 (proj1 HR0m) ltac:(apply HR0m))
      as (R & HR & HRv & HRok & HRlen).
    { rewrite HR0v, Hmv, Hdv. clear - Htwo. lia. }
    exists R.
    assert (value R = 2 * (value A * Base ^ (delta - h)) - value subtrahend - 1) as HRv'.
    { rewrite HRv, HR0v, Hmv, Hdv. ring. }
    assert (value R * value Y ≤ Base ^ p) as HRle by (rewrite HRv'; exact Hlow).
    assert (0 ≤ value R) as HR0' by (apply value_nonneg, HRok).
    pose proof (quotient_bound (value R) (value Y) n p Hn Hlen (proj1 HYb) HR0' HRle)
      as HRb.
    split_and!; [exact HR|exact HRok|rewrite HRlen; apply HR0m| |exact HRle|].
    + unfold len. rewrite HRlen. fold (len R0).
      apply length_le_of_value; [assumption|linear|].
      rewrite <- Hdelta in HRb.
      pose proof (Base_pow_add_Z (delta + 1) 1 ltac:(linear) ltac:(linear)) as Hsp.
      replace (delta + 1 + 1) with (delta + 2) in Hsp by linear.
      change (Base ^ 1) with 100000000 in Hsp.
      pose proof (Base_pow_pos_Z (delta + 1) ltac:(linear)) as Hpos.
      assert (value R0 = value R + 1) as Hsucc by linear.
      clear - HRb Hsp Hpos Hsucc. lia.
    + replace (value R + 2) with (2 * (value A * Base ^ (delta - h)) - value subtrahend + 1)
        by (rewrite HRv'; ring).
      exact Hhigh.
Qed.

End Reciprocal.

(** * Division through the reciprocal *)

Lemma quotient_not_above (X Y D A q W : Z) :
  0 < W → 0 ≤ X → 0 ≤ A → 0 ≤ Y ≤ D → A * D ≤ W → q * W ≤ X * A →
  q * Y ≤ X.
Proof.
  intros HW HX HA HY HAD Hq.
  apply (Z.mul_le_mono_pos_l _ _ W HW).
  transitivity (X * A * Y).
  - replace (W * (q * Y)) with (q * W * Y) by ring.
    apply Z.mul_le_mono_nonneg_r; lia.
  - transitivity (X * A * D).
    + apply Z.mul_le_mono_nonneg_l; [apply Z.mul_nonneg_nonneg; lia|lia].
    + replace (X * A * D) with (X * (A * D)) by ring.
      rewrite (Z.mul_comm W X). apply Z.mul_le_mono_nonneg_l; lia.
Qed.

Lemma quotient_not_far_below (X Y D A q W G H : Z) :
  0 < W → 0 < D → 0 < X →
  W < (A + 2) * D → X * A < (q + 1) * W →
  (q + 1) * (D - Y) ≤ G → X * D < W * H → G + 2 * H < Y →
  X < (q + 2) * Y.
Proof.
  intros HW HZ HX HAD Hq Hexcess Hslack Hsmall.
  assert (X * W < X * A * D + 2 * (X * D)) as H1.
  { replace (X * A * D + 2 * (X * D)) with (X * ((A + 2) * D)) by ring.
    apply Z.mul_lt_mono_pos_l; lia. }
  assert (X * A * D < (q + 1) * W * D) as H2.
  { apply Z.mul_lt_mono_pos_r; lia. }
  assert ((q + 1) * W * D ≤ W * ((q + 1) * Y + G)) as H3.
  { replace ((q + 1) * W * D) with (W * ((q + 1) * Y + (q + 1) * (D - Y))) by ring.
    apply Z.mul_le_mono_nonneg_l; lia. }
  assert (W * X < W * ((q + 1) * Y + G + 2 * H)) as H4.
  { replace (W * ((q + 1) * Y + G + 2 * H))
      with (W * ((q + 1) * Y + G) + 2 * (W * H)) by ring.
    lia. }
  apply Z.mul_lt_mono_pos_l in H4; lia.
Qed.

(** The quotient read off the product with the reciprocal is at most two
    below the true quotient and never above it. [m] and [n] are the lengths
    of the dividend and of the divisor, [l] that of the adjusted divisor. *)
Lemma reciprocal_quotient (X Y Y' A q m n s l : Z) :
  5 ≤ n → n ≤ m → 0 ≤ s → 0 ≤ l →
  (s = 0 ∨ s = n - (m - n + 5)) →
  Base ^ (n - 1) ≤ Y → 0 ≤ X < Base ^ m →
  Y ≤ Y' * Base ^ s ≤ Y + Base ^ s → (s = 0 → Y' = Y) →
  0 < Y' ≤ Base ^ l →
  0 ≤ A → A * Y' ≤ Base ^ (m - n + 5 + l) < (A + 2) * Y' →
  0 ≤ q →
  q * Base ^ (m - n + 5 + l + s) ≤ X * A < (q + 1) * Base ^ (m - n + 5 + l + s) →
  (q * Y ≤ X < (q + 2) * Y) ∧ q < Base ^ (m - n + 1).
Proof.
  intros Hn Hm Hs Hl Hshift HY HX HZ Hexact HY' HA HAc Hq Hfl.
  pose proof (Base_pow_pos_Z s Hs) as HBs.
  pose proof (Base_pow_pos_Z (n - 1) ltac:(linear)) as HBn.
  pose proof (Base_pow_pos_Z (m - n + 1) ltac:(linear)) as HBq.
  pose proof (Base_pow_pos_Z (m - n + 5 + l + s) ltac:(linear)) as HWpos.
  pose proof (Base_pow_add_Z (m - n + 5 + l) s ltac:(linear) Hs) as HW.
  assert (Base ^ m = Base ^ (m - n + 1) * Base ^ (n - 1)) as Hsplit.
  { rewrite <- Base_pow_add_Z by linear. f_equal. linear. }
  assert (Base ^ (m - n + 5 + l + s) * Base ^ (n - 5)
          = Base ^ m * (Base ^ l * Base ^ s)) as Hweights.
  { rewrite <- !Base_pow_add_Z by linear. f_equal. linear. }
  assert (Base ^ (n - 4) + 2 * Base ^ (n - 5) < Base ^ (n - 1)) as Hsmall.
  { pose proof (Base_pow_pos_Z (n - 5) ltac:(linear)) as H5.
    assert (Base ^ (n - 4) = Base ^ (n - 5) * 100000000) as ->.
    { replace (n - 4) with (n - 5 + 1) by linear.
      rewrite Base_pow_add_Z by linear. reflexivity. }
    assert (Base ^ (n - 1) = Base ^ (n - 5) * 100000000000000000000000000000000) as ->.
    { replace (n - 1) with (n - 5 + 4) by linear.
      rewrite Base_pow_add_Z by linear. reflexivity. }
    clear - H5. lia. }
  assert (s ≠ 0 → Base ^ (n - 4) = Base ^ (m - n + 1) * Base ^ s) as Hcarry.
  { intros Hne. rewrite <- Base_pow_add_Z by linear. f_equal. linear. }
  assert (s = 0 ∨ s ≠ 0) as Hcase by linear.
  assert (s = 0 → Base ^ s = 1) as Hunit by (intros ->; reflexivity).
  pose proof (Base_pow_pos_Z (n - 4) ltac:(linear)) as HG.
  pose proof (Base_pow_pos_Z l Hl) as HBl.
  clear Hshift.
  set (W := Base ^ (m - n + 5 + l + s)) in *.
  set (V := Base ^ (m - n + 5 + l)) in *.
  set (S := Base ^ s) in *. set (N1 := Base ^ (n - 1)) in *.
  set (Q1 := Base ^ (m - n + 1)) in *. set (M := Base ^ m) in *.
  set (G := Base ^ (n - 4)) in *. set (H5 := Base ^ (n - 5)) in *.
  set (L := Base ^ l) in *.
  clearbody W V S N1 Q1 M G H5 L.
  set (D := Y' * S) in *.
  assert (0 < D) as HDpos by (unfold D; apply Z.mul_pos_pos; lia).
  assert (A * D ≤ W) as HAD.
  { unfold D. rewrite HW, Z.mul_assoc. apply Z.mul_le_mono_nonneg_r; lia. }
  assert (W < (A + 2) * D) as HAD2.
  { unfold D. rewrite HW, Z.mul_assoc. apply Z.mul_lt_mono_pos_r; lia. }
  assert (q * Y ≤ X) as Hlow.
  { apply (quotient_not_above X Y D A q W); lia. }
  assert (q < Q1) as Hqb.
  { destruct (decide (q < Q1)) as [|Hge]; [assumption|exfalso].
    assert (Q1 * N1 ≤ q * Y) by (apply Z.mul_le_mono_nonneg; lia).
    lia. }
  split; [split; [exact Hlow|]|exact Hqb].
  destruct (decide (X < (q + 2) * Y)) as [|Hge]; [assumption|exfalso].
  assert (0 ≤ q * Y) as HqY by (apply Z.mul_nonneg_nonneg; lia).
  assert (0 < X) as HXpos by lia.
  assert ((q + 1) * (D - Y) ≤ G) as Hexcess.
  { destruct Hcase as [Hs0|Hs0].
    - unfold D. rewrite (Hunit Hs0), Z.mul_1_r, (Hexact Hs0), Z.sub_diag, Z.mul_0_r.
      lia.
    - rewrite (Hcarry Hs0). apply Z.mul_le_mono_nonneg; lia. }
  assert (X * D < W * H5) as Hslack.
  { rewrite Hweights.
    apply Z.le_lt_trans with (X * (L * S)).
    - apply Z.mul_le_mono_nonneg_l; [lia|].
      unfold D. apply Z.mul_le_mono_nonneg_r; lia.
    - apply Z.mul_lt_mono_pos_r; [|lia].
      apply Z.mul_pos_pos; lia. }
  pose proof (quotient_not_far_below X Y D A q W G H5 HWpos HDpos HXpos HAD2
                (proj2 Hfl) Hexcess Hslack ltac:(lia)).
  lia.
Qed.

Section ReciprocalDivision.

Variable transformProduct : list Z → list Z → list Z.

Lemma lowerQuotient_exit (fuel : nat) (X Y q : list Z) :
  (1 ≤ fuel)%nat → magnitude X → magnitude Y → magnitude q →
  (len q < BruteforceThreshold ∨ len Y < BruteforceThreshold) →
  value q * value Y ≤ value X →
  lowerQuotient transformProduct fuel X Y q = Ok q.
Proof.
  intros Hfuel HX HY Hq Hcap Hle.
  destruct fuel as [|fuel]; [lia|]. cbn [lowerQuotient].
  destruct (mulAssign_short transformProduct q Y (proj1 Hq) (proj1 HY)
              ltac:(apply Hq) ltac:(apply HY) Hcap) as (P & HP & HPv & HPm).
  rewrite HP. cbn [mbind outcome_bind].
  rewrite (gtb_spec P X HPm HX), HPv.
  destruct (Z.ltb_spec (value X) (value q * value Y)); [lia|reflexivity].
Qed.

Lemma raiseQuotient_spec (fuel : nat) (Y q r : list Z) :
  (2 ≤ fuel)%nat → magnitude Y → magnitude q → magnitude r →
  value r < 2 * value Y →
  ∃ q' r', raiseQuotient fuel Y q r = Ok (q', r')
    ∧ magnitude q' ∧ magnitude r'
    ∧ value q' * value Y + value r' = value q * value Y + value r
    ∧ 0 ≤ value r' < value Y.
Proof.
  intros Hfuel HY Hq Hr Hbound.
  pose proof (value_nonneg r (proj1 Hr)) as Hr0.
  destruct fuel as [|[|fuel]]; [lia|lia|]. cbn [raiseQuotient].
  rewrite (geb_spec r Y Hr HY).
  destruct (Z.leb_spec (value Y) (value r)) as [Hge|Hlt].
  - destruct (subAssign_spec r Y Hr HY Hge) as (r1 & Hr1 & Hr1v & Hr1m).
    rewrite Hr1. cbn [mbind outcome_bind].
    rewrite (geb_spec r1 Y Hr1m HY).
    destruct (Z.leb_spec (value Y) (value r1)) as [Hge'|Hlt']; [lia|].
    destruct (increment_spec q (proj1 Hq) ltac:(apply Hq)) as (Hiv & Hiok & Hic & _).
    exists (increment q), r1.
    split_and!; [reflexivity|split; [exact Hiok|apply Hic, Hq]|exact Hr1m| |lia|lia].
    rewrite Hiv, Hr1v. ring.
  - exists q, r. split_and!; [reflexivity|assumption|assumption|reflexivity|lia|lia].
Qed.

Lemma divisionAndModulus_reciprocal (fuel : nat) (X Y : list Z) :
  value Y ≤ value X → magnitude X → magnitude Y →
  64 ≤ len Y → len Y ≤ len X → len X + 64 < 2 ^ 32 →
  ∃ s, 0 ≤ s < len Y
    ∧ ((s = 0 ∧ len Y ≤ len X - len Y + 5)
       ∨ (0 < s ∧ s = len Y - (len X - len Y + 5)))
    ∧ ∀ Y' l,
      (if decide (s ≠ 0) then increment (rightShift Y (Z.to_nat s))
       else rightShift Y (Z.to_nat s)) = Y' →
      len Y' = l → l ≤ len Y - s + 1 →
      divisionAndModulus transformProduct fuel X Y
      = (inverse ← computeInverse transformProduct fuel Y' (len X - len Y + 5 + l);
         product ← mulAssign transformProduct X inverse;
         quotient ←
           lowerQuotient transformProduct fuel X Y
             (rightShift product (Z.to_nat (len X - len Y + 5 + l + s)));
         product ← mulAssign transformProduct quotient Y;
         remainder ← subAssign X product;
         raiseQuotient fuel Y quotient remainder).
Proof.
  intros Hge HX HY Hn Hnm Hm.
  set (d := len X - len Y + 5).
  set (s := if decide (len Y < d) then 0 else wrap32 (len Y - d)).
  assert (0 ≤ s < len Y
          ∧ ((s = 0 ∧ len Y ≤ d) ∨ (0 < s ∧ s = len Y - d))) as [Hs0 Hs].
  { unfold s, d. destruct (decide (len Y < len X - len Y + 5)); [lia|].
    rewrite wrap32_small by lia. lia. }
  exists s. split; [exact Hs0|]. split; [exact Hs|].
  intros Y' l HY' Hl Hll.
  pose proof (len_nonneg Y') as Hl0. rewrite Hl in Hl0.
  unfold divisionAndModulus.
  rewrite (ltb_spec X Y HX HY).
  destruct (Z.ltb_spec (value X) (value Y)) as [Hlt|_]; [lia|].
  destruct (decide (len X < BruteforceThreshold ∨ len Y < BruteforceThreshold))
    as [Hsmall|_]; [unfold BruteforceThreshold in Hsmall; lia|].
  cbv zeta.
  assert (wrap32 (len X - len Y + 5) = d) as -> by (apply wrap32_small; lia).
  fold s. rewrite HY', Hl.
  assert (wrap32 (d + l) = d + l) as -> by (apply wrap32_small; unfold d; lia).
  assert (wrap32 (d + l + s) = d + l + s) as ->
    by (apply wrap32_small; unfold d; lia).
  reflexivity.
Qed.

Lemma divisionAndModulus_inverse (fuel : nat) (X Y : list Z) :
  (46 ≤ fuel)%nat → magnitude X → magnitude Y → 0 < value Y →
  value Y ≤ value X → 64 ≤ len Y → len X ≤ len Y + 58 → len X + 64 < 2 ^ 32 →
  ∃ s Y' A,
    0 < s < len Y ∧ s = len Y - (len X - len Y + 5)
    ∧ magnitude Y' ∧ 0 < value Y' ∧ len Y - s ≤ len Y' ≤ len Y - s + 1
    ∧ value Y ≤ value Y' * Base ^ s ≤ value Y + Base ^ s
    ∧ (s = 0 → value Y' = value Y)
    ∧ limbsOk A ∧ (1 ≤ length A)%nat ∧ len A ≤ len X - len Y + 7
    ∧ value A * value Y' ≤ Base ^ (len X - len Y + 5 + len Y')
                         < (value A + 2) * value Y'
    ∧ divisionAndModulus transformProduct fuel X Y
      = (product ← mulAssign transformProduct X A;
         quotient ←
           lowerQuotient transformProduct fuel X Y
             (rightShift product (Z.to_nat (len X - len Y + 5 + len Y' + s)));
         product ← mulAssign transformProduct quotient Y;
         remainder ← subAssign X product;
         raiseQuotient fuel Y quotient remainder).
Proof.
  intros Hfuel HX HY HYpos Hge Hn64 Hnear HmL.
  assert (len Y ≤ len X) as Hnm.
  { destruct (decide (len Y ≤ len X)) as [|Hgt]; [assumption|exfalso].
    pose proof (magnitude_length_lt X Y HX HY ltac:(unfold len in Hgt; lia)). lia. }
  destruct (divisionAndModulus_reciprocal fuel X Y Hge HX HY Hn64 Hnm HmL)
    as (s & Hs0 & Hshift & Hstep).
  change (2 ^ 32) with 4294967296 in HmL.
  assert (0 < s ∧ s = len Y - (len X - len Y + 5)) as [Hspos Hseq] by lia.
  assert (s = 0 ∨ s = len Y - (len X - len Y + 5)) as Hs by (right; exact Hseq).
  clear Hshift.
  pose proof (magnitude_bounds_Z Y HY HYpos) as HYb.
  set (m := len X) in *. set (n := len Y) in *.
  destruct (rightShift_value_Z Y s (proj1 HY) ltac:(linear)) as [HY0v HY0].
  set (Y0 := rightShift Y (Z.to_nat s)) in *. clearbody Y0.
  pose proof (Base_pow_pos_Z s ltac:(linear)) as HBs.
  pose proof (floor_bounds (value Y) (Base ^ s) HBs) as HY0fl.
  rewrite <- HY0v in HY0fl.
  assert (Base ^ (n - s - 1) ≤ value Y0) as HY0lo.
  { rewrite HY0v. apply Z.div_le_lower_bound; [assumption|].
    rewrite <- Base_pow_add_Z by linear.
    replace (s + (n - s - 1)) with (n - 1) by linear. apply HYb. }
  assert (value Y0 < Base ^ (n - s)) as HY0hi.
  { rewrite HY0v. apply Z.div_lt_upper_bound; [assumption|].
    rewrite <- Base_pow_add_Z by linear.
    replace (s + (n - s)) with n by linear. apply HYb. }
  assert (len Y0 = n - s) as HlenY0.
  { apply length_of_value; [assumption|linear|split; assumption]. }
  assert (0 < value Y0) as HY0pos.
  { eapply Z.lt_le_trans; [|exact HY0lo]. apply Base_pow_pos_Z; linear. }
  set (Y' := if decide (s ≠ 0) then increment Y0 else Y0) in *.
  assert (magnitude Y' ∧ 0 < value Y' ∧ n - s ≤ len Y' ≤ n - s + 1
          ∧ value Y ≤ value Y' * Base ^ s ≤ value Y + Base ^ s
          ∧ (s = 0 → value Y' = value Y)) as (HY' & HY'pos & HlenY' & HZ & Hexact).
  { unfold Y'. destruct (decide (s ≠ 0)) as [Hne|He].
    - destruct (increment_spec Y0 (proj1 HY0) ltac:(apply HY0))
        as (Hiv & Hiok & Hic & Hil).
      split_and!; [split; [exact Hiok|apply Hic, HY0]|linear| | | | |linear].
      + unfold len in *. linear.
      + unfold len in *. linear.
      + rewrite Hiv. clear - HY0fl. lia.
      + rewrite Hiv. clear - HY0fl. lia.
    - assert (s = 0) as Hz by linear.
      rewrite Hz, Z.pow_0_r in *. rewrite Z.div_1_r in HY0v.
      split_and!; [assumption|linear|linear|linear| | |intros _; exact HY0v].
      + clear - HY0v. lia.
      + clear - HY0v. lia. }
  specialize (Hstep Y' (len Y') eq_refl eq_refl ltac:(linear)).
  clearbody Y'. clear HY0v HY0 HY0fl HY0lo HY0hi HlenY0 HY0pos Y0.
  set (l := len Y') in *.
  destruct (computeInverse_spec transformProduct fuel Y' (m - n + 5 + l)
              HY' HY'pos) as (A & HArun & HA & HA1 & HAlen & HAc).
  { fold l. linear. }
  { change (2 ^ 32) with 4294967296. linear. }
  { linear. }
  { fold l. left. linear. }
  fold l in HAlen. replace (m - n + 5 + l - l + 2) with (m - n + 7) in HAlen by linear.
  rewrite HArun in Hstep. cbn [mbind outcome_bind] in Hstep.
  exists s, Y', A.
  split_and!; [linear|linear|exact Hseq|assumption|assumption|linear|linear
              |apply HZ|apply HZ|assumption|assumption|assumption|assumption
              |apply HAc|apply HAc|exact Hstep].
Qed.

Lemma divisionAndModulus_spec (fuel : nat) (X Y : list Z) :
  (46 ≤ fuel)%nat → magnitude X → magnitude Y → 0 < value Y →
  (len X < BruteforceThreshold ∨ len Y < BruteforceThreshold
   ∨ (len X ≤ len Y + 56 ∧ len X + 64 < 2 ^ 32)) →
  ∃ q r, divisionAndModulus transformProduct fuel X Y = Ok (q, r)
    ∧ magnitude q ∧ magnitude r
    ∧ value q * value Y + value r = value X
    ∧ 0 ≤ value r < value Y.
Proof.
  intros Hfuel HX HY HYpos Hcap.
  pose proof (value_nonneg X (proj1 HX)) as HX0.
  destruct (Z.ltb_spec (value X) (value Y)) as [Hlt|Hge].
  { unfold divisionAndModulus. rewrite (ltb_spec X Y HX HY).
    destruct (Z.ltb_spec (value X) (value Y)) as [_|?]; [|lia].
    exists zero, X.
    split_and!; [reflexivity|apply magnitude_zero|assumption| |lia|lia].
    rewrite value_zero. lia. }
  destruct (decide (len X < BruteforceThreshold ∨ len Y < BruteforceThreshold))
    as [Hsmall|Hlarge].
  { unfold divisionAndModulus. rewrite (ltb_spec X Y HX HY).
    destruct (Z.ltb_spec (value X) (value Y)) as [?|_]; [lia|].
    destruct (decide (len X < BruteforceThreshold ∨ len Y < BruteforceThreshold))
      as [_|?]; [|contradiction].
    apply bruteforceDivisionAndModulus_spec; [lia|assumption..]. }
  unfold BruteforceThreshold in Hlarge, Hcap.
  assert (len X ≤ len Y + 56 ∧ len X + 64 < 2 ^ 32 ∧ 64 ≤ len X ∧ 64 ≤ len Y)
    as (Hnear & HmL & Hm64 & Hn64) by lia.
  clear Hcap Hlarge.
  destruct (divisionAndModulus_inverse fuel X Y Hfuel HX HY HYpos Hge Hn64
              ltac:(lia) HmL)
    as (s & Y' & A & Hs0 & Hseq & HY' & HY'pos & HlenY' & HZ & Hexact
        & HA & HA1 & HAlen & HAc & Hstep).
  assert (s = 0 ∨ s = len Y - (len X - len Y + 5)) as Hs by (right; exact Hseq).
  rewrite Hstep. clear Hstep.
  change (2 ^ 32) with 4294967296 in HmL.
  assert (len Y ≤ len X) as Hnm.
  { destruct (decide (len Y ≤ len X)) as [|Hgt]; [assumption|exfalso].
    pose proof (magnitude_length_lt X Y HX HY ltac:(unfold len in Hgt; lia)). lia. }
  pose proof (magnitude_bounds_Z Y HY HYpos) as HYb.
  pose proof (value_bounds X (proj1 HX)) as HXb. fold (len X) in HXb.
  set (m := len X) in *. set (n := len Y) in *. set (l := len Y') in *.
  destruct (mulAssign_short transformProduct X A (proj1 HX) HA
              ltac:(apply HX) HA1) as (P & HP & HPv & HPm).
  { right. unfold BruteforceThreshold. linear. }
  rewrite HP. cbn [mbind outcome_bind].
  destruct (rightShift_value_Z P (m - n + 5 + l + s) (proj1 HPm) ltac:(linear))
    as [Hqv Hqm].
  set (q0 := rightShift P (Z.to_nat (m - n + 5 + l + s))) in *. clearbody q0.
  pose proof (Base_pow_pos_Z (m - n + 5 + l + s) ltac:(linear)) as HW.
  pose proof (floor_bounds (value P) (Base ^ (m - n + 5 + l + s)) HW) as Hqfl.
  rewrite <- Hqv, HPv in Hqfl.
  pose proof (value_bounds Y' (proj1 HY')) as [_ HY'hi]. fold (len Y') in HY'hi.
  fold l in HY'hi.
  assert (0 ≤ value A) as HA0 by (apply value_nonneg, HA).
  assert (0 ≤ value q0) as Hq0 by (apply value_nonneg, Hqm).
  destruct (reciprocal_quotient (value X) (value Y) (value Y') (value A) (value q0)
              m n s l ltac:(linear) Hnm ltac:(linear) ltac:(linear) Hs (proj1 HYb)
              HXb HZ Hexact
              (conj HY'pos (Z.lt_le_incl _ _ HY'hi)) HA0 HAc Hq0 Hqfl)
    as [[Hlow Hhigh] Hqb].
  assert (len q0 ≤ m - n + 1) as Hqlen.
  { apply length_le_of_value; [assumption|linear|assumption]. }
  rewrite (lowerQuotient_exit fuel X Y q0 ltac:(linear) HX HY Hqm); [|
    left; unfold BruteforceThreshold; linear | exact Hlow].
  cbn [mbind outcome_bind].
  destruct (mulAssign_short transformProduct q0 Y (proj1 Hqm) (proj1 HY)
              ltac:(apply Hqm) ltac:(apply HY)) as (P2 & HP2 & HP2v & HP2m).
  { left. unfold BruteforceThreshold. linear. }
  rewrite HP2. cbn [mbind outcome_bind].
  destruct (subAssign_spec X P2 HX HP2m ltac:(rewrite HP2v; exact Hlow))
    as (r0 & Hr0 & Hr0v & Hr0m).
  rewrite Hr0. cbn [mbind outcome_bind].
  destruct (raiseQuotient_spec fuel Y q0 r0 ltac:(linear) HY Hqm Hr0m)
    as (q' & r' & Hrun & Hq' & Hr' & Hsum & Hrem).
  { rewrite Hr0v, HP2v. clear - Hhigh. lia. }
  exists q', r'.
  split_and!; [exact Hrun|assumption|assumption| |apply Hrem|apply Hrem].
  rewrite Hsum, Hr0v, HP2v. ring.
Qed.

End ReciprocalDivision.

(** * The limbs of a reciprocal *)


(** * The division operators *)

Section Division.

Variable transformProduct : list Z → list Z → list Z.

Lemma toBool_nonzero (d : list Z) : magnitude d → 0 < value d → toBool d = true.
Proof.
  intros Hm Hv. rewrite (toBool_magnitude d Hm).
  destruct (Z.eqb_spec (value d) 0); [lia|reflexivity].
Qed.

Lemma divAssign_modAssign_spec (fuel : nat) (X Y : list Z) :
  (46 ≤ fuel)%nat → magnitude X → magnitude Y → 0 < value Y →
  (len X < BruteforceThreshold ∨ len Y < BruteforceThreshold
   ∨ (len X ≤ len Y + 56 ∧ len X + 64 < 2 ^ 32)) →
  ∃ q r, divAssign transformProduct fuel X Y = Ok q
    ∧ modAssign transformProduct fuel X Y = Ok r
    ∧ magnitude q ∧ magnitude r
    ∧ value q * value Y + value r = value X
    ∧ 0 ≤ value r < value Y.
Proof.
  intros Hfuel HX HY HYpos Hcap.
  destruct (divisionAndModulus_spec transformProduct fuel X Y Hfuel HX HY HYpos Hcap)
    as (q & r & Hrun & Hq & Hr & Hsum & Hrem).
  exists q, r. unfold divAssign, modAssign.
  rewrite (toBool_nonzero Y HY HYpos), Hrun. cbn.
  split_and!; try reflexivity; try assumption; apply Hrem.
Qed.




End Division.

(** * Division identity *)

(** The array [0, ..., 0, 1] with [k] zeros. *)
Lemma len_power (k : Z) :
  0 ≤ k → len (replicate (Z.to_nat k) 0 ++ [1]) = k + 1.
Proof.
  intros Hk. unfold len. rewrite length_app, length_replicate. cbn [length].
  rewrite Nat2Z.inj_add, Z2Nat.id by assumption. reflexivity.
Qed.


Lemma magnitude_power (k : Z) : magnitude (replicate (Z.to_nat k) 0 ++ [1]).
Proof. apply magnitude_numerator. Qed.

(** Closed side conditions of examples, decided by evaluation. *)
Ltac decided := apply (bool_decide_unpack _); vm_compute; exact I.

Ltac evaluated :=
  repeat match goal with
  | |- signedOk _ => split; cbn [SignedInteger.absolute SignedInteger.sign]
  | |- magnitude _ => split
  | |- canonical _ => split
  | |- limbsOk _ => unfold limbsOk; decided
  | |- _ = 0 → _ => let E := fresh in intros E; exfalso; vm_compute in E; discriminate E
  | |- _ → _ ≠ _ => intros _; decided
  | |- (_ ≤ _)%nat => decided
  | |- 0 < _ => vm_compute; reflexivity
  end.




(** * Reciprocal contract *)




(** * Capacity of multiplication *)

(** C6, as stated, fails when one operand is short: a magnitude of 4194304
    limbs times one of a single limb, 4194305 limbs together, takes the
    schoolbook branch, which has no capacity check, and returns the
    product. *)
Lemma multiplication_capacity_counterexample :
  magnitude (replicate (Z.to_nat 4194303) 0 ++ [1]) ∧ magnitude [1]
  ∧ TransformLimit < len (replicate (Z.to_nat 4194303) 0 ++ [1]) + len [1]
  ∧ ∀ transformProduct,
      ∃ r, mulAssign transformProduct (replicate (Z.to_nat 4194303) 0 ++ [1]) [1] = Ok r
        ∧ value r = value (replicate (Z.to_nat 4194303) 0 ++ [1]) * value [1].
Proof.
  pose proof (magnitude_power 4194303) as HX.
  pose proof (len_power 4194303 ltac:(lia)) as HXl.
  set (X := replicate (Z.to_nat 4194303) 0 ++ [1]) in *. clearbody X.
  assert (magnitude [1]) as HY by concrete.
  split; [exact HX|]. split; [exact HY|]. split.
  - rewrite HXl. unfold TransformLimit, len. cbn [length]. lia.
  - intros transformProduct. eexists. split.
    + apply mulAssign_schoolbook. right. unfold BruteforceThreshold, len. cbn [length]. lia.
    + apply schoolbookMultiply_spec; [apply HX|apply HY|apply HX|cbn [length]; lia|].
      right. cbn [length]. lia.
Qed.

(** C6, amended: [operator*=] throws exactly when both operands have at
    least 64 limbs and one of them has more than 4194304; the exception is
    the invalid-argument of the operand that is too long, the left one
    first. In every other case it returns a result. *)
Theorem multiplication_capacity (transformProduct : list Z → list Z → list Z)
    (x y : list Z) :
  ((∃ c, mulAssign transformProduct x y = Fail (invalid_argument c))
   ↔ (BruteforceThreshold ≤ len x ∧ BruteforceThreshold ≤ len y
      ∧ (TransformLimit < len x ∨ TransformLimit < len y)))
  ∧ (BruteforceThreshold ≤ len x → BruteforceThreshold ≤ len y →
     TransformLimit < len x →
     mulAssign transformProduct x y = Fail (invalid_argument LeftOperandExceedsLimit))
  ∧ (BruteforceThreshold ≤ len x → BruteforceThreshold ≤ len y →
     len x ≤ TransformLimit → TransformLimit < len y →
     mulAssign transformProduct x y = Fail (invalid_argument RightOperandExceedsLimit))
  ∧ (¬ (BruteforceThreshold ≤ len x ∧ BruteforceThreshold ≤ len y
        ∧ (TransformLimit < len x ∨ TransformLimit < len y)) →
     ∃ r, mulAssign transformProduct x y = Ok r).
Proof.
  split_and!.
  - split.
    + intros [c Hc].
      destruct (decide (len x < BruteforceThreshold ∨ len y < BruteforceThreshold))
        as [Hs|Hs].
      { rewrite mulAssign_schoolbook in Hc by exact Hs. discriminate. }
      destruct (decide (len x ≤ TransformLimit ∧ len y ≤ TransformLimit)) as [Hl|Hl].
      { rewrite mulAssign_transform in Hc by lia. discriminate. }
      lia.
    + intros (Hx & Hy & Hlong).
      destruct (decide (TransformLimit < len x)) as [Hl|Hl].
      * eexists. apply mulAssign_left_limit; assumption.
      * eexists. apply mulAssign_right_limit; [assumption..|lia|lia].
  - apply mulAssign_left_limit.
  - apply mulAssign_right_limit.
  - intros Hno.
    destruct (decide (len x < BruteforceThreshold ∨ len y < BruteforceThreshold))
      as [Hs|Hs].
    + eexists. apply mulAssign_schoolbook. exact Hs.
    + eexists. apply mulAssign_transform; lia.
Qed.

Lemma multiplication_capacity_witness :
  ∃ r, mulAssign referenceProduct [2; 1] [3] = Ok r.
Proof.
  apply (multiplication_capacity referenceProduct [2; 1] [3]).
  unfold BruteforceThreshold, len. cbn [length]. lia.
Defined.

(** * Canonical form and the sign of zero *)

(** C4. [operator--] has no loop that drops a zero top limb: on the
    canonical magnitude of [Base], the limbs [0, 1], it returns the two
    limbs [99999999, 0], which are not canonical. *)
Theorem decrement_leaves_zero_top_limb :
  magnitude [0; 1]
  ∧ decrement [0; 1] = Ok [99999999; 0]
  ∧ ¬ canonical [99999999; 0].
Proof.
  split; [concrete|]. split; [reflexivity|].
  intros [_ Htop]. apply Htop; [cbn; lia|reflexivity].
Qed.

(** C5. The constructor from a floating-point value takes the sign from
    [value < 0] and never clears it: from [-0.5] it builds the magnitude
    zero with the sign flag set. *)
Theorem negative_fraction_gives_negative_zero :
  SignedInteger.fromDouble (-0.5)%float = Ok (SignedInteger.Signed [0] true)
  ∧ value (SignedInteger.absolute (SignedInteger.Signed [0] true)) = 0
  ∧ SignedInteger.sign (SignedInteger.Signed [0] true) = true
  ∧ ¬ signedOk (SignedInteger.Signed [0] true).
Proof.
  split; [vm_compute; reflexivity|]. split; [reflexivity|]. split; [reflexivity|].
  intros [_ H]. specialize (H eq_refl). discriminate.
Qed.

(** * Objects: division by zero and moves *)

Lemma toBool_zero (y : list Z) : magnitude y → value y = 0 → toBool y = false.
Proof.
  intros Hm Hv. rewrite (toBool_magnitude y Hm), Hv. reflexivity.
Qed.

(** C8. With a zero divisor, [operator/=] and [operator%=] throw
    invalid-argument before anything is assigned: the store, and with it
    the dividend, is as before the call. *)
Theorem division_by_zero_rejected (transformProduct : list Z → list Z → list Z)
    (fuel : nat) (this other : positive) (st : Memory.state) (x y : list Z) :
  Memory.limbs st this = Some x → Memory.limbs st other = Some y →
  magnitude y → value y = 0 →
  (∃ st', Memory.divAssign transformProduct fuel this other st
          = (Fail (invalid_argument DivisorIsZero), st')
     ∧ st' = st ∧ Memory.limbs st' this = Some x)
  ∧ (∃ st', Memory.modAssign transformProduct fuel this other st
            = (Fail (invalid_argument ModulusIsZero), st')
       ∧ st' = st ∧ Memory.limbs st' this = Some x).
Proof.
  intros Hx Hy Hm Hv.
  unfold Memory.divAssign, Memory.modAssign, Memory.assignFrom.
  rewrite Hy. unfold divAssign, modAssign.
  rewrite (toBool_zero y Hm Hv). cbn [VALIDITY_CHECK throw mbind outcome_bind].
  split; exists st; rewrite Hx; split_and!; reflexivity.
Qed.

Lemma division_by_zero_rejected_witness :
  (∃ st', Memory.divAssign referenceProduct 46 1%positive 2%positive
            (Memory.State {[1%positive := Memory.Object 1 2 2; 2%positive := Memory.Object 2 1 1]}
                          {[1%positive := [7; 1]; 2%positive := [0]]})
          = (Fail (invalid_argument DivisorIsZero), st')
     ∧ st' = Memory.State {[1%positive := Memory.Object 1 2 2; 2%positive := Memory.Object 2 1 1]}
                          {[1%positive := [7; 1]; 2%positive := [0]]}
     ∧ Memory.limbs st' 1%positive = Some [7; 1])
  ∧ (∃ st', Memory.modAssign referenceProduct 46 1%positive 2%positive
              (Memory.State {[1%positive := Memory.Object 1 2 2; 2%positive := Memory.Object 2 1 1]}
                            {[1%positive := [7; 1]; 2%positive := [0]]})
            = (Fail (invalid_argument ModulusIsZero), st')
       ∧ st' = Memory.State {[1%positive := Memory.Object 1 2 2; 2%positive := Memory.Object 2 1 1]}
                            {[1%positive := [7; 1]; 2%positive := [0]]}
       ∧ Memory.limbs st' 1%positive = Some [7; 1]).
Proof.
  apply (division_by_zero_rejected referenceProduct 46 1%positive 2%positive _ [7; 1] [0]);
    [vm_compute; reflexivity|vm_compute; reflexivity|concrete|reflexivity].
Defined.

(** The object that [resetToZero] leaves at [other] holds the limbs of zero,
    and the objects at other addresses keep their limbs if their array
    exists. *)
Lemma limbs_resetToZero_same (other : positive) (st : Memory.state) :
  Memory.limbs (Memory.resetToZero other st) other = Some zero.
Proof.
  unfold Memory.resetToZero, Memory.allocate, Memory.limbs.
  cbn [Memory.objects Memory.arrays].
  rewrite lookup_insert_eq. cbn [mbind option_bind Memory.digits Memory.length].
  rewrite lookup_insert_eq. reflexivity.
Qed.

Lemma limbs_resetToZero_other (this other : positive) (st : Memory.state) (x : list Z) :
  this ≠ other → Memory.limbs st this = Some x →
  Memory.limbs (Memory.resetToZero other st) this = Some x.
Proof.
  intros Hne Hx. unfold Memory.resetToZero, Memory.allocate, Memory.limbs in *.
  cbn [Memory.objects Memory.arrays].
  rewrite lookup_insert_ne by congruence.
  destruct (Memory.objects st !! this) as [o|]; [|discriminate].
  cbn [mbind option_bind] in *.
  destruct (Memory.arrays st !! Memory.digits o) as [a|] eqn:Ha; [|discriminate].
  rewrite lookup_insert_ne; [rewrite Ha; exact Hx|].
  intros E. pose proof (is_fresh (dom (Memory.arrays st))) as Hfresh.
  rewrite E in Hfresh. apply Hfresh. apply elem_of_dom. eexists. exact Ha.
Qed.

(** C9, as stated, fails for a move-assignment of an object to itself: the
    guard [this != &other] skips the body, and the object keeps its limbs. *)
Lemma moved_from_is_zero_counterexample :
  Memory.moveAssign 1%positive 1%positive
    (Memory.State {[1%positive := Memory.Object 1 1 1]} {[1%positive := [5]]})
  = Some (Memory.State {[1%positive := Memory.Object 1 1 1]} {[1%positive := [5]]})
  ∧ Memory.limbs (Memory.State {[1%positive := Memory.Object 1 1 1]} {[1%positive := [5]]})
      1%positive = Some [5]
  ∧ [5] ≠ zero.
Proof.
  split; [vm_compute; reflexivity|]. split; [vm_compute; reflexivity|]. discriminate.
Qed.

(** C9, amended: after a move-construction, at an address [new] that
    needs to hold no object before, and after a move-assignment between two
    different objects that own different arrays, the source holds the
    canonical zero and the target holds the limbs the source had; a
    move-assignment of an object to itself leaves the store as it was. *)
Theorem moved_from_is_zero (new this other : positive) (st : Memory.state) (x : list Z) :
  Memory.limbs st other = Some x →
  (new ≠ other →
   ∃ st', Memory.moveConstruct new other st = Some st'
     ∧ Memory.limbs st' other = Some zero
     ∧ Memory.limbs st' new = Some x)
  ∧ (this ≠ other →
     ∀ target source : Memory.object,
       Memory.objects st !! this = Some target →
       Memory.objects st !! other = Some source →
       Memory.digits target ≠ Memory.digits source →
       ∃ st', Memory.moveAssign this other st = Some st'
         ∧ Memory.limbs st' other = Some zero
         ∧ Memory.limbs st' this = Some x)
  ∧ Memory.moveAssign other other st = Some st.
Proof.
  intros Hx.
  destruct (Memory.objects st !! other) as [source|] eqn:Hs;
    [|unfold Memory.limbs in Hx; rewrite Hs in Hx; discriminate].
  assert (∃ a, Memory.arrays st !! Memory.digits source = Some a
               ∧ take (Memory.length source) a = x) as (a & Ha & Hax).
  { unfold Memory.limbs in Hx. rewrite Hs in Hx. cbn [mbind option_bind] in Hx.
    destruct (Memory.arrays st !! Memory.digits source) as [a|];
      cbn in Hx; [|discriminate].
    exists a. split; [reflexivity|]. injection Hx as Hx. exact Hx. }
  split_and!.
  - intros Hne. unfold Memory.moveConstruct. rewrite Hs. cbn [mbind option_bind].
    eexists. split; [reflexivity|]. split; [apply limbs_resetToZero_same|].
    apply limbs_resetToZero_other; [exact Hne|].
    unfold Memory.limbs. cbn [Memory.objects Memory.arrays].
    rewrite lookup_insert_eq. cbn [mbind option_bind]. rewrite Ha. cbn. congruence.
  - intros Hne target source' Ht Hs' Hd. injection Hs' as <-.
    unfold Memory.moveAssign. rewrite Ht, Hs. cbn [mbind option_bind].
    rewrite decide_True by exact Hne. rewrite decide_True by exact Hd.
    eexists. split; [reflexivity|]. split; [apply limbs_resetToZero_same|].
    apply limbs_resetToZero_other; [exact Hne|].
    unfold Memory.limbs, Memory.deallocate. cbn [Memory.objects Memory.arrays].
    rewrite lookup_insert_eq. cbn [mbind option_bind].
    rewrite lookup_delete_ne by exact Hd. rewrite Ha. cbn. congruence.
  - unfold Memory.moveAssign. rewrite Hs. cbn [mbind option_bind].
    rewrite decide_False by (intros E; apply E; reflexivity). reflexivity.
Qed.

(** In the example objects are at the addresses 1 and 2, and none at 3,
    where the move-construction builds one. *)
Lemma moved_from_is_zero_witness :
  (3%positive ≠ 2%positive →
   ∃ st', Memory.moveConstruct 3%positive 2%positive
            (Memory.State {[1%positive := Memory.Object 1 1 1; 2%positive := Memory.Object 2 2 2]}
                          {[1%positive := [9]; 2%positive := [7; 1]]}) = Some st'
     ∧ Memory.limbs st' 2%positive = Some zero
     ∧ Memory.limbs st' 3%positive = Some [7; 1])
  ∧ (1%positive ≠ 2%positive →
     ∀ target source : Memory.object,
       Memory.objects
         (Memory.State {[1%positive := Memory.Object 1 1 1; 2%positive := Memory.Object 2 2 2]}
                       {[1%positive := [9]; 2%positive := [7; 1]]}) !! 1%positive
       = Some target →
       Memory.objects
         (Memory.State {[1%positive := Memory.Object 1 1 1; 2%positive := Memory.Object 2 2 2]}
                       {[1%positive := [9]; 2%positive := [7; 1]]}) !! 2%positive
       = Some source →
       Memory.digits target ≠ Memory.digits source →
       ∃ st', Memory.moveAssign 1%positive 2%positive
                (Memory.State {[1%positive := Memory.Object 1 1 1; 2%positive := Memory.Object 2 2 2]}
                              {[1%positive := [9]; 2%positive := [7; 1]]}) = Some st'
         ∧ Memory.limbs st' 2%positive = Some zero
         ∧ Memory.limbs st' 1%positive = Some [7; 1])
  ∧ Memory.moveAssign 2%positive 2%positive
      (Memory.State {[1%positive := Memory.Object 1 1 1; 2%positive := Memory.Object 2 2 2]}
                    {[1%positive := [9]; 2%positive := [7; 1]]})
    = Some (Memory.State {[1%positive := Memory.Object 1 1 1; 2%positive := Memory.Object 2 2 2]}
                         {[1%positive := [9]; 2%positive := [7; 1]]}).
Proof.
  apply (moved_from_is_zero 3%positive 1%positive 2%positive _ [7; 1]).
  vm_compute. reflexivity.
Defined.

(** * Decimal strings *)

(** ** Characters and their codes *)

Lemma char_code (a : ascii) : char (code a) = a.
Proof. unfold char, code. rewrite N2Z.id. apply ascii_N_embedding. Qed.

Lemma code_char (z : Z) : 0 ≤ z < 256 → code (char z) = z.
Proof.
  intros Hz. unfold char, code. rewrite N_ascii_embedding by lia.
  apply Z2N.id. lia.
Qed.

Lemma text_codes (s : string) : text (codes s) = s.
Proof.
  unfold text, codes. rewrite <- list_fmap_compose.
  rewrite (list_fmap_ext (char ∘ code) id) by (intros ? a ?; apply char_code).
  rewrite list_fmap_id. apply string_of_list_ascii_of_string.
Qed.

Lemma codes_text (l : list Z) : Forall (λ c, 0 ≤ c < 256) l → codes (text l) = l.
Proof.
  intros Hl. unfold text, codes. rewrite list_ascii_of_string_of_list_ascii.
  rewrite <- list_fmap_compose. induction Hl as [|c l Hc _ IH]; [reflexivity|].
  cbn [fmap list_fmap compose]. rewrite code_char by exact Hc. f_equal. exact IH.
Qed.

Lemma allDigits_bytes (l : list Z) : allDigits l → Forall (λ c, 0 ≤ c < 256) l.
Proof. intros H. eapply Forall_impl; [exact H|]. intros c Hc. cbn in Hc. lia. Qed.

Lemma allDigits_forallb (l : list Z) : allDigits l ↔ forallb isdigit l = true.
Proof.
  unfold allDigits, isdigit. induction l as [|c l IH]; cbn [forallb].
  - split; [reflexivity|constructor].
  - rewrite Forall_cons, Bool.andb_true_iff, bool_decide_eq_true, IH. reflexivity.
Qed.

Lemma allDigits_app (a b : list Z) : allDigits (a ++ b) ↔ allDigits a ∧ allDigits b.
Proof. apply Forall_app. Qed.

(** ** The number a digit string writes *)

Lemma fold_decimal (l : list Z) (start : Z) :
  fold_left (λ number c, number * 10 + (c - 48)) l start
  = start * 10 ^ Z.of_nat (length l) + decimal l.
Proof.
  unfold decimal. revert start. induction l as [|c l IH]; intros start.
  - cbn. lia.
  - cbn [fold_left length]. rewrite IH, (IH (0 * 10 + (c - 48))).
    rewrite Nat2Z.inj_succ, Z.pow_succ_r by lia. ring.
Qed.

Lemma decimal_nil : decimal [] = 0.
Proof. reflexivity. Qed.

Lemma decimal_cons (c : Z) (l : list Z) :
  decimal (c :: l) = (c - 48) * 10 ^ Z.of_nat (length l) + decimal l.
Proof. unfold decimal at 1. cbn [fold_left]. rewrite fold_decimal. ring. Qed.

Lemma decimal_app (a b : list Z) :
  decimal (a ++ b) = decimal a * 10 ^ Z.of_nat (length b) + decimal b.
Proof.
  unfold decimal at 1. rewrite fold_left_app, fold_decimal. reflexivity.
Qed.

Lemma decimal_bounds (l : list Z) :
  allDigits l → 0 ≤ decimal l < 10 ^ Z.of_nat (length l).
Proof.
  induction 1 as [|c l Hc _ IH].
  - cbn. lia.
  - rewrite decimal_cons. cbn [length].
    rewrite Nat2Z.inj_succ, Z.pow_succ_r by lia.
    assert (0 < 10 ^ Z.of_nat (length l)) by (apply Z.pow_pos_nonneg; lia).
    nia.
Qed.

(** A string that does not start with the digit zero writes a number with
    as many digits as it has characters. *)
Lemma decimal_lower_bound (c : Z) (l : list Z) :
  allDigits (c :: l) → c ≠ 48 → 10 ^ Z.of_nat (length l) ≤ decimal (c :: l).
Proof.
  intros Hd Hc. apply Forall_cons in Hd as [Hc' Hl].
  pose proof (decimal_bounds l Hl). rewrite decimal_cons.
  assert (0 < 10 ^ Z.of_nat (length l)) by (apply Z.pow_pos_nonneg; lia).
  nia.
Qed.

Lemma decimal_inj_length (a b : list Z) :
  allDigits a → allDigits b → length a = length b → decimal a = decimal b → a = b.
Proof.
  intros Ha. revert b. induction Ha as [|c a Hc Ha IH]; intros b Hb Hlen Hv.
  - destruct b; [reflexivity|discriminate].
  - destruct b as [|c' b]; [discriminate|].
    apply Forall_cons in Hb as [Hc' Hb]. cbn [length] in Hlen.
    injection Hlen as Hlen.
    rewrite !decimal_cons, Hlen in Hv.
    pose proof (decimal_bounds a Ha) as Ba. rewrite Hlen in Ba.
    pose proof (decimal_bounds b Hb) as Bb.
    assert (c = c') as -> by nia.
    f_equal. apply IH; [assumption|assumption|lia].
Qed.

(** Two strings without a leading zero that write the same number are
    equal. *)
Lemma decimal_inj (c c' : Z) (a b : list Z) :
  allDigits (c :: a) → allDigits (c' :: b) → c ≠ 48 → c' ≠ 48 →
  decimal (c :: a) = decimal (c' :: b) → c :: a = c' :: b.
Proof.
  intros Ha Hb Hc Hc' Hv.
  apply decimal_inj_length; [assumption|assumption| |assumption].
  pose proof (decimal_lower_bound c a Ha Hc) as La.
  pose proof (decimal_lower_bound c' b Hb Hc') as Lb.
  pose proof (decimal_bounds (c :: a) Ha) as Ba.
  pose proof (decimal_bounds (c' :: b) Hb) as Bb.
  cbn [length] in *. rewrite !Nat2Z.inj_succ, !Z.pow_succ_r in * by lia.
  destruct (lt_eq_lt_dec (length a) (length b)) as [[Hlt|Heq]|Hgt].
  - exfalso.
    assert (10 * 10 ^ Z.of_nat (length a) ≤ 10 ^ Z.of_nat (length b)).
    { rewrite <- Z.pow_succ_r by lia. apply Z.pow_le_mono_r; lia. }
    lia.
  - congruence.
  - exfalso.
    assert (10 * 10 ^ Z.of_nat (length b) ≤ 10 ^ Z.of_nat (length a)).
    { rewrite <- Z.pow_succ_r by lia. apply Z.pow_le_mono_r; lia. }
    lia.
Qed.

Lemma Base_pow_ten (n : nat) : Base ^ Z.of_nat n = 10 ^ Z.of_nat (8 * n).
Proof.
  rewrite Nat2Z.inj_mul, Z.pow_mul_r by lia. reflexivity.
Qed.

(** ** Leading zeros *)

Lemma dropZeros_spec (l : list Z) :
  allDigits l →
  allDigits (dropZeros l) ∧ decimal (dropZeros l) = decimal l
  ∧ (dropZeros l = [] ∨ ∃ c rest, dropZeros l = c :: rest ∧ c ≠ 48).
Proof.
  induction 1 as [|c l Hc Hl IH].
  - split; [constructor|]. split; [reflexivity|]. left. reflexivity.
  - cbn [dropZeros]. destruct (decide (c = 48)) as [->|Hne].
    + destruct IH as (Hd & Hv & Hhd). split; [exact Hd|]. split; [|exact Hhd].
      rewrite Hv, decimal_cons. lia.
    + split; [constructor; assumption|]. split; [reflexivity|].
      right. exists c, l. split; [reflexivity|exact Hne].
Qed.

(** * Reading a decimal string *)

Lemma digit_cases (c : Z) :
  48 ≤ c ≤ 57 →
  c = 48 ∨ c = 49 ∨ c = 50 ∨ c = 51 ∨ c = 52 ∨ c = 53 ∨ c = 54 ∨ c = 55 ∨ c = 56 ∨ c = 57.
Proof. lia. Qed.

(** Splits a digit character into its ten cases. *)
Ltac digit_split c H :=
  let E := fresh "E" in
  pose proof (digit_cases c H) as E; clear H;
  repeat (destruct E as [E|E]); subst c.

Lemma land15_digit (c : Z) : 48 ≤ c ≤ 57 → Z.land c 15 = c - 48.
Proof. intros H. digit_split c H; reflexivity. Qed.

Lemma InputHelper_table_digits (c0 c1 : Z) :
  48 ≤ c0 ≤ 57 → 48 ≤ c1 ≤ 57 →
  InputHelper_table (Z.lor c0 (c1 ≪ 8)) = (c0 - 48) * 10 + (c1 - 48).
Proof. intros H0 H1. digit_split c0 H0; digit_split c1 H1; reflexivity. Qed.

Lemma InputHelper_digits (characters : list Z) (offset : nat) (c0 c1 : Z) :
  characters !! offset = Some c0 → characters !! S offset = Some c1 →
  48 ≤ c0 ≤ 57 → 48 ≤ c1 ≤ 57 →
  InputHelper characters offset = (c0 - 48) * 10 + (c1 - 48).
Proof.
  intros L0 L1 H0 H1. unfold InputHelper.
  rewrite (list_lookup_total_correct _ _ _ L0), (list_lookup_total_correct _ _ _ L1).
  apply InputHelper_table_digits; assumption.
Qed.

(** The limb written by eight digit characters. *)
Lemma chunk_limb (characters : list Z) (position : nat)
    (c0 c1 c2 c3 c4 c5 c6 c7 : Z) (tail : list Z) :
  allDigits characters →
  drop position characters = c0 :: c1 :: c2 :: c3 :: c4 :: c5 :: c6 :: c7 :: tail →
  InputHelper characters position * 1000000
  + InputHelper characters (position + 2) * 10000
  + InputHelper characters (position + 4) * 100
  + InputHelper characters (position + 6)
  = decimal [c0; c1; c2; c3; c4; c5; c6; c7].
Proof.
  intros Hd Hdrop.
  assert (allDigits (drop position characters)) as Hdd by (apply Forall_drop, Hd).
  rewrite Hdrop in Hdd.
  repeat (apply Forall_cons in Hdd as [? Hdd]).
  assert (∀ k x, (c0 :: c1 :: c2 :: c3 :: c4 :: c5 :: c6 :: c7 :: tail) !! k = Some x →
                 characters !! (position + k)%nat = Some x) as Hat.
  { intros k x Hk. rewrite <- Hdrop, lookup_drop in Hk. exact Hk. }
  rewrite (InputHelper_digits characters position c0 c1);
    [|replace position with (position + 0)%nat by lia; apply Hat; reflexivity
     |replace (S position) with (position + 1)%nat by lia; apply Hat; reflexivity
     |assumption..].
  rewrite (InputHelper_digits characters (position + 2) c2 c3);
    [|apply Hat; reflexivity
     |replace (S (position + 2)) with (position + 3)%nat by lia; apply Hat; reflexivity
     |assumption..].
  rewrite (InputHelper_digits characters (position + 4) c4 c5);
    [|apply Hat; reflexivity
     |replace (S (position + 4)) with (position + 5)%nat by lia; apply Hat; reflexivity
     |assumption..].
  rewrite (InputHelper_digits characters (position + 6) c6 c7);
    [|apply Hat; reflexivity
     |replace (S (position + 6)) with (position + 7)%nat by lia; apply Hat; reflexivity
     |assumption..].
  unfold decimal. cbn [fold_left]. ring.
Qed.

Lemma eight_characters (l : list Z) :
  (8 ≤ length l)%nat →
  ∃ c0 c1 c2 c3 c4 c5 c6 c7 tail,
    l = c0 :: c1 :: c2 :: c3 :: c4 :: c5 :: c6 :: c7 :: tail.
Proof.
  intros H.
  do 8 (destruct l as [|? l]; [cbn in H; lia|]).
  repeat eexists.
Qed.

Lemma decimal_below_Base (l : list Z) :
  allDigits l → (length l ≤ 8)%nat → 0 ≤ decimal l < Base.
Proof.
  intros Hd Hl. pose proof (decimal_bounds l Hd) as [H0 H1]. split; [exact H0|].
  eapply Z.lt_le_trans; [exact H1|].
  change Base with (10 ^ 8). apply Z.pow_le_mono_r; lia.
Qed.

(** The loop of [construct]: the limbs below [currentDigit] receive the
    characters from [position] on, eight per limb, and the limbs from
    [currentDigit] on are left as they were. *)
Lemma constructLimbs_spec (characters : list Z) :
  allDigits characters →
  ∀ (currentDigit position : nat) (digits : list Z),
    (position + 8 * currentDigit = length characters)%nat →
    (currentDigit ≤ length digits)%nat →
    length (constructLimbs characters currentDigit position digits) = length digits
    ∧ drop currentDigit (constructLimbs characters currentDigit position digits)
      = drop currentDigit digits
    ∧ limbsOk (take currentDigit (constructLimbs characters currentDigit position digits))
    ∧ value (take currentDigit (constructLimbs characters currentDigit position digits))
      = decimal (drop position characters).
Proof.
  intros Hd. induction currentDigit as [|below IH]; intros position digits Hpos Hlen.
  - cbn [constructLimbs]. rewrite take_0, !drop_0.
    rewrite drop_ge by lia.
    split_and!; [reflexivity|reflexivity|apply limbsOk_nil|reflexivity].
  - cbn [constructLimbs]. cbv zeta.
    destruct (eight_characters (drop position characters))
      as (c0 & c1 & c2 & c3 & c4 & c5 & c6 & c7 & tail & Hdrop).
    { rewrite length_drop. lia. }
    rewrite (chunk_limb characters position c0 c1 c2 c3 c4 c5 c6 c7 tail Hd Hdrop).
    assert (allDigits [c0; c1; c2; c3; c4; c5; c6; c7]) as Hchunk.
    { assert (allDigits (drop position characters)) as Hdd by (apply Forall_drop, Hd).
      rewrite Hdrop in Hdd.
      change (c0 :: c1 :: c2 :: c3 :: c4 :: c5 :: c6 :: c7 :: tail)
        with ([c0; c1; c2; c3; c4; c5; c6; c7] ++ tail) in Hdd.
      apply allDigits_app in Hdd. apply Hdd. }
    pose proof (decimal_below_Base _ Hchunk ltac:(cbn; lia)) as Hrange.
    set (limb := decimal [c0; c1; c2; c3; c4; c5; c6; c7]) in *.
    rewrite (wrap32_small limb) by (rewrite Base_eq in Hrange; lia).
    assert (tail = drop (position + 8) characters) as Htail.
    { rewrite <- drop_drop, Hdrop. reflexivity. }
    destruct (IH (position + 8)%nat (<[below := limb]> digits))
      as (Hl & Hdr & Hok & Hv).
    { lia. }
    { rewrite length_insert. lia. }
    set (D := constructLimbs characters below (position + 8) (<[below := limb]> digits)) in *.
    rewrite length_insert in Hl.
    assert (D !! below = Some limb) as Hat.
    { rewrite <- (Nat.add_0_r below), <- lookup_drop, Hdr, lookup_drop, Nat.add_0_r.
      apply list_lookup_insert_eq. lia. }
    split_and!.
    + exact Hl.
    + replace (S below) with (below + 1)%nat by lia.
      rewrite <- (drop_drop D 1 below), Hdr, drop_drop.
      apply drop_insert_lt. lia.
    + rewrite (take_S_r _ _ _ Hat). apply limbsOk_app. split; [exact Hok|].
      apply limbsOk_cons. split; [exact Hrange|apply limbsOk_nil].
    + rewrite (take_S_r _ _ _ Hat), value_app, Hv, length_take, Nat.min_l by lia.
      cbn [value]. rewrite Hdrop.
      change (c0 :: c1 :: c2 :: c3 :: c4 :: c5 :: c6 :: c7 :: tail)
        with ([c0; c1; c2; c3; c4; c5; c6; c7] ++ tail).
      rewrite decimal_app. fold limb. rewrite <- Htail.
      assert (length tail = (8 * below)%nat) as ->.
      { rewrite Htail, length_drop. lia. }
      rewrite Base_pow_ten. ring.
Qed.
(** The [switch] of [construct]: the characters that do not fill a limb. *)
Lemma leadingLimb_spec (characters : list Z) :
  allDigits characters →
  leadingLimb characters (length characters)
  = if decide (length characters mod 8 = 0)%nat then None
    else Some (decimal (take (length characters mod 8) characters)).
Proof.
  intros Hd. unfold leadingLimb.
  assert (Z.land (Z.of_nat (length characters)) 7
          = Z.of_nat (length characters mod 8)) as ->.
  { change 7 with (Z.ones 3). rewrite Z.land_ones by lia.
    rewrite Nat2Z.inj_mod. reflexivity. }
  pose proof (Nat.mod_upper_bound (length characters) 8 ltac:(lia)) as Hr.
  pose proof (Nat.Div0.mod_le (length characters) 8) as Hle.
  set (r := (length characters mod 8)%nat) in *. clearbody r.
  destruct r as [|[|[|[|[|[|[|[|r]]]]]]]]; [reflexivity| | | | | | | |lia];
    rewrite decide_False by lia.
  all: repeat (match goal with
               | H : (S _ ≤ length ?l)%nat |- _ =>
                   destruct l as [|? l]; [cbn in H; lia|]; cbn [length] in H;
                   apply le_S_n in H
               end).
  all: unfold allDigits in Hd.
  all: repeat (match goal with
               | H : Forall _ (_ :: _) |- _ => apply Forall_cons in H as [? H]
               end).
  all: cbv beta iota zeta delta [Z.of_nat Pos.of_succ_nat Pos.succ].
  all: cbn [take lookup_total list_lookup_total]; rewrite ?take_0.
  all: rewrite ?land15_digit by assumption.
  all: repeat (erewrite InputHelper_digits; [|reflexivity|reflexivity|assumption|assumption]).
  all: unfold decimal; cbn [fold_left]; f_equal; ring.
Qed.

Lemma leading_position (n : nat) :
  Z.to_nat (Z.land (Z.of_nat n) 7) = (n mod 8)%nat.
Proof.
  change 7 with (Z.ones 3). rewrite Z.land_ones by lia.
  change (2 ^ 3) with (Z.of_nat 8). rewrite <- Nat2Z.inj_mod. apply Nat2Z.id.
Qed.

Lemma limb_count (n : nat) :
  Z.of_nat n + 7 < 2 ^ 32 →
  Z.to_nat (wrap32 (Z.of_nat n + 7) ≫ 3) = ((n + 7) / 8)%nat.
Proof.
  intros Hn. rewrite wrap32_small by lia. rewrite Z.shiftr_div_pow2 by lia.
  change (2 ^ 3) with (Z.of_nat 8). replace (Z.of_nat n + 7) with (Z.of_nat (n + 7)) by lia.
  rewrite <- Nat2Z.inj_div. apply Nat2Z.id.
Qed.

(** [construct] on a string of digits: the magnitude of the number the
    string writes. *)
Lemma construct_spec (characters : list Z) :
  allDigits characters → (1 ≤ length characters)%nat →
  Z.of_nat (length characters) + 7 < 2 ^ 32 →
  ∃ digits, construct characters (length characters) = Ok digits
    ∧ magnitude digits ∧ value digits = decimal characters.
Proof.
  intros Hd Hne Hsize. unfold construct.
  rewrite (limb_count _ Hsize), (leading_position (length characters)),
    (leadingLimb_spec characters Hd).
  set (n := length characters) in *.
  pose proof (Nat.div_mod_eq n 8) as Hn.
  pose proof (Nat.mod_upper_bound n 8 ltac:(lia)) as Hr.
  set (q := (n / 8)%nat) in *. set (r := (n mod 8)%nat) in *.
  destruct (decide (r = 0%nat)) as [Hr0|Hr0].
  - assert (((n + 7) / 8)%nat = q) as ->.
    { symmetry. apply (Nat.div_unique (n + 7) 8 q 7); lia. }
    rewrite Hr0. cbn [mbind outcome_bind]. eexists. split; [reflexivity|].
    destruct (constructLimbs_spec characters Hd q 0 (replicate q 0))
      as (Hl & _ & Hok & Hv).
    { fold n. lia. }
    { rewrite length_replicate. lia. }
    rewrite length_replicate in Hl.
    rewrite take_ge in Hok, Hv by lia. rewrite drop_0 in Hv.
    split.
    + apply magnitude_trim; [exact Hok|lia].
    + rewrite value_trim. exact Hv.
  - assert (((n + 7) / 8)%nat = S q) as ->.
    { symmetry. apply (Nat.div_unique (n + 7) 8 (S q) (r - 1)); lia. }
    rewrite decide_False by lia. cbn [mbind outcome_bind].
    eexists. split; [reflexivity|].
    replace (S q - 1)%nat with q by lia.
    assert (allDigits (take r characters)) as Hlead by (apply Forall_take, Hd).
    pose proof (decimal_below_Base _ Hlead ltac:(rewrite length_take; lia)) as Hrange.
    set (lead := decimal (take r characters)) in *.
    rewrite (wrap32_small lead) by (rewrite Base_eq in Hrange; lia).
    destruct (constructLimbs_spec characters Hd q r (<[q := lead]> (replicate (S q) 0)))
      as (Hl & Hdr & Hok & Hv).
    { fold n. lia. }
    { rewrite length_insert, length_replicate. lia. }
    set (D := constructLimbs characters q r (<[q := lead]> (replicate (S q) 0))) in *.
    rewrite length_insert, length_replicate in Hl.
    assert (drop q D = [lead]) as Htop.
    { rewrite Hdr, drop_insert_ge, drop_replicate, Nat.sub_diag by lia.
      replace (S q - q)%nat with 1%nat by lia. reflexivity. }
    assert (D = take q D ++ [lead]) as HD by (rewrite <- Htop, take_drop; reflexivity).
    assert (limbsOk D) as HDok.
    { rewrite HD. apply limbsOk_app. split; [exact Hok|].
      apply limbsOk_cons. split; [exact Hrange|apply limbsOk_nil]. }
    split.
    + apply magnitude_trim; [exact HDok|lia].
    + rewrite value_trim, HD, value_app, Hv, length_take, Nat.min_l by lia.
      cbn [value].
      rewrite <- (take_drop r characters) at 2. rewrite decimal_app. fold lead.
      assert (length (drop r characters) = (8 * q)%nat) as ->
        by (rewrite length_drop; fold n; lia).
      rewrite Base_pow_ten. ring.
Qed.

(** [UnsignedInteger(const std::string&)] on a non-empty string of digits. *)
Lemma parse_spec (s : string) :
  (1 ≤ length (codes s))%nat → allDigits (codes s) →
  Z.of_nat (length (codes s)) + 7 < 2 ^ 32 →
  ∃ digits, parse s = Ok digits
    ∧ magnitude digits ∧ value digits = decimal (codes s).
Proof.
  intros Hne Hd Hsize.
  destruct (construct_spec (codes s) Hd Hne Hsize) as (digits & Hrun & Hm & Hv).
  exists digits. split; [|split; assumption].
  unfold parse. cbv zeta.
  destruct (Nat.eqb_spec (length (codes s)) 0) as [?|_]; [lia|].
  rewrite (proj1 (allDigits_forallb _) Hd).
  cbn [negb VALIDITY_CHECK mbind outcome_bind].
  rewrite wrap32_small, Nat2Z.id by lia. exact Hrun.
Qed.

(** The seven lengths from [2 ^ 32 - 7] on: there is a leading limb and no
    limb in the array. *)
Lemma leadingLimb_some (value : list Z) (stringLength : nat) :
  Z.land (Z.of_nat stringLength) 7 ≠ 0 →
  ∃ limb, leadingLimb value stringLength = Some limb.
Proof.
  intros Hne. unfold leadingLimb.
  assert (0 ≤ Z.land (Z.of_nat stringLength) 7 < 8) as Hrange.
  { change 7 with (Z.ones 3). rewrite Z.land_ones by lia.
    apply Z.mod_pos_bound. lia. }
  destruct (Z.land (Z.of_nat stringLength) 7) as [|[[[]|[]|]|[[]|[]|]|]|];
    try lia; eexists; reflexivity.
Qed.

Lemma construct_wraps (value : list Z) (stringLength : nat) :
  2 ^ 32 - 7 ≤ Z.of_nat stringLength < 2 ^ 32 →
  construct value stringLength = Fail OutOfBounds.
Proof.
  intros Hsize. unfold construct.
  assert (Z.to_nat (wrap32 (Z.of_nat stringLength + 7) ≫ 3) = 0%nat) as ->.
  { unfold wrap32.
    replace (Z.of_nat stringLength + 7)
      with (Z.of_nat stringLength + 7 - 2 ^ 32 + 1 * 2 ^ 32) by lia.
    rewrite Z.mod_add by lia. rewrite Z.mod_small by lia.
    rewrite Z.shiftr_div_pow2 by lia. change (2 ^ 3) with 8.
    rewrite Z.div_small by lia. reflexivity. }
  destruct (leadingLimb_some value stringLength) as [limb ->]; [|reflexivity].
  change 7 with (Z.ones 3). rewrite Z.land_ones by lia. change (2 ^ 3) with 8.
  pose proof (Z.div_mod (Z.of_nat stringLength) 8 ltac:(lia)) as Hdm.
  pose proof (Z.mod_pos_bound (Z.of_nat stringLength) 8 ltac:(lia)) as Hm.
  intros Hz. rewrite Hz in Hdm.
  assert (Z.of_nat stringLength / 8 = 536870911 ∨ Z.of_nat stringLength / 8 ≠ 536870911)
    as [E|E] by lia; lia.
Qed.

(** * Writing a decimal string *)

(** Linear arithmetic with quotients and remainders by constants. *)
Ltac divlia := Z.div_mod_to_equations; lia.

(** The table of [detail::OutputHelper], entry by entry. *)
Lemma OutputHelper_table_entries :
  Forall (λ v, OutputHelper v
               = [48 + v / 1000; 48 + v / 100 mod 10; 48 + v / 10 mod 10; 48 + v mod 10])
    (seqZ 0 10000).
Proof. apply (bool_decide_unpack _). vm_compute. exact I. Qed.

Lemma OutputHelper_digits (v : Z) :
  0 ≤ v < 10000 →
  OutputHelper v = [48 + v / 1000; 48 + v / 100 mod 10; 48 + v / 10 mod 10; 48 + v mod 10].
Proof.
  intros Hv. pose proof OutputHelper_table_entries as H.
  rewrite Forall_seqZ in H. apply H. lia.
Qed.

Lemma OutputHelper_spec (v : Z) :
  0 ≤ v < 10000 →
  allDigits (OutputHelper v) ∧ length (OutputHelper v) = 4%nat
  ∧ decimal (OutputHelper v) = v.
Proof.
  intros Hv. rewrite (OutputHelper_digits v Hv). split_and!.
  - unfold allDigits; repeat (apply Forall_cons_2; [cbv beta; divlia|]); apply Forall_nil_2.
  - reflexivity.
  - unfold decimal. cbn [fold_left]. divlia.
Qed.

(** The eight characters of a limb. *)
Lemma limb_characters (limb : Z) :
  0 ≤ limb < Base →
  allDigits (OutputHelper (limb / 10000) ++ OutputHelper (limb mod 10000))
  ∧ length (OutputHelper (limb / 10000) ++ OutputHelper (limb mod 10000)) = 8%nat
  ∧ decimal (OutputHelper (limb / 10000) ++ OutputHelper (limb mod 10000)) = limb.
Proof.
  rewrite Base_eq. intros Hl.
  destruct (OutputHelper_spec (limb / 10000) ltac:(divlia)) as (Hd1 & Hl1 & Hv1).
  destruct (OutputHelper_spec (limb mod 10000) ltac:(divlia)) as (Hd2 & Hl2 & Hv2).
  split_and!.
  - apply allDigits_app. split; assumption.
  - rewrite length_app, Hl1, Hl2. reflexivity.
  - rewrite decimal_app, Hv1, Hv2, Hl2. change (10 ^ Z.of_nat 4) with 10000. divlia.
Qed.

(** [std::to_string] of a positive number: its digits, the first of them
    not a zero. *)
Lemma to_string_digits_spec (fuel : nat) :
  ∀ (number : Z) (suffix : list Z),
    0 < number < 10 ^ Z.of_nat fuel →
    ∃ c rest, to_string_digits fuel number suffix = (c :: rest) ++ suffix
      ∧ allDigits (c :: rest) ∧ c ≠ 48 ∧ decimal (c :: rest) = number
      ∧ (length (c :: rest) ≤ fuel)%nat.
Proof.
  induction fuel as [|fuel IH]; intros number suffix Hn.
  - cbn in Hn. lia.
  - cbn [to_string_digits]. cbv zeta.
    rewrite Nat2Z.inj_succ, Z.pow_succ_r in Hn by lia.
    destruct (decide (number / 10 = 0)) as [Hz|Hz].
    + exists (48 + number mod 10), []. split_and!.
      * reflexivity.
      * unfold allDigits; repeat (apply Forall_cons_2; [cbv beta; divlia|]); apply Forall_nil_2.
      * divlia.
      * unfold decimal. cbn [fold_left]. divlia.
      * cbn. lia.
    + destruct (IH (number / 10) ((48 + number mod 10) :: suffix))
        as (c & rest & Hrun & Hd & Hc & Hv & Hl).
      { assert (0 < 10 ^ Z.of_nat fuel) by (apply Z.pow_pos_nonneg; lia). divlia. }
      exists c, (rest ++ [48 + number mod 10]). split_and!.
      * rewrite Hrun. cbn [app]. rewrite <- app_assoc. reflexivity.
      * change (c :: rest ++ [48 + number mod 10])
          with ((c :: rest) ++ [48 + number mod 10]).
        apply allDigits_app. split; [exact Hd|]. unfold allDigits; repeat (apply Forall_cons_2; [cbv beta; divlia|]); apply Forall_nil_2.
      * exact Hc.
      * change (c :: rest ++ [48 + number mod 10])
          with ((c :: rest) ++ [48 + number mod 10]).
        rewrite decimal_app, Hv. unfold decimal. cbn [fold_left length].
        change (10 ^ Z.of_nat 1) with 10. divlia.
      * cbn [length] in *. rewrite length_app. cbn [length]. lia.
Qed.

Lemma to_string_spec (number : Z) :
  0 < number < Base →
  ∃ c rest, to_string number = c :: rest
    ∧ allDigits (c :: rest) ∧ c ≠ 48 ∧ decimal (c :: rest) = number
    ∧ (length (c :: rest) ≤ 8)%nat.
Proof.
  intros Hn.
  destruct (to_string_digits_spec 10 number []) as (c & rest & Hrun & Hd & Hc & Hv & _).
  { rewrite Base_eq in Hn. change (10 ^ Z.of_nat 10) with 10000000000. lia. }
  exists c, rest. unfold to_string. rewrite Hrun, app_nil_r.
  split_and!; try assumption; try reflexivity.
  destruct (decide (length (c :: rest) ≤ 8)%nat) as [|Hlong]; [assumption|exfalso].
  pose proof (decimal_lower_bound c rest Hd Hc) as Hlow.
  assert (10 ^ 8 ≤ 10 ^ Z.of_nat (length rest))
    by (apply Z.pow_le_mono_r; cbn [length] in Hlong; lia).
  rewrite Base_eq in Hn. change (10 ^ 8) with 100000000 in *. lia.
Qed.

Lemma to_string_zero : to_string 0 = [48].
Proof. reflexivity. Qed.

(** The loop of [operator std::string]: eight characters for each limb
    below [i], the most significant limb first. *)
Lemma appendLimbs_spec (digits : list Z) :
  limbsOk digits →
  ∀ (i : nat) (result : list Z),
    (i ≤ length digits)%nat →
    ∃ tail, appendLimbs digits i result = result ++ tail
      ∧ allDigits tail ∧ length tail = (8 * i)%nat
      ∧ decimal tail = value (take i digits).
Proof.
  intros Hok. induction i as [|below IH]; intros result Hi.
  - exists []. cbn [appendLimbs]. rewrite app_nil_r, take_0.
    split_and!; [reflexivity|constructor|reflexivity|reflexivity].
  - cbn [appendLimbs]. cbv zeta.
    pose proof (limbsOk_lookup digits below Hok ltac:(lia)) as Hlimb.
    destruct (limb_characters _ Hlimb) as (Hd & Hl & Hv).
    set (eight := OutputHelper (digits !!! below / 10000)
                  ++ OutputHelper (digits !!! below mod 10000)) in *.
    destruct (IH (result ++ eight) ltac:(lia)) as (tail & Hrun & Hdt & Hlt & Hvt).
    exists (eight ++ tail). split_and!.
    + rewrite Hrun, <- app_assoc. reflexivity.
    + apply allDigits_app. split; assumption.
    + rewrite length_app, Hl, Hlt. lia.
    + rewrite decimal_app, Hv, Hvt, Hlt, <- Base_pow_ten.
      rewrite (value_take_S digits below) by lia. ring.
Qed.

(** [operator std::string] on a magnitude: digits that write its value,
    without a leading zero unless the string is ["0"]. *)
Lemma toString_spec (digits : list Z) :
  magnitude digits →
  ∃ characters, toString digits = text characters
    ∧ allDigits characters
    ∧ decimal characters = value digits
    ∧ (characters = [48] ∨ ∃ c rest, characters = c :: rest ∧ c ≠ 48)
    ∧ (1 ≤ length characters ≤ 8 * length digits)%nat.
Proof.
  intros [Hok [Hlen Htop]]. unfold toString.
  rewrite decide_False by lia. cbv zeta.
  set (top := (length digits - 1)%nat) in *.
  pose proof (limbsOk_lookup digits top Hok ltac:(lia)) as Hlimb.
  assert (value digits = value (take top digits) + Base ^ Z.of_nat top * digits !!! top)
    as Hvalue.
  { rewrite <- (value_take_S digits top) by lia.
    rewrite take_ge by lia. reflexivity. }
  destruct (decide (digits !!! top = 0)) as [Hz|Hnz].
  - assert (length digits = 1%nat) as Hone.
    { destruct (decide (1 < length digits)%nat) as [Hl|Hl]; [|lia].
      specialize (Htop Hl). contradiction. }
    assert (top = 0%nat) as Htop0 by lia.
    rewrite Hz, to_string_zero, Htop0. cbn [appendLimbs].
    exists [48]. split_and!.
    + reflexivity.
    + unfold allDigits; repeat (apply Forall_cons_2; [cbv beta; divlia|]); apply Forall_nil_2.
    + rewrite Hvalue, Hz, Htop0, take_0. reflexivity.
    + left. reflexivity.
    + cbn. lia.
    + cbn. lia.
  - assert (0 < digits !!! top < Base) as Hpos.
    { destruct Hlimb as [H0 H1]. split; [|exact H1].
      apply Z.le_neq. split; [exact H0|congruence]. }
    destruct (to_string_spec (digits !!! top) Hpos)
      as (c & rest & Hrun & Hd & Hc & Hv & Hl).
    destruct (appendLimbs_spec digits Hok top (c :: rest) ltac:(lia))
      as (tail & Happ & Hdt & Hlt & Hvt).
    rewrite Hrun, Happ.
    exists ((c :: rest) ++ tail). split_and!.
    + reflexivity.
    + apply allDigits_app. split; assumption.
    + rewrite decimal_app, Hv, Hvt, Hlt, <- Base_pow_ten, Hvalue. ring.
    + right. exists c, (rest ++ tail). split; [reflexivity|exact Hc].
    + cbn. lia.
    + rewrite length_app, Hlt. lia.
Qed.

(** * Round trip through decimal strings *)

Lemma length_codes (s : string) : length (codes s) = String.length s.
Proof.
  unfold codes. rewrite length_fmap.
  induction s as [|a s IH]; [reflexivity|]. cbn. rewrite IH. reflexivity.
Qed.

Lemma parse_toString (v : list Z) :
  magnitude v → 8 * len v + 7 < 2 ^ 32 → parse (toString v) = Ok v.
Proof.
  intros Hv Hsize.
  destruct (toString_spec v Hv) as (characters & Hs & Hd & Hval & _ & Hl).
  rewrite Hs.
  pose proof (codes_text characters (allDigits_bytes _ Hd)) as Hcodes.
  destruct (parse_spec (text characters)) as (digits & Hrun & Hm & Hvalue).
  { rewrite Hcodes. lia. }
  { rewrite Hcodes. exact Hd. }
  { rewrite Hcodes. unfold len in Hsize. lia. }
  rewrite Hrun. f_equal. rewrite Hcodes in *.
  apply magnitude_inj; [exact Hm|exact Hv|]. rewrite Hvalue. exact Hval.
Qed.

Lemma toString_parse (s : string) :
  s ≠ ""%string → forallb isdigit (codes s) = true →
  Z.of_nat (String.length s) + 7 < 2 ^ 32 →
  ∃ d, parse s = Ok d ∧ magnitude d ∧ toString d = withoutLeadingZeros s.
Proof.
  intros Hne Hdigits Hsize.
  apply allDigits_forallb in Hdigits.
  assert (1 ≤ length (codes s))%nat as Hlen.
  { rewrite length_codes. destruct s; [contradiction|cbn; lia]. }
  destruct (parse_spec s Hlen Hdigits) as (digits & Hrun & Hm & Hvalue).
  { rewrite length_codes. exact Hsize. }
  exists digits. split; [exact Hrun|]. split; [exact Hm|].
  destruct (toString_spec _ Hm) as (written & Hs & Hd & Hval & Hnormal & _).
  rewrite Hs. unfold withoutLeadingZeros.
  destruct (dropZeros_spec (codes s) Hdigits) as (Hzd & Hzv & Hz).
  rewrite Hvalue, <- Hzv in Hval.
  destruct Hz as [Hz|(c & rest & Hz & Hc)]; rewrite Hz in *.
  - (* the string holds zeros only *)
    destruct Hnormal as [->|(c' & rest' & -> & Hc')]; [reflexivity|exfalso].
    pose proof (decimal_lower_bound c' rest' Hd Hc') as Hlow.
    assert (0 < 10 ^ Z.of_nat (length rest')) by (apply Z.pow_pos_nonneg; lia).
    rewrite Hval in Hlow. cbn in Hlow. lia.
  - destruct Hnormal as [->|(c' & rest' & -> & Hc')].
    + exfalso. pose proof (decimal_lower_bound c rest Hzd Hc) as Hlow.
      assert (0 < 10 ^ Z.of_nat (length rest)) by (apply Z.pow_pos_nonneg; lia).
      rewrite <- Hval in Hlow. cbn in Hlow. lia.
    + rewrite (decimal_inj c' c rest' rest Hd Hzd Hc' Hc Hval). reflexivity.
Qed.

(** A digit 7 followed by [2 ^ 32] zeros: the 32-bit size of the string is
    1. *)
Lemma oversized_string (zeros : list Z) (k : nat) :
  zeros = 48 :: replicate k 48 → allDigits (55 :: zeros) →
  Z.of_nat (length zeros) = 2 ^ 32 →
  text (55 :: zeros) ≠ ""%string
  ∧ forallb isdigit (codes (text (55 :: zeros))) = true
  ∧ parse (text (55 :: zeros)) = Ok [7]
  ∧ toString [7] ≠ withoutLeadingZeros (text (55 :: zeros)).
Proof.
  intros Hk Hd Hlen.
  pose proof (codes_text _ (allDigits_bytes _ Hd)) as Hcodes.
  assert (text (55 :: zeros) = String "7" (String "0" (text (replicate k 48)))) as Htext
    by (rewrite Hk; reflexivity).
  split_and!.
  - rewrite Htext. discriminate.
  - rewrite Hcodes. apply allDigits_forallb. exact Hd.
  - unfold parse. cbv zeta. rewrite Hcodes.
    rewrite (proj1 (allDigits_forallb _) Hd).
    cbn [length Nat.eqb negb VALIDITY_CHECK mbind outcome_bind].
    rewrite Nat2Z.inj_succ, Hlen.
    change (wrap32 (Z.succ (2 ^ 32))) with 1.
    reflexivity.
  - unfold withoutLeadingZeros. rewrite Hcodes. cbn [dropZeros].
    rewrite decide_False by lia. rewrite Htext. discriminate.
Qed.

(** C7, as stated, fails on a string whose size does not fit in 32 bits:
    the string constructor converts the size to [std::uint32_t]. For the
    digit 7 followed by [2 ^ 32] zeros the converted size is 1, so the
    constructor reads the first character only and builds the value 7,
    whose text is ["7"] and not the string. *)
Lemma decimal_round_trip_counterexample :
  text (55 :: replicate (Z.to_nat (2 ^ 32)) 48) ≠ ""%string
  ∧ forallb isdigit (codes (text (55 :: replicate (Z.to_nat (2 ^ 32)) 48))) = true
  ∧ parse (text (55 :: replicate (Z.to_nat (2 ^ 32)) 48)) = Ok [7]
  ∧ toString [7] ≠ withoutLeadingZeros (text (55 :: replicate (Z.to_nat (2 ^ 32)) 48)).
Proof.
  assert (∃ k, replicate (Z.to_nat (2 ^ 32)) 48 = 48 :: replicate k 48) as [k Hk].
  { destruct (Z.to_nat (2 ^ 32)) as [|k] eqn:E; [lia|]. exists k. reflexivity. }
  apply (oversized_string _ k Hk).
  - apply Forall_cons_2; [lia|]. apply Forall_replicate. lia.
  - rewrite length_replicate. apply Z2Nat.id. lia.
Qed.

(** C7, amended with the sizes that fit the 32-bit length the string
    constructor reads: for every magnitude [v] with [8 * len v + 7 < 2 ^ 32],
    parsing the text of [v] gives [v] again; and for every non-empty string
    [s] of digits with fewer than [2 ^ 32 - 7] characters, the text of the
    parsed value is [s] without its insignificant leading zeros, ["0"] when
    [s] holds zeros only. *)
Theorem decimal_round_trip (v : list Z) (s : string) :
  magnitude v → 8 * len v + 7 < 2 ^ 32 →
  s ≠ ""%string → forallb isdigit (codes s) = true →
  Z.of_nat (String.length s) + 7 < 2 ^ 32 →
  parse (toString v) = Ok v
  ∧ ∃ d, parse s = Ok d ∧ toString d = withoutLeadingZeros s.
Proof.
  intros Hv Hvsize Hne Hdigits Hsize. split.
  - apply parse_toString; assumption.
  - destruct (toString_parse s Hne Hdigits Hsize) as (d & Hrun & _ & Hs).
    exists d. split; assumption.
Qed.

Lemma decimal_round_trip_witness :
  parse (toString [7; 1]) = Ok [7; 1]
  ∧ ∃ d, parse "0042" = Ok d ∧ toString d = withoutLeadingZeros "0042".
Proof.
  apply (decimal_round_trip [7; 1] "0042");
    [concrete|vm_compute; reflexivity|discriminate|vm_compute; reflexivity
    |vm_compute; reflexivity].
Defined.

(** * Further properties of the unsigned operators *)

(** The first loop of [x += x] keeps the length of the array, unless it
    leaves the array. *)
Lemma doubleLimbs_length (count : nat) :
  ∀ (i : nat) (digits : list Z),
    (∃ doubled, doubleLimbs count i digits = Ok doubled
       ∧ length doubled = length digits)
    ∨ doubleLimbs count i digits = Fail OutOfBounds.
Proof.
  induction count as [|count IH]; intros i digits; cbn [doubleLimbs].
  - left. exists digits. split; reflexivity.
  - cbv zeta. destruct (decide (Base ≤ wrap32 (digits !!! i + digits !!! i))) as [_|_].
    + destruct (decide (S i < length (<[i := wrap32 (digits !!! i + digits !!! i)]> digits))%nat)
        as [_|_]; [|right; reflexivity].
      match goal with |- context [doubleLimbs count (S i) ?d] =>
        destruct (IH (S i) d) as [(doubled & Hrun & Hl)|Hrun] end.
      * left. exists doubled. split; [exact Hrun|].
        rewrite Hl, !length_insert. reflexivity.
      * right. exact Hrun.
    + match goal with |- context [doubleLimbs count (S i) ?d] =>
        destruct (IH (S i) d) as [(doubled & Hrun & Hl)|Hrun] end.
      * left. exists doubled. split; [exact Hrun|].
        rewrite Hl, length_insert. reflexivity.
      * right. exact Hrun.
Qed.

(** [x += x] on an object whose capacity is its length, or one limb more,
    reads a limb outside the array: after the first loop [thisDigit] is
    [digits + length + 1], beyond [thisEnd], and the array has [length + 1]
    limbs. *)
Lemma addAssignSelf_leaves_array (array : list Z) (n : nat) :
  (n ≤ length array ≤ n + 1)%nat → addAssignSelf array n = Fail OutOfBounds.
Proof.
  intros Hcap. unfold addAssignSelf.
  set (digits := if decide (length array < n + 1)%nat
                 then take n array ++ [0] else <[n := 0]> array).
  assert (length digits = (n + 1)%nat) as Hl.
  { unfold digits. destruct (decide (length array < n + 1)%nat).
    - rewrite length_app, length_take. cbn [length]. lia.
    - rewrite length_insert. lia. }
  clearbody digits.
  destruct (doubleLimbs_length (n + 1) 0 digits) as [(doubled & Hrun & Hd)|Hrun];
    rewrite Hrun; cbn [mbind outcome_bind]; [|reflexivity].
  rewrite Hd, Hl, Nat.sub_diag. reflexivity.
Qed.

(** X1. [operator+=] with a right operand that is another object returns
    the canonical magnitude of the sum whenever the left operand is not
    longer than the right one, or the sum fits in the limbs of the left
    operand (only then is the array not grown). With the left operand
    itself as right operand, [x += x], it reads outside its array when the
    capacity of [x] is its length or one limb more. *)
Theorem addition_adds (array : list Z) (n : nat) (other : list Z) :
  limbsOk (take n array) → limbsOk other → (1 ≤ n ≤ length array)%nat →
  ((n ≤ length other)%nat
   ∨ value (take n array) + value other < Base ^ Z.of_nat n) →
  (∃ sum, addAssignOn array n (Another other) = Ok sum
     ∧ value sum = value (take n array) + value other
     ∧ magnitude sum)
  ∧ ((length array ≤ n + 1)%nat → addAssignOn array n Itself = Fail OutOfBounds).
Proof.
  intros Hthis Hother Hn Hfit. split.
  - assert (length (take n array) = n) as Hl by (rewrite length_take; lia).
    eexists. split; [reflexivity|].
    apply addAssign_spec; rewrite ?Hl; try assumption. lia.
  - intros Hcap. apply addAssignSelf_leaves_array. lia.
Qed.

Lemma addition_adds_witness :
  (∃ sum, addAssignOn [99999999; 5] 2 (Another [1; 99999999; 7]) = Ok sum
     ∧ value sum = value (take 2 [99999999; 5]) + value [1; 99999999; 7]
     ∧ magnitude sum)
  ∧ ((length [99999999%Z; 5%Z] ≤ 2 + 1)%nat
     → addAssignOn [99999999; 5] 2 Itself = Fail OutOfBounds).
Proof.
  apply (addition_adds [99999999; 5] 2 [1; 99999999; 7]);
    [concrete|concrete|cbn; lia|left; cbn; lia].
Defined.

(** X2. [operator++] adds one: the limbs stay in range, a canonical array
    stays canonical, and the array grows by one limb at most. *)
Theorem increment_adds_one (this : list Z) :
  limbsOk this → (1 ≤ length this)%nat →
  value (increment this) = value this + 1
  ∧ limbsOk (increment this)
  ∧ (canonical this → canonical (increment this))
  ∧ (length this ≤ length (increment this) ≤ length this + 1)%nat.
Proof. apply increment_spec. Qed.

Lemma increment_adds_one_witness :
  value (increment [99999999; 99999999]) = value [99999999; 99999999] + 1
  ∧ limbsOk (increment [99999999; 99999999])
  ∧ (canonical [99999999; 99999999] → canonical (increment [99999999; 99999999]))
  ∧ (length [99999999%Z; 99999999%Z] ≤ length (increment [99999999%Z; 99999999%Z])
     ≤ length [99999999%Z; 99999999%Z] + 1)%nat.
Proof.
  apply (increment_adds_one [99999999; 99999999]); [concrete|cbn; lia].
Defined.

(** X3. [operator-=] on magnitudes returns the canonical magnitude of the
    difference when the right operand is not larger, and throws
    invalid-argument when it is. *)
Theorem subtraction_subtracts_or_throws (this other : list Z) :
  magnitude this → magnitude other →
  (value other ≤ value this →
   ∃ r, subAssign this other = Ok r
     ∧ value r = value this - value other ∧ magnitude r)
  ∧ (value this < value other →
     subAssign this other = Fail (invalid_argument SubtractionUnderflow)).
Proof.
  intros Hthis Hother. split.
  - apply subAssign_spec; assumption.
  - apply subAssign_underflow; assumption.
Qed.

Lemma subtraction_subtracts_or_throws_witness :
  (value [1] ≤ value [0; 1] →
   ∃ r, subAssign [0; 1] [1] = Ok r
     ∧ value r = value [0; 1] - value [1] ∧ magnitude r)
  ∧ (value [0; 1] < value [1] →
     subAssign [0; 1] [1] = Fail (invalid_argument SubtractionUnderflow)).
Proof.
  apply (subtraction_subtracts_or_throws [0; 1] [1]); concrete.
Defined.

(** X4. [operator--] on a magnitude throws invalid-argument at zero; from
    a positive value it returns limbs in range that stand for the value
    less one, in an array of the same length. *)
Theorem decrement_subtracts_one_or_throws (this : list Z) :
  magnitude this →
  (value this = 0 → decrement this = Fail (invalid_argument DecrementOfZero))
  ∧ (1 ≤ value this →
     ∃ r, decrement this = Ok r
       ∧ value r = value this - 1 ∧ limbsOk r ∧ length r = length this).
Proof.
  intros Hm. split.
  - intros Hz. rewrite (magnitude_value_zero this Hm Hz). apply decrement_zero.
  - intros Hpos. apply decrement_spec; [apply Hm|apply Hm|exact Hpos].
Qed.

Lemma decrement_subtracts_one_or_throws_witness :
  (value [0; 0; 3] = 0 → decrement [0; 0; 3] = Fail (invalid_argument DecrementOfZero))
  ∧ (1 ≤ value [0; 0; 3] →
     ∃ r, decrement [0; 0; 3] = Ok r
       ∧ value r = value [0; 0; 3] - 1 ∧ limbsOk r
       ∧ length r = length [0%Z; 0%Z; 3%Z]).
Proof.
  apply (decrement_subtracts_one_or_throws [0; 0; 3]); concrete.
Defined.

(** X5. [rightShift] by [k] limbs returns the canonical magnitude of the
    quotient by [Base ^ k]; a shift by the whole length or more gives
    zero. *)
Theorem right_shift_divides (this : list Z) (shiftAmount : nat) :
  limbsOk this →
  value (rightShift this shiftAmount) = value this / Base ^ Z.of_nat shiftAmount
  ∧ magnitude (rightShift this shiftAmount)
  ∧ ((length this ≤ shiftAmount)%nat → rightShift this shiftAmount = zero).
Proof.
  intros Hok. destruct (rightShift_spec this shiftAmount Hok) as [Hv Hm].
  split_and!; [exact Hv|exact Hm|].
  intros Hlong. unfold rightShift. rewrite decide_True by exact Hlong. reflexivity.
Qed.

Lemma right_shift_divides_witness :
  value (rightShift [5; 0; 7; 0] 1) = value [5; 0; 7; 0] / Base ^ Z.of_nat 1
  ∧ magnitude (rightShift [5; 0; 7; 0] 1)
  ∧ ((length [5%Z; 0%Z; 7%Z; 0%Z] ≤ 1)%nat → rightShift [5; 0; 7; 0] 1 = zero).
Proof. apply (right_shift_divides [5; 0; 7; 0] 1). concrete. Defined.

(** X6. [leftShift] by [k] limbs of a non-zero magnitude multiplies it by
    [Base ^ k] and lengthens it by [k] limbs. *)
Theorem left_shift_multiplies (this : list Z) (shiftAmount : nat) :
  magnitude this → 0 < value this →
  value (leftShift this shiftAmount) = value this * Base ^ Z.of_nat shiftAmount
  ∧ magnitude (leftShift this shiftAmount)
  ∧ length (leftShift this shiftAmount) = (length this + shiftAmount)%nat.
Proof. apply leftShift_spec. Qed.

Lemma left_shift_multiplies_witness :
  value (leftShift [5; 7] 2) = value [5; 7] * Base ^ Z.of_nat 2
  ∧ magnitude (leftShift [5; 7] 2)
  ∧ length (leftShift [5; 7] 2) = (length [5%Z; 7%Z] + 2)%nat.
Proof. apply (left_shift_multiplies [5; 7] 2); concrete. Defined.

(** X7. When one operand has fewer than 64 limbs, [operator*=] takes the
    schoolbook branch whatever the transform engine, and returns the
    canonical magnitude of the product. *)
Theorem schoolbook_product_exact (transformProduct : list Z → list Z → list Z)
    (this other : list Z) :
  limbsOk this → limbsOk other → (1 ≤ length this)%nat → (1 ≤ length other)%nat →
  (length this < 64 ∨ length other < 64)%nat →
  ∃ r, mulAssign transformProduct this other = Ok r
    ∧ r = schoolbookMultiply this other
    ∧ value r = value this * value other ∧ magnitude r.
Proof.
  intros Ht Ho Hlt Hlo Hshort. eexists. split; [|split; [reflexivity|]].
  - apply mulAssign_schoolbook. unfold BruteforceThreshold, len. lia.
  - apply schoolbookMultiply_spec; assumption.
Qed.

Lemma schoolbook_product_exact_witness :
  ∃ r, mulAssign referenceProduct [99999999; 99999999] [99999999] = Ok r
    ∧ r = schoolbookMultiply [99999999; 99999999] [99999999]
    ∧ value r = value [99999999; 99999999] * value [99999999] ∧ magnitude r.
Proof.
  apply (schoolbook_product_exact referenceProduct [99999999; 99999999] [99999999]);
    [concrete|concrete|cbn; lia|cbn; lia|left; cbn; lia].
Defined.

(** X8. On magnitudes, [operator==], [operator<], [operator>],
    [operator<=] and [operator>=] decide the corresponding relation between
    the values. *)
Theorem unsigned_comparisons_decide_order (a b : list Z) :
  magnitude a → magnitude b →
  eqb a b = (value a =? value b)
  ∧ ltb a b = (value a <? value b)
  ∧ gtb a b = (value b <? value a)
  ∧ leb a b = (value a <=? value b)
  ∧ geb a b = (value b <=? value a).
Proof.
  intros Ha Hb. split_and!.
  - apply eqb_spec; assumption.
  - apply ltb_spec; assumption.
  - apply gtb_spec; assumption.
  - apply leb_spec; assumption.
  - apply geb_spec; assumption.
Qed.

Lemma unsigned_comparisons_decide_order_witness :
  eqb [5; 7] [6; 7] = (value [5; 7] =? value [6; 7])
  ∧ ltb [5; 7] [6; 7] = (value [5; 7] <? value [6; 7])
  ∧ gtb [5; 7] [6; 7] = (value [6; 7] <? value [5; 7])
  ∧ leb [5; 7] [6; 7] = (value [5; 7] <=? value [6; 7])
  ∧ geb [5; 7] [6; 7] = (value [6; 7] <=? value [5; 7]).
Proof. apply (unsigned_comparisons_decide_order [5; 7] [6; 7]); concrete. Defined.

(** X9. For two arrays of the same length with limbs in range, the sign of
    the result of [reverseCompare] is the sign of the difference of the
    values. *)
Theorem reverseCompare_sign (a b : list Z) :
  limbsOk a → limbsOk b → length a = length b →
  Z.sgn (reverseCompare a b) = Z.sgn (value a - value b).
Proof. apply reverseCompare_sgn. Qed.

Lemma reverseCompare_sign_witness :
  Z.sgn (reverseCompare [9; 3] [1; 4]) = Z.sgn (value [9; 3] - value [1; 4]).
Proof. apply (reverseCompare_sign [9; 3] [1; 4]); concrete. Defined.

(** X10. The conversion to [bool] of a magnitude is true exactly when its
    value is not zero. *)
Theorem bool_conversion_tests_zero (this : list Z) :
  magnitude this → (toBool this = true ↔ value this ≠ 0).
Proof.
  intros Hm. rewrite (toBool_magnitude this Hm).
  destruct (Z.eqb_spec (value this) 0); cbn [negb]; split;
    try congruence; try lia; try (intros _; reflexivity).
Qed.

Lemma bool_conversion_tests_zero_witness :
  toBool [0; 2] = true ↔ value [0; 2] ≠ 0.
Proof. apply (bool_conversion_tests_zero [0; 2]). concrete. Defined.

(** X11. The loop that ends the operators, which drops zero limbs from the
    top while more than one limb is left, keeps the value and the ranges of
    the limbs, leaves a canonical array, and changes nothing in an array
    that is canonical already. *)
Theorem trailing_loop_canonicalises (digits : list Z) :
  (1 ≤ length digits)%nat →
  value (trim digits) = value digits
  ∧ canonical (trim digits)
  ∧ (limbsOk digits → limbsOk (trim digits))
  ∧ (canonical digits → trim digits = digits).
Proof.
  intros Hlen. split_and!.
  - apply value_trim.
  - apply canonical_trim. exact Hlen.
  - apply limbsOk_trim.
  - apply trim_canonical.
Qed.

Lemma trailing_loop_canonicalises_witness :
  value (trim [4; 0; 0]) = value [4; 0; 0]
  ∧ canonical (trim [4; 0; 0])
  ∧ (limbsOk [4; 0; 0] → limbsOk (trim [4; 0; 0]))
  ∧ (canonical [4; 0; 0] → trim [4; 0; 0] = [4; 0; 0]).
Proof. apply (trailing_loop_canonicalises [4; 0; 0]). cbn. lia. Defined.

(** X12. The string constructor throws invalid-argument on the empty
    string and on a string that holds a character other than a digit. On a
    non-empty string of digits it builds a magnitude when the string has
    fewer than [2 ^ 32 - 7] characters; for the seven sizes from
    [2 ^ 32 - 7] on it allocates no limb and stores the leading limb outside
    the array. *)
Theorem parse_rejects_bad_strings (s : string) :
  (s = ""%string → parse s = Fail (invalid_argument EmptyString))
  ∧ (s ≠ ""%string → forallb isdigit (codes s) = false →
     parse s = Fail (invalid_argument NonDigitCharacter))
  ∧ (s ≠ ""%string → forallb isdigit (codes s) = true →
     Z.of_nat (String.length s) + 7 < 2 ^ 32 →
     ∃ d, parse s = Ok d ∧ magnitude d)
  ∧ (forallb isdigit (codes s) = true →
     2 ^ 32 - 7 ≤ Z.of_nat (String.length s) < 2 ^ 32 →
     parse s = Fail OutOfBounds).
Proof.
  split_and!.
  - intros ->. reflexivity.
  - intros Hne Hbad. unfold parse. cbv zeta.
    destruct (Nat.eqb_spec (length (codes s)) 0) as [Hz|_].
    { rewrite length_codes in Hz. destruct s; [contradiction|discriminate]. }
    rewrite Hbad. reflexivity.
  - intros Hne Hgood Hsize.
    assert (1 ≤ length (codes s))%nat as Hlen.
    { rewrite length_codes. destruct s; [contradiction|cbn; lia]. }
    destruct (parse_spec s Hlen (proj2 (allDigits_forallb _) Hgood))
      as (d & Hrun & Hm & _).
    { rewrite length_codes. exact Hsize. }
    exists d. split; assumption.
  - intros Hgood Hsize. rewrite <- length_codes in Hsize.
    unfold parse. cbv zeta.
    destruct (Nat.eqb_spec (length (codes s)) 0) as [Hz|_]; [lia|].
    rewrite Hgood. cbn [negb VALIDITY_CHECK mbind outcome_bind].
    rewrite wrap32_small by lia. apply construct_wraps.
    rewrite Nat2Z.id. exact Hsize.
Qed.

Lemma parse_rejects_bad_strings_witness :
  parse "12a4" = Fail (invalid_argument NonDigitCharacter).
Proof.
  apply (parse_rejects_bad_strings "12a4"); [discriminate|reflexivity].
Defined.

(** X13. On two digit characters, the lookup of [detail::InputHelper]
    gives the two-digit number they write. *)
Theorem InputHelper_reads_two_digits (characters : list Z) (offset : nat) (c0 c1 : Z) :
  characters !! offset = Some c0 → characters !! S offset = Some c1 →
  48 ≤ c0 ≤ 57 → 48 ≤ c1 ≤ 57 →
  InputHelper characters offset = (c0 - 48) * 10 + (c1 - 48).
Proof. apply InputHelper_digits. Qed.

Lemma InputHelper_reads_two_digits_witness :
  InputHelper [49; 52; 50] 1 = (52 - 48) * 10 + (50 - 48).
Proof.
  apply (InputHelper_reads_two_digits [49; 52; 50] 1 52 50);
    [reflexivity|reflexivity|lia|lia].
Defined.

(** X14. For a number below 10000, the lookup of [detail::OutputHelper]
    gives its four decimal digits as characters, the most significant
    first. *)
Theorem OutputHelper_writes_four_digits (v : Z) :
  0 ≤ v < 10000 →
  OutputHelper v = [48 + v / 1000; 48 + v / 100 mod 10; 48 + v / 10 mod 10; 48 + v mod 10]
  ∧ decimal (OutputHelper v) = v.
Proof.
  intros Hv. split; [apply OutputHelper_digits; exact Hv|].
  apply OutputHelper_spec. exact Hv.
Qed.

Lemma OutputHelper_writes_four_digits_witness :
  OutputHelper 407
  = [48 + 407 / 1000; 48 + 407 / 100 mod 10; 48 + 407 / 10 mod 10; 48 + 407 mod 10]
  ∧ decimal (OutputHelper 407) = 407.
Proof. apply (OutputHelper_writes_four_digits 407). lia. Defined.

(** * Signed arithmetic *)

Lemma normalize_spec (r : SignedInteger.t) :
  magnitude (SignedInteger.absolute r) →
  signedOk (SignedInteger.normalize r)
  ∧ signedValue (SignedInteger.normalize r) = signedValue r.
Proof.
  intros Hm. destruct r as [R s].
  unfold SignedInteger.normalize, signedOk, signedValue.
  cbn [SignedInteger.absolute SignedInteger.sign] in *.
  rewrite (toBool_magnitude R Hm).
  destruct (Z.eqb_spec (value R) 0) as [E|E]; destruct s; cbn [negb andb];
    split_and!; try assumption; try reflexivity; try lia; try congruence.
Qed.

Lemma subtractMagnitudes_spec (x y : SignedInteger.t) :
  magnitude (SignedInteger.absolute x) → magnitude (SignedInteger.absolute y) →
  ∃ r, SignedInteger.subtractMagnitudes x y = Ok r
    ∧ magnitude (SignedInteger.absolute r)
    ∧ signedValue r
      = if SignedInteger.sign x
        then - (value (SignedInteger.absolute x) - value (SignedInteger.absolute y))
        else value (SignedInteger.absolute x) - value (SignedInteger.absolute y).
Proof.
  intros HX HY. destruct x as [X sx], y as [Y sy].
  unfold SignedInteger.subtractMagnitudes, signedValue.
  cbn [SignedInteger.absolute SignedInteger.sign] in *.
  rewrite (ltb_spec X Y HX HY).
  destruct (Z.ltb_spec (value X) (value Y)) as [Hlt|Hge].
  - destruct (subAssign_spec Y X HY HX ltac:(lia)) as (D & HD & HDv & HDm).
    rewrite HD. cbn [mbind outcome_bind]. eexists. split; [reflexivity|].
    cbn [SignedInteger.absolute SignedInteger.sign].
    split; [exact HDm|]. destruct sx; cbn [negb]; lia.
  - destruct (subAssign_spec X Y HX HY Hge) as (D & HD & HDv & HDm).
    rewrite HD. cbn [mbind outcome_bind]. eexists. split; [reflexivity|].
    cbn [SignedInteger.absolute SignedInteger.sign].
    split; [exact HDm|]. destruct sx; lia.
Qed.

(** X15. [operator+=] on signed values with a right operand that is
    another object, and [operator-=], return the sum and the difference,
    with the invariant of signed values kept, whenever the addition of
    magnitudes they may call is within its precondition: the left
    magnitude is not longer than the right one, or their sum fits in the
    limbs of the left one. With the left operand itself as right
    operand, [x += x] adds the magnitude to itself and reads outside its
    array when the capacity is the length or one limb more. *)
Theorem signed_addition_and_subtraction (array : list Z) (n : nat) (negative : bool)
    (y : SignedInteger.t) :
  signedOk (SignedInteger.Signed (take n array) negative) → signedOk y →
  (n ≤ length array)%nat →
  ((n ≤ length (SignedInteger.absolute y))%nat
   ∨ value (take n array) + value (SignedInteger.absolute y) < Base ^ Z.of_nat n) →
  (∃ r, SignedInteger.addAssignOn array n negative (Another y) = Ok r
     ∧ signedOk r
     ∧ signedValue r
       = signedValue (SignedInteger.Signed (take n array) negative) + signedValue y)
  ∧ (∃ r, SignedInteger.subAssign (SignedInteger.Signed (take n array) negative) y = Ok r
       ∧ signedOk r
       ∧ signedValue r
         = signedValue (SignedInteger.Signed (take n array) negative) - signedValue y)
  ∧ ((length array ≤ n + 1)%nat →
     SignedInteger.addAssignOn array n negative Itself = Fail OutOfBounds).
Proof.
  intros [HX _] [HY _] Hn Hfit.
  cbn [SignedInteger.absolute SignedInteger.sign] in HX.
  assert (length (take n array) = n) as Hl by (rewrite length_take; lia).
  destruct (subtractMagnitudes_spec (SignedInteger.Signed (take n array) negative) y HX HY)
    as (D & HD & HDm & HDv).
  cbn [SignedInteger.addAssignOn].
  set (X := take n array) in *. clearbody X.
  destruct y as [Y sy].
  cbn [SignedInteger.absolute SignedInteger.sign] in *.
  destruct (addAssign_spec X Y (proj1 HX) (proj1 HY) ltac:(apply HX)
              ltac:(rewrite Hl; exact Hfit)) as [HSv HSm].
  unfold SignedInteger.addAssign, SignedInteger.subAssign.
  cbn [SignedInteger.absolute SignedInteger.sign].
  split_and!.
  - destruct (Bool.eqb negative sy) eqn:Hsign.
    + apply Bool.eqb_prop in Hsign. subst sy. cbn [mbind outcome_bind].
      eexists. split; [reflexivity|].
      destruct (normalize_spec (SignedInteger.Signed (addAssign X Y) negative) HSm)
        as [Hok Hv].
      split; [exact Hok|]. rewrite Hv. unfold signedValue.
      cbn [SignedInteger.absolute SignedInteger.sign]. destruct negative; lia.
    + rewrite HD. cbn [mbind outcome_bind]. eexists. split; [reflexivity|].
      destruct (normalize_spec D HDm) as [Hok Hv].
      split; [exact Hok|]. rewrite Hv, HDv. unfold signedValue.
      cbn [SignedInteger.absolute SignedInteger.sign].
      destruct negative, sy; try discriminate; lia.
  - destruct (Bool.eqb negative sy) eqn:Hsign; cbn [negb].
    + apply Bool.eqb_prop in Hsign. subst sy.
      rewrite HD. cbn [mbind outcome_bind]. eexists. split; [reflexivity|].
      destruct (normalize_spec D HDm) as [Hok Hv].
      split; [exact Hok|]. rewrite Hv, HDv. unfold signedValue.
      cbn [SignedInteger.absolute SignedInteger.sign]. destruct negative; lia.
    + cbn [mbind outcome_bind]. eexists. split; [reflexivity|].
      destruct (normalize_spec (SignedInteger.Signed (addAssign X Y) negative) HSm)
        as [Hok Hv].
      split; [exact Hok|]. rewrite Hv. unfold signedValue.
      cbn [SignedInteger.absolute SignedInteger.sign].
      destruct negative, sy; try discriminate; lia.
  - intros Hcap. rewrite addAssignSelf_leaves_array by lia. reflexivity.
Qed.

Lemma signed_addition_and_subtraction_witness :
  (∃ r, SignedInteger.addAssignOn [5] 1 true (Another (SignedInteger.Signed [2; 1] false))
        = Ok r
     ∧ signedOk r
     ∧ signedValue r = signedValue (SignedInteger.Signed (take 1 [5]) true)
                       + signedValue (SignedInteger.Signed [2; 1] false))
  ∧ (∃ r, SignedInteger.subAssign (SignedInteger.Signed (take 1 [5]) true)
            (SignedInteger.Signed [2; 1] false) = Ok r
       ∧ signedOk r
       ∧ signedValue r = signedValue (SignedInteger.Signed (take 1 [5]) true)
                         - signedValue (SignedInteger.Signed [2; 1] false))
  ∧ ((length [5%Z] ≤ 1 + 1)%nat →
     SignedInteger.addAssignOn [5] 1 true Itself = Fail OutOfBounds).
Proof.
  apply (signed_addition_and_subtraction [5] 1 true (SignedInteger.Signed [2; 1] false));
    [concrete; unfold Base in *; lia|concrete; unfold Base in *; lia
    |cbn; lia|left; cbn; lia].
Defined.

(** X16. When the magnitude of one operand has fewer than 64 limbs,
    [operator*=] on signed values returns the product, with the invariant
    of signed values kept, whatever the transform computes. *)
Theorem signed_multiplication (transformProduct : list Z → list Z → list Z)
    (x y : SignedInteger.t) :
  signedOk x → signedOk y →
  (len (SignedInteger.absolute x) < BruteforceThreshold
   ∨ len (SignedInteger.absolute y) < BruteforceThreshold) →
  ∃ r, SignedInteger.mulAssign transformProduct x y = Ok r
    ∧ signedOk r ∧ signedValue r = signedValue x * signedValue y.
Proof.
  intros [HX _] [HY _] Hcap. destruct x as [X sx], y as [Y sy].
  cbn [SignedInteger.absolute SignedInteger.sign] in *.
  destruct (mulAssign_short transformProduct X Y (proj1 HX) (proj1 HY)
              ltac:(apply HX) ltac:(apply HY) Hcap) as (P & HP & HPv & HPm).
  unfold SignedInteger.mulAssign. cbn [SignedInteger.absolute SignedInteger.sign].
  rewrite HP. cbn [mbind outcome_bind]. eexists. split; [reflexivity|].
  change (SignedInteger.Signed P (xorb sx sy && toBool P))
    with (SignedInteger.normalize (SignedInteger.Signed P (xorb sx sy))).
  destruct (normalize_spec (SignedInteger.Signed P (xorb sx sy)) HPm) as [Hok Hv].
  split; [exact Hok|]. rewrite Hv. unfold signedValue.
  cbn [SignedInteger.absolute SignedInteger.sign]. rewrite HPv.
  destruct sx, sy; cbn [xorb]; ring.
Qed.

Lemma signed_multiplication_witness :
  ∃ r, SignedInteger.mulAssign referenceProduct (SignedInteger.Signed [5; 7] true)
         (SignedInteger.Signed [3] true) = Ok r
    ∧ signedOk r
    ∧ signedValue r = signedValue (SignedInteger.Signed [5; 7] true)
                      * signedValue (SignedInteger.Signed [3] true).
Proof.
  apply (signed_multiplication referenceProduct (SignedInteger.Signed [5; 7] true)
           (SignedInteger.Signed [3] true));
    [concrete; unfold Base in *; lia|concrete; unfold Base in *; lia
    |left; reflexivity].
Defined.

(** X17. [operator/=] on signed values throws invalid-argument when the
    divisor is zero. For a divisor that is not zero it returns the
    quotient rounded toward zero, with the invariant of signed values
    kept, whatever the transform computes, when the magnitude of the
    dividend or of the divisor has fewer than 64 limbs, or that of the
    dividend has at most 56 limbs more than that of the divisor. *)
Theorem signed_division (transformProduct : list Z → list Z → list Z)
    (fuel : nat) (x y : SignedInteger.t) :
  (46 ≤ fuel)%nat → signedOk x → signedOk y →
  (value (SignedInteger.absolute y) = 0 →
   SignedInteger.divAssign transformProduct fuel x y
   = Fail (invalid_argument DivisorIsZero))
  ∧ (value (SignedInteger.absolute y) ≠ 0 →
     (len (SignedInteger.absolute x) < BruteforceThreshold
      ∨ len (SignedInteger.absolute y) < BruteforceThreshold
      ∨ (len (SignedInteger.absolute x) ≤ len (SignedInteger.absolute y) + 56
         ∧ len (SignedInteger.absolute x) + 64 < 2 ^ 32)) →
     ∃ r, SignedInteger.divAssign transformProduct fuel x y = Ok r
       ∧ signedOk r
       ∧ signedValue r = Z.quot (signedValue x) (signedValue y)).
Proof.
  intros Hfuel [HX _] [HY _]. destruct x as [X sx], y as [Y sy].
  cbn [SignedInteger.absolute SignedInteger.sign] in *.
  unfold SignedInteger.divAssign. cbn [SignedInteger.absolute SignedInteger.sign].
  split.
  - intros Hz. rewrite (toBool_zero Y HY Hz). reflexivity.
  - intros Hnz Hcap. pose proof (value_nonneg Y (proj1 HY)) as HY0.
    assert (0 < value Y) as HYpos by lia.
    destruct (divAssign_modAssign_spec transformProduct fuel X Y Hfuel HX HY
                HYpos Hcap) as (q & r & Hdiv & _ & Hq & Hr & Hsum & Hrem).
    rewrite (toBool_nonzero Y HY HYpos), Hdiv. cbn [VALIDITY_CHECK mbind outcome_bind].
    eexists. split; [reflexivity|].
    destruct (normalize_spec (SignedInteger.Signed q (xorb sx sy)) Hq) as [Hok Hv].
    split; [exact Hok|]. rewrite Hv. unfold signedValue.
    cbn [SignedInteger.absolute SignedInteger.sign].
    pose proof (value_nonneg X (proj1 HX)) as HX0.
    assert (value q = value X / value Y) as Hquot.
    { apply (Z.div_unique_pos _ _ _ (value r)); lia. }
    assert (Z.quot (value X) (value Y) = value q) as Hq'.
    { rewrite Z.quot_div_nonneg by lia. symmetry. exact Hquot. }
    destruct sx, sy; cbn [xorb];
      rewrite ?Z.quot_opp_l, ?Z.quot_opp_r, ?Z.opp_involutive, ?Hq' by lia;
      reflexivity.
Qed.

Lemma signed_division_witness :
  (value (SignedInteger.absolute (SignedInteger.Signed [3] false)) = 0 →
   SignedInteger.divAssign referenceProduct 46 (SignedInteger.Signed [7; 1] true)
     (SignedInteger.Signed [3] false)
   = Fail (invalid_argument DivisorIsZero))
  ∧ (value (SignedInteger.absolute (SignedInteger.Signed [3] false)) ≠ 0 →
     (len (SignedInteger.absolute (SignedInteger.Signed [7; 1] true)) < BruteforceThreshold
      ∨ len (SignedInteger.absolute (SignedInteger.Signed [3] false)) < BruteforceThreshold
      ∨ (len (SignedInteger.absolute (SignedInteger.Signed [7; 1] true))
         ≤ len (SignedInteger.absolute (SignedInteger.Signed [3] false)) + 56
         ∧ len (SignedInteger.absolute (SignedInteger.Signed [7; 1] true)) + 64 < 2 ^ 32)) →
     ∃ r, SignedInteger.divAssign referenceProduct 46 (SignedInteger.Signed [7; 1] true)
            (SignedInteger.Signed [3] false) = Ok r
       ∧ signedOk r
       ∧ signedValue r = Z.quot (signedValue (SignedInteger.Signed [7; 1] true))
                           (signedValue (SignedInteger.Signed [3] false))).
Proof.
  apply (signed_division referenceProduct 46 (SignedInteger.Signed [7; 1] true)
           (SignedInteger.Signed [3] false));
    [lia|concrete; unfold Base in *; lia|concrete; unfold Base in *; lia].
Defined.

(** X18. For signed values that satisfy the representation invariant,
    [operator>], [operator<=] and [operator>=] decide the corresponding
    relation between the integers. *)
Theorem signed_order_comparisons (x y : SignedInteger.t) :
  signedOk x → signedOk y →
  (SignedInteger.gtb x y = true ↔ signedValue y < signedValue x)
  ∧ (SignedInteger.leb x y = true ↔ signedValue x ≤ signedValue y)
  ∧ (SignedInteger.geb x y = true ↔ signedValue y ≤ signedValue x).
Proof.
  intros [Hx Hx0] [Hy Hy0].
  unfold SignedInteger.gtb, SignedInteger.leb, SignedInteger.geb, signedValue.
  pose proof (value_nonneg _ (proj1 Hx)) as Hvx.
  pose proof (value_nonneg _ (proj1 Hy)) as Hvy.
  rewrite (ltb_spec _ _ Hx Hy), (gtb_spec _ _ Hx Hy), (leb_spec _ _ Hx Hy),
    (geb_spec _ _ Hx Hy).
  destruct (SignedInteger.sign x) eqn:Sx, (SignedInteger.sign y) eqn:Sy;
    cbn [negb orb andb];
    rewrite ?Z.ltb_lt, ?Z.leb_le.
  - split_and!; split; lia.
  - assert (value (SignedInteger.absolute x) ≠ 0)
      by (intros E; specialize (Hx0 E); congruence).
    split_and!; split; try lia; try discriminate; try (intros _; reflexivity).
  - assert (value (SignedInteger.absolute y) ≠ 0)
      by (intros E; specialize (Hy0 E); congruence).
    split_and!; split; try lia; try discriminate; try (intros _; reflexivity).
  - split_and!; split; lia.
Qed.

Lemma signed_order_comparisons_witness :
  (SignedInteger.gtb (SignedInteger.Signed [5; 7] true) (SignedInteger.Signed [3] false) = true
   ↔ signedValue (SignedInteger.Signed [3] false) < signedValue (SignedInteger.Signed [5; 7] true))
  ∧ (SignedInteger.leb (SignedInteger.Signed [5; 7] true) (SignedInteger.Signed [3] false) = true
     ↔ signedValue (SignedInteger.Signed [5; 7] true) ≤ signedValue (SignedInteger.Signed [3] false))
  ∧ (SignedInteger.geb (SignedInteger.Signed [5; 7] true) (SignedInteger.Signed [3] false) = true
     ↔ signedValue (SignedInteger.Signed [3] false) ≤ signedValue (SignedInteger.Signed [5; 7] true)).
Proof.
  apply (signed_order_comparisons (SignedInteger.Signed [5; 7] true)
           (SignedInteger.Signed [3] false));
    concrete; unfold Base in *; lia.
Defined.

(** * Native unsigned integers *)

Lemma unsignedLimbs_spec (bits : Z) :
  Base < 2 ^ bits →
  ∀ (room : nat) (v : Z),
    0 ≤ v < 2 ^ 32 → v < Base ^ Z.of_nat room → (1 ≤ room)%nat →
    ∃ d, unsignedLimbs room bits v = Ok d
      ∧ limbsOk d ∧ value d = v ∧ (1 ≤ length d)%nat
      ∧ (0 < v → d !!! (length d - 1)%nat ≠ 0)
      ∧ (v = 0 → length d = 1%nat).
Proof.
  intros Hbits. induction room as [|room IH]; intros v Hv Hroom Hone; [lia|].
  cbn [unsignedLimbs]. cbv zeta.
  rewrite (wrap32_small v) by lia.
  rewrite (Z.mod_small Base (2 ^ bits)) by (rewrite Base_eq in *; lia).
  pose proof (Z.div_mod v Base ltac:(rewrite Base_eq; lia)) as Hdm.
  pose proof (Z.mod_pos_bound v Base ltac:(rewrite Base_eq; lia)) as Hmod.
  destruct (decide (v / Base = 0)) as [Hz|Hnz].
  - exists [v mod Base]. split_and!.
    + reflexivity.
    + apply limbsOk_cons. split; [exact Hmod|apply limbsOk_nil].
    + cbn [value]. lia.
    + cbn. lia.
    + intros Hpos. cbn. lia.
    + intros _. reflexivity.
  - assert (0 < v / Base) as Hqpos.
    { assert (0 ≤ v / Base) by (apply Z.div_pos; rewrite ?Base_eq; lia). lia. }
    rewrite Base_pow_S in Hroom.
    assert (v / Base < Base ^ Z.of_nat room) as Hq.
    { apply Z.div_lt_upper_bound; [rewrite Base_eq; lia|exact Hroom]. }
    assert (1 ≤ room)%nat as Hroom1.
    { destruct room; [cbn in Hq; lia|lia]. }
    assert (v / Base < 2 ^ 32) as Hq32.
    { apply Z.le_lt_trans with v; [|lia].
      apply Z.div_le_upper_bound; [rewrite Base_eq; lia|].
      rewrite Base_eq. lia. }
    destruct (IH (v / Base) ltac:(lia) Hq Hroom1)
      as (d & Hrun & Hok & Hval & Hlen & Htop & _).
    rewrite Hrun. cbn [mbind outcome_bind]. exists (v mod Base :: d). split_and!.
    + reflexivity.
    + apply limbsOk_cons. split; assumption.
    + cbn [value]. rewrite Hval. lia.
    + cbn [length]. lia.
    + intros _. cbn [length].
      replace (S (length d) - 1)%nat with (S (length d - 1)) by lia.
      cbn [lookup_total list_lookup_total]. apply Htop. exact Hqpos.
    + intros Hv0. rewrite Hv0, Z.div_0_l in Hnz by (rewrite Base_eq; lia).
      contradiction.
Qed.

Lemma unsignedLimbs_magnitude (bits : Z) (room : nat) (v : Z) :
  Base < 2 ^ bits → 0 ≤ v < 2 ^ 32 → v < Base ^ Z.of_nat room → (1 ≤ room)%nat →
  ∃ d, unsignedLimbs room bits v = Ok d ∧ magnitude d ∧ value d = v.
Proof.
  intros Hbits Hv Hroom Hone.
  destruct (unsignedLimbs_spec bits Hbits room v Hv Hroom Hone)
    as (d & Hrun & Hok & Hval & Hlen & Htop & Hzero).
  exists d. split; [exact Hrun|]. split; [|exact Hval].
  split; [exact Hok|]. split; [exact Hlen|].
  intros Hlong. apply Htop.
  destruct (decide (0 < v)) as [|Hz]; [assumption|exfalso].
  specialize (Hzero ltac:(lia)). lia.
Qed.

Lemma fromUint32_spec (v : Z) :
  0 ≤ v < 2 ^ 32 → ∃ d, fromUint32 v = Ok d ∧ magnitude d ∧ value d = v.
Proof.
  intros Hv.
  unfold fromUint32, fromUnsigned. change (Z.to_nat ((9 + 7) ≫ 3)) with 2%nat.
  apply unsignedLimbs_magnitude; [rewrite Base_eq; lia|exact Hv| |lia].
  change (Base ^ Z.of_nat 2) with 10000000000000000. lia.
Qed.

Lemma fromUint64_spec (v : Z) :
  0 ≤ v < 2 ^ 32 → ∃ d, fromUint64 v = Ok d ∧ magnitude d ∧ value d = v.
Proof.
  intros Hv.
  unfold fromUint64, fromUnsigned. change (Z.to_nat ((19 + 7) ≫ 3)) with 3%nat.
  apply unsignedLimbs_magnitude; [rewrite Base_eq; lia|exact Hv| |lia].
  change (Base ^ Z.of_nat 3) with 1000000000000000000000000. lia.
Qed.

(** X19. The constructor from a 32-bit or a 64-bit unsigned integer builds
    the canonical magnitude of its argument when the argument is below
    [2 ^ 32]. The limbs are taken from the argument converted to 32 bits:
    from the 64-bit integer [2 ^ 32] the constructor builds the limbs
    [0, 42]. *)
Theorem native_unsigned_constructor (v : Z) :
  0 ≤ v < 2 ^ 32 →
  (∃ d, fromUint32 v = Ok d ∧ magnitude d ∧ value d = v)
  ∧ (∃ d, fromUint64 v = Ok d ∧ magnitude d ∧ value d = v)
  ∧ fromUint64 (2 ^ 32) = Ok [0; 42].
Proof.
  intros Hv. split_and!.
  - apply fromUint32_spec. exact Hv.
  - apply fromUint64_spec. exact Hv.
  - vm_compute. reflexivity.
Qed.

Lemma native_unsigned_constructor_witness :
  (∃ d, fromUint32 4294967295 = Ok d ∧ magnitude d ∧ value d = 4294967295)
  ∧ (∃ d, fromUint64 4294967295 = Ok d ∧ magnitude d ∧ value d = 4294967295)
  ∧ fromUint64 (2 ^ 32) = Ok [0; 42].
Proof. apply (native_unsigned_constructor 4294967295). lia. Defined.

Lemma toUnsigned_spec (bits : Z) (this : list Z) :
  0 ≤ bits → toUnsigned bits this = value this mod 2 ^ bits.
Proof.
  intros Hbits. assert (0 < 2 ^ bits) as Hm by (apply Z.pow_pos_nonneg; lia).
  unfold toUnsigned. induction this as [|x d IH]; cbn [fold_right value].
  - rewrite Z.mod_0_l by lia. reflexivity.
  - rewrite IH.
    rewrite Z.add_mod_idemp_r by lia.
    rewrite <- Z.add_mod_idemp_l by lia.
    rewrite <- Z.mul_mod by lia.
    rewrite Z.add_mod_idemp_l by lia.
    f_equal. ring.
Qed.

(** X20. The conversion to a 32-bit or a 64-bit unsigned integer returns
    the value of the array modulo [2 ^ 32] or [2 ^ 64]; so a magnitude
    built from a 32-bit unsigned integer converts back to that integer. *)
Theorem native_unsigned_conversion (bits : Z) (this : list Z) (v : Z) :
  bits = 32 ∨ bits = 64 → 0 ≤ v < 2 ^ 32 →
  toUnsigned bits this = value this mod 2 ^ bits
  ∧ ∃ d, fromUint32 v = Ok d ∧ toUnsigned 32 d = v ∧ toUnsigned 64 d = v.
Proof.
  intros Hbits Hv. split; [apply toUnsigned_spec; lia|].
  destruct (fromUint32_spec v Hv) as (d & Hrun & _ & Hval).
  exists d. split; [exact Hrun|].
  rewrite !toUnsigned_spec by lia. rewrite Hval.
  split; apply Z.mod_small; lia.
Qed.

Lemma native_unsigned_conversion_witness :
  toUnsigned 64 [67296; 1; 7; 3] = value [67296; 1; 7; 3] mod 2 ^ 64
  ∧ ∃ d, fromUint32 3000000000 = Ok d
      ∧ toUnsigned 32 d = 3000000000 ∧ toUnsigned 64 d = 3000000000.
Proof.
  apply (native_unsigned_conversion 64 [67296; 1; 7; 3] 3000000000); [right; reflexivity|lia].
Defined.

(** * Copies *)

Lemma limbs_inv (st : Memory.state) (this : positive) (o : Memory.object) (x : list Z) :
  Memory.objects st !! this = Some o → Memory.limbs st this = Some x →
  ∃ a, Memory.arrays st !! Memory.digits o = Some a ∧ take (Memory.length o) a = x.
Proof.
  intros Ho Hx. unfold Memory.limbs in Hx. rewrite Ho in Hx.
  cbn [mbind option_bind] in Hx.
  destruct (Memory.arrays st !! Memory.digits o) as [a|]; cbn in Hx; [|discriminate].
  exists a. split; [reflexivity|]. injection Hx as Hx. exact Hx.
Qed.

Lemma take_take_same (n : nat) (a b : list Z) :
  length (take n a) = n → take n (take n a ++ b) = take n a.
Proof.
  intros Hl. rewrite take_app_le by lia. rewrite take_take. f_equal. lia.
Qed.

(** X21. The copy constructor leaves the source object and every array of
    the store as they were, and gives the new object the limbs of the
    source in an array of its own: one that was not allocated before, so
    that no other object points to it, with the length of the source as
    capacity. *)
Theorem copy_construction (this other : positive) (st : Memory.state)
    (source : Memory.object) (x : list Z) :
  this ≠ other → Memory.objects st !! other = Some source →
  Memory.limbs st other = Some x →
  ∃ st' copy, Memory.copyConstruct this other st = Some st'
    ∧ Memory.objects st' !! this = Some copy
    ∧ Memory.arrays st !! Memory.digits copy = None
    ∧ Memory.digits copy ≠ Memory.digits source
    ∧ Memory.capacity copy = Memory.length source
    ∧ Memory.limbs st' this = Some x
    ∧ Memory.objects st' !! other = Some source
    ∧ Memory.limbs st' other = Some x
    ∧ (∀ pointer array, Memory.arrays st !! pointer = Some array →
         Memory.arrays st' !! pointer = Some array).
Proof.
  intros Hne Hs Hx.
  destruct (limbs_inv st other source x Hs Hx) as (a & Ha & Hax).
  unfold Memory.copyConstruct, Memory.allocate. rewrite Hs. cbn [mbind option_bind].
  rewrite Ha. cbn [mbind option_bind Memory.objects Memory.arrays].
  pose proof (is_fresh (dom (Memory.arrays st))) as Hnew.
  assert (Memory.arrays st !! fresh (dom (Memory.arrays st)) = None) as Hnone
    by (apply not_elem_of_dom; exact Hnew).
  assert (fresh (dom (Memory.arrays st)) ≠ Memory.digits source) as Hfresh
    by (intros E; rewrite E, Ha in Hnone; discriminate).
  eexists. eexists. split; [reflexivity|].
  unfold Memory.limbs. cbn [Memory.objects Memory.arrays].
  split_and!.
  - apply lookup_insert_eq.
  - exact Hnone.
  - exact Hfresh.
  - reflexivity.
  - rewrite lookup_insert_eq. cbn [mbind option_bind Memory.digits Memory.length].
    rewrite lookup_insert_eq. cbn [mbind option_bind]. rewrite take_take.
    rewrite Nat.min_id. rewrite Hax. reflexivity.
  - rewrite lookup_insert_ne by congruence. exact Hs.
  - rewrite lookup_insert_ne by congruence. rewrite Hs. cbn [mbind option_bind].
    rewrite lookup_insert_ne by exact Hfresh. rewrite Ha. cbn. rewrite Hax. reflexivity.
  - intros pointer array Hp. rewrite lookup_insert_ne; [exact Hp|].
    intros E. rewrite <- E, Hnone in Hp. discriminate.
Qed.

Lemma copy_construction_witness :
  ∃ st' copy, Memory.copyConstruct 1%positive 2%positive
           (Memory.State {[2%positive := Memory.Object 2 2 3]}
                         {[2%positive := [7; 1; 0]]}) = Some st'
    ∧ Memory.objects st' !! 1%positive = Some copy
    ∧ Memory.arrays (Memory.State {[2%positive := Memory.Object 2 2 3]}
                                  {[2%positive := [7; 1; 0]]}) !! Memory.digits copy = None
    ∧ Memory.digits copy ≠ Memory.digits (Memory.Object 2 2 3)
    ∧ Memory.capacity copy = Memory.length (Memory.Object 2 2 3)
    ∧ Memory.limbs st' 1%positive = Some [7; 1]
    ∧ Memory.objects st' !! 2%positive = Some (Memory.Object 2 2 3)
    ∧ Memory.limbs st' 2%positive = Some [7; 1]
    ∧ (∀ pointer array,
         Memory.arrays (Memory.State {[2%positive := Memory.Object 2 2 3]}
                                     {[2%positive := [7; 1; 0]]}) !! pointer = Some array →
         Memory.arrays st' !! pointer = Some array).
Proof.
  apply (copy_construction 1%positive 2%positive _ (Memory.Object 2 2 3) [7; 1]);
    [discriminate|vm_compute; reflexivity|vm_compute; reflexivity].
Defined.

(** X22. The copy assignment between two different objects that own
    different arrays leaves the source object and its array as they were
    and gives the target the limbs of the source, in an array that is not
    the one of the source: the array the target had, with its capacity,
    when that capacity holds the limbs; otherwise an array allocated after
    the one of the target was released, where no other array of the store
    lives. The assignment of an object to itself changes nothing. *)
Theorem copy_assignment (this other : positive) (st : Memory.state)
    (target source : Memory.object) (old x : list Z) :
  this ≠ other →
  Memory.objects st !! this = Some target →
  Memory.objects st !! other = Some source →
  Memory.digits target ≠ Memory.digits source →
  Memory.limbs st this = Some old →
  Memory.limbs st other = Some x → length x = Memory.length source →
  (∃ st' copy, Memory.copyAssign this other st = Some st'
     ∧ Memory.objects st' !! this = Some copy
     ∧ Memory.digits copy ≠ Memory.digits source
     ∧ (if decide (Memory.capacity target < Memory.length source)%nat
        then delete (Memory.digits target) (Memory.arrays st) !! Memory.digits copy = None
             ∧ Memory.capacity copy = Memory.length source
        else Memory.digits copy = Memory.digits target
             ∧ Memory.capacity copy = Memory.capacity target)
     ∧ Memory.limbs st' this = Some x
     ∧ Memory.objects st' !! other = Some source
     ∧ Memory.arrays st' !! Memory.digits source
       = Memory.arrays st !! Memory.digits source
     ∧ Memory.limbs st' other = Some x)
  ∧ Memory.copyAssign other other st = Some st.
Proof.
  intros Hne Ht Hs Hd Hold Hx Hlen.
  destruct (limbs_inv st other source x Hs Hx) as (a & Ha & Hax).
  destruct (limbs_inv st this target old Ht Hold) as (b & Hb & _).
  assert (length (take (Memory.length source) a) = Memory.length source) as Hfull
    by (rewrite Hax; exact Hlen).
  split.
  - unfold Memory.copyAssign. rewrite Ht, Hs. cbn [mbind option_bind].
    rewrite decide_True by exact Hd. rewrite Ha. cbn [mbind option_bind].
    destruct (decide (Memory.capacity target < Memory.length source)%nat) as [Hcap|Hcap].
    + unfold Memory.allocate, Memory.deallocate. cbn [Memory.objects Memory.arrays].
      pose proof (is_fresh (dom (delete (Memory.digits target) (Memory.arrays st))))
        as Hnew.
      assert (delete (Memory.digits target) (Memory.arrays st)
                !! fresh (dom (delete (Memory.digits target) (Memory.arrays st))) = None)
        as Hnone by (apply not_elem_of_dom; exact Hnew).
      assert (fresh (dom (delete (Memory.digits target) (Memory.arrays st)))
              ≠ Memory.digits source) as Hfresh.
      { intros E. rewrite E, lookup_delete_ne, Ha in Hnone by exact Hd. discriminate. }
      eexists. eexists. split; [reflexivity|].
      unfold Memory.limbs. cbn [Memory.objects Memory.arrays]. split_and!.
      * apply lookup_insert_eq.
      * exact Hfresh.
      * exact Hnone.
      * reflexivity.
      * rewrite lookup_insert_eq. cbn [mbind option_bind Memory.digits Memory.length].
        rewrite lookup_insert_eq. cbn [mbind option_bind]. rewrite take_take.
        rewrite Nat.min_id. rewrite Hax. reflexivity.
      * rewrite lookup_insert_ne by congruence. exact Hs.
      * rewrite lookup_insert_ne by exact Hfresh.
        rewrite lookup_delete_ne by exact Hd. exact Ha.
      * rewrite lookup_insert_ne by congruence. rewrite Hs. cbn [mbind option_bind].
        rewrite lookup_insert_ne by exact Hfresh.
        rewrite lookup_delete_ne by exact Hd. rewrite Ha. cbn. rewrite Hax. reflexivity.
    + rewrite Hb. cbn [mbind option_bind].
      eexists. eexists. split; [reflexivity|].
      unfold Memory.limbs. cbn [Memory.objects Memory.arrays]. split_and!.
      * apply lookup_insert_eq.
      * exact Hd.
      * reflexivity.
      * reflexivity.
      * rewrite lookup_insert_eq. cbn [mbind option_bind Memory.digits Memory.length].
        rewrite lookup_insert_eq. cbn [mbind option_bind].
        rewrite (take_take_same _ _ _ Hfull), Hax. reflexivity.
      * rewrite lookup_insert_ne by congruence. exact Hs.
      * rewrite lookup_insert_ne by exact Hd. exact Ha.
      * rewrite lookup_insert_ne by congruence. rewrite Hs. cbn [mbind option_bind].
        rewrite lookup_insert_ne by exact Hd. rewrite Ha. cbn. rewrite Hax. reflexivity.
  - unfold Memory.copyAssign. rewrite Hs. cbn [mbind option_bind].
    rewrite decide_False by (intros E; apply E; reflexivity). reflexivity.
Qed.

Lemma copy_assignment_witness :
  (∃ st' copy, Memory.copyAssign 1%positive 2%positive
            (Memory.State {[1%positive := Memory.Object 1 1 4; 2%positive := Memory.Object 2 2 2]}
                          {[1%positive := [9; 8; 7; 6]; 2%positive := [7; 1]]}) = Some st'
     ∧ Memory.objects st' !! 1%positive = Some copy
     ∧ Memory.digits copy ≠ Memory.digits (Memory.Object 2 2 2)
     ∧ (if decide (Memory.capacity (Memory.Object 1 1 4)
                   < Memory.length (Memory.Object 2 2 2))%nat
        then delete (Memory.digits (Memory.Object 1 1 4))
               (Memory.arrays
                  (Memory.State {[1%positive := Memory.Object 1 1 4; 2%positive := Memory.Object 2 2 2]}
                                {[1%positive := [9; 8; 7; 6]; 2%positive := [7; 1]]}))
             !! Memory.digits copy = None
             ∧ Memory.capacity copy = Memory.length (Memory.Object 2 2 2)
        else Memory.digits copy = Memory.digits (Memory.Object 1 1 4)
             ∧ Memory.capacity copy = Memory.capacity (Memory.Object 1 1 4))
     ∧ Memory.limbs st' 1%positive = Some [7; 1]
     ∧ Memory.objects st' !! 2%positive = Some (Memory.Object 2 2 2)
     ∧ Memory.arrays st' !! Memory.digits (Memory.Object 2 2 2)
       = Memory.arrays
           (Memory.State {[1%positive := Memory.Object 1 1 4; 2%positive := Memory.Object 2 2 2]}
                         {[1%positive := [9; 8; 7; 6]; 2%positive := [7; 1]]})
         !! Memory.digits (Memory.Object 2 2 2)
     ∧ Memory.limbs st' 2%positive = Some [7; 1])
  ∧ Memory.copyAssign 2%positive 2%positive
      (Memory.State {[1%positive := Memory.Object 1 1 4; 2%positive := Memory.Object 2 2 2]}
                    {[1%positive := [9; 8; 7; 6]; 2%positive := [7; 1]]})
    = Some (Memory.State {[1%positive := Memory.Object 1 1 4; 2%positive := Memory.Object 2 2 2]}
                         {[1%positive := [9; 8; 7; 6]; 2%positive := [7; 1]]}).
Proof.
  apply (copy_assignment 1%positive 2%positive _
           (Memory.Object 1 1 4) (Memory.Object 2 2 2) [9] [7; 1]);
    [discriminate|vm_compute; reflexivity|vm_compute; reflexivity|discriminate
    |vm_compute; reflexivity|vm_compute; reflexivity|reflexivity].
Defined.

(** * C strings *)

Lemma lor48_digit (k : Z) : 0 ≤ k ≤ 9 → Z.lor 48 k = 48 + k.
Proof.
  intros Hk.
  assert (k = 0 ∨ k = 1 ∨ k = 2 ∨ k = 3 ∨ k = 4 ∨ k = 5 ∨ k = 6 ∨ k = 7 ∨ k = 8 ∨ k = 9)
    as E by lia.
  repeat (destruct E as [E|E]); subst k; reflexivity.
Qed.

Lemma to_cstring_digits_eq (fuel : nat) :
  ∀ (number : Z) (suffix : list Z),
    to_cstring_digits fuel number suffix = to_string_digits fuel number suffix.
Proof.
  induction fuel as [|fuel IH]; intros number suffix; [reflexivity|].
  cbn [to_cstring_digits to_string_digits]. cbv zeta.
  rewrite lor48_digit by divlia.
  destruct (decide (number / 10 = 0)); [reflexivity|apply IH].
Qed.

Lemma to_string_length (number : Z) :
  0 ≤ number < Base → (1 ≤ length (to_string number) ≤ 8)%nat.
Proof.
  intros Hn. destruct (decide (number = 0)) as [->|Hz].
  { replace (to_string 0) with [48] by (vm_compute; reflexivity). cbn. lia. }
  destruct (to_string_spec number ltac:(lia)) as (c & rest & Hrun & _ & _ & _ & Hl).
  rewrite Hrun. cbn [length] in *. lia.
Qed.

Lemma lor_low_bits (l : Z) : 0 ≤ l → Z.lor (l ≪ 3) 7 = 8 * l + 7.
Proof.
  intros Hl. rewrite Z.shiftl_mul_pow2 by lia. change (2 ^ 3) with 8.
  assert (Z.land (l * 8) 7 = 0) as Hland.
  { change 7 with (Z.ones 3). rewrite Z.land_ones by lia.
    change (2 ^ 3) with 8. apply Z.mod_mul. lia. }
  pose proof (Z.add_lor_land (l * 8) 7). lia.
Qed.

(** X23. On a magnitude short enough for [length << 3 | 7] to fit in 32
    bits, the conversion to a C string writes within its buffer, whatever
    the size of the buffer at the call, and writes the same text as the
    conversion to [std::string]. *)
Theorem c_string_is_the_text (resultLength : Z) (this : list Z) :
  magnitude this → 8 * len this + 7 < 2 ^ 32 →
  toCString resultLength this = Ok (toString this).
Proof.
  intros [Hok [Hlen _]] Hsize. unfold toCString, toString.
  destruct (decide (length this = 0%nat)); [lia|].
  cbv zeta. rewrite to_cstring_digits_eq. fold (to_string (this !!! (length this - 1)%nat)).
  pose proof (limbsOk_lookup this (length this - 1)%nat Hok ltac:(lia)) as Hlimb.
  pose proof (to_string_length _ Hlimb) as Hdigits.
  unfold len in *.
  rewrite wrap32_small, lor_low_bits.
  - rewrite decide_True; [reflexivity|].
    destruct (decide (resultLength < 8 * Z.of_nat (length this) + 7)); lia.
  - lia.
  - rewrite Z.shiftl_mul_pow2 by lia. change (2 ^ 3) with 8. lia.
Qed.

Lemma c_string_is_the_text_witness :
  toCString 0 [5; 12345678; 90] = Ok (toString [5; 12345678; 90]).
Proof.
  apply (c_string_is_the_text 0 [5; 12345678; 90]);
    [concrete|vm_compute; reflexivity].
Defined.

(** * Signed decimal strings *)

Lemma codes_String (a : ascii) (s : string) : codes (String a s) = code a :: codes s.
Proof. reflexivity. Qed.

Lemma toString_characters (v : list Z) :
  magnitude v → 8 * len v + 7 < 2 ^ 32 →
  (1 ≤ length (codes (toString v)))%nat
  ∧ allDigits (codes (toString v))
  ∧ construct (codes (toString v))
      (Z.to_nat (wrap32 (Z.of_nat (length (codes (toString v)))))) = Ok v.
Proof.
  intros Hv Hsize.
  destruct (toString_spec v Hv) as (characters & Hs & Hd & Hval & _ & Hl).
  rewrite Hs, (codes_text characters (allDigits_bytes _ Hd)).
  unfold len in Hsize.
  split; [lia|]. split; [exact Hd|].
  rewrite wrap32_small, Nat2Z.id by lia.
  destruct (construct_spec characters Hd ltac:(lia) ltac:(lia))
    as (digits & Hrun & Hm & Hvalue).
  rewrite Hrun. f_equal.
  apply magnitude_inj; [exact Hm|exact Hv|]. rewrite Hvalue. exact Hval.
Qed.

Lemma allDigits_head (characters : list Z) :
  allDigits characters → (1 ≤ length characters)%nat → characters !!! 0%nat ≠ 45.
Proof.
  intros Hd Hl. destruct characters as [|c rest]; [cbn in Hl; lia|].
  apply Forall_cons in Hd as [Hc _]. cbn. lia.
Qed.

(** X24. Parsing the text of a signed value gives the value again; and a
    minus sign before a non-empty string of digits gives the negated
    number, with the sign cleared when the number is zero. (The sizes are
    those that fit the 32-bit length the string constructor reads.) *)
Theorem signed_text_round_trip (x : SignedInteger.t) (s : string) :
  signedOk x → 8 * len (SignedInteger.absolute x) + 8 < 2 ^ 32 →
  s ≠ ""%string → forallb isdigit (codes s) = true →
  Z.of_nat (String.length s) + 7 < 2 ^ 32 →
  SignedInteger.parse (SignedInteger.toString x) = Ok x
  ∧ ∃ r, SignedInteger.parse (String "-" s) = Ok r
      ∧ signedOk r ∧ signedValue r = - decimal (codes s).
Proof.
  intros [HX Hx0] Hxsize Hne Hdigits Hsize. split.
  - destruct x as [X sx]. cbn [SignedInteger.absolute SignedInteger.sign] in *.
    destruct (toString_characters X HX ltac:(lia)) as (Hlen & Hd & Hconstruct).
    pose proof (allDigits_head _ Hd Hlen) as Hhead.
    unfold SignedInteger.toString. cbn [SignedInteger.absolute SignedInteger.sign].
    rewrite (toBool_magnitude X HX).
    destruct sx; cbn [andb].
    + destruct (Z.eqb_spec (value X) 0) as [E|E]; [specialize (Hx0 E); discriminate|].
      cbn [negb]. unfold SignedInteger.parse. cbv zeta.
      rewrite codes_String. change (code "-") with 45.
      cbn [length Nat.eqb negb VALIDITY_CHECK mbind outcome_bind
           lookup_total list_lookup_total].
      rewrite bool_decide_eq_true_2 by reflexivity. cbn [drop]. rewrite ?drop_0.
      rewrite (proj1 (allDigits_forallb _) Hd).
      destruct (Nat.eqb_spec (length (codes (toString X))) 0) as [?|_]; [lia|].
      cbn [negb VALIDITY_CHECK mbind outcome_bind].
      rewrite Hconstruct. cbn [mbind outcome_bind]. rewrite (toBool_magnitude X HX).
      destruct (Z.eqb_spec (value X) 0) as [?|_]; [contradiction|]. reflexivity.
    + unfold SignedInteger.parse. cbv zeta.
      destruct (Nat.eqb_spec (length (codes (toString X))) 0) as [?|_]; [lia|].
      cbn [negb VALIDITY_CHECK mbind outcome_bind].
      rewrite bool_decide_eq_false_2 by exact Hhead.
      rewrite (proj1 (allDigits_forallb _) Hd).
      destruct (Nat.eqb_spec (length (codes (toString X))) 0) as [?|_]; [lia|].
      cbn [negb VALIDITY_CHECK mbind outcome_bind andb].
      rewrite Hconstruct. reflexivity.
  - apply allDigits_forallb in Hdigits.
    assert (1 ≤ length (codes s))%nat as Hlen.
    { rewrite length_codes. destruct s; [contradiction|cbn; lia]. }
    rewrite <- length_codes in Hsize.
    destruct (construct_spec (codes s) Hdigits Hlen Hsize)
      as (digits & Hrun & Hm & Hvalue).
    unfold SignedInteger.parse. cbv zeta.
    rewrite codes_String. change (code "-") with 45.
    cbn [length Nat.eqb negb VALIDITY_CHECK mbind outcome_bind
         lookup_total list_lookup_total].
    rewrite bool_decide_eq_true_2 by reflexivity. cbn [drop]. rewrite ?drop_0.
    rewrite (proj1 (allDigits_forallb _) Hdigits).
    destruct (Nat.eqb_spec (length (codes s)) 0) as [?|_]; [lia|].
    cbn [negb VALIDITY_CHECK mbind outcome_bind].
    rewrite wrap32_small, Nat2Z.id by lia.
    rewrite Hrun. cbn [mbind outcome_bind].
    eexists. split; [reflexivity|].
    change (SignedInteger.Signed digits (true && toBool digits))
      with (SignedInteger.normalize (SignedInteger.Signed digits true)).
    destruct (normalize_spec (SignedInteger.Signed digits true) Hm) as [Hok Hv].
    split; [exact Hok|]. rewrite Hv. unfold signedValue.
    cbn [SignedInteger.absolute SignedInteger.sign]. rewrite Hvalue. reflexivity.
Qed.

Lemma signed_text_round_trip_witness :
  SignedInteger.parse (SignedInteger.toString (SignedInteger.Signed [7; 1] true))
  = Ok (SignedInteger.Signed [7; 1] true)
  ∧ ∃ r, SignedInteger.parse (String "-" "000") = Ok r
      ∧ signedOk r ∧ signedValue r = - decimal (codes "000").
Proof.
  apply (signed_text_round_trip (SignedInteger.Signed [7; 1] true) "000");
    [concrete; unfold Base in *; lia|vm_compute; reflexivity|discriminate
    |vm_compute; reflexivity|vm_compute; reflexivity].
Defined.

(** * How the operators compose *)

(** X25. A shift to the left by [k] limbs followed by a shift to the right
    by [k] limbs gives a magnitude back, zero included. *)
Theorem shift_round_trip (this : list Z) (shiftAmount : nat) :
  magnitude this → rightShift (leftShift this shiftAmount) shiftAmount = this.
Proof.
  intros [Hok [Hlen Htop]]. unfold leftShift, rightShift.
  destruct (decide (length this = 0 ∨ shiftAmount = 0)%nat) as [[Hz|Hz]|Hk]; [lia| |].
  - subst shiftAmount. rewrite decide_False by lia. rewrite drop_0.
    apply trim_canonical. split; assumption.
  - rewrite decide_False by (rewrite length_app, length_replicate; lia).
    rewrite drop_app_length' by (symmetry; apply length_replicate).
    apply trim_canonical. split; assumption.
Qed.

Lemma shift_round_trip_witness :
  rightShift (leftShift [5; 0; 7] 3) 3 = [5; 0; 7].
Proof. apply (shift_round_trip [5; 0; 7] 3). concrete. Defined.

(** X26. Subtracting from a sum the operand that was added, another
    object than the left operand, gives the left operand back, whenever
    the addition is within its precondition. *)
Theorem addition_then_subtraction (array : list Z) (n : nat) (other : list Z) :
  magnitude (take n array) → magnitude other → (n ≤ length array)%nat →
  ((n ≤ length other)%nat
   ∨ value (take n array) + value other < Base ^ Z.of_nat n) →
  ∃ sum, addAssignOn array n (Another other) = Ok sum
    ∧ subAssign sum other = Ok (take n array).
Proof.
  intros Hthis Hother Hn Hfit.
  assert (length (take n array) = n) as Hl by (rewrite length_take; lia).
  destruct (addAssign_spec (take n array) other (proj1 Hthis) (proj1 Hother)
              ltac:(apply Hthis) ltac:(rewrite Hl; exact Hfit)) as [Hsum Hm].
  pose proof (value_nonneg _ (proj1 Hthis)) as Hnn.
  destruct (subAssign_spec (addAssign (take n array) other) other Hm Hother ltac:(lia))
    as (r & Hrun & Hv & Hr).
  eexists. split; [reflexivity|].
  rewrite Hrun. f_equal. apply magnitude_inj; [exact Hr|exact Hthis|lia].
Qed.

Lemma addition_then_subtraction_witness :
  ∃ sum, addAssignOn [99999999; 5] 2 (Another [1; 99999999; 7]) = Ok sum
    ∧ subAssign sum [1; 99999999; 7] = Ok (take 2 [99999999; 5]).
Proof.
  apply (addition_then_subtraction [99999999; 5] 2 [1; 99999999; 7]);
    [concrete|concrete|cbn; lia|left; cbn; lia].
Defined.

Lemma product_length (a b p : list Z) :
  limbsOk a → limbsOk b → (1 ≤ length a)%nat → magnitude p →
  value p = value a * value b → len p ≤ len a + len b.
Proof.
  intros Ha Hb Hla Hp Hv. apply length_le_of_value; [exact Hp|unfold len; lia|].
  pose proof (value_bounds a Ha) as [Ha0 Ha1].
  pose proof (value_bounds b Hb) as [Hb0 Hb1].
  unfold len. rewrite <- Nat2Z.inj_add, Base_pow_add, Hv.
  apply Z.mul_lt_mono_nonneg; assumption.
Qed.

(** X27. Dividing a product by a non-zero factor gives the other factor
    back, with remainder zero, whatever the transform computes, when the
    factor divided by has fewer than 64 limbs, or the other factor has at
    most 56 limbs: the product and the division then run through
    schoolbook products only. *)
Theorem product_then_division (transformProduct : list Z → list Z → list Z)
    (fuel : nat) (this other : list Z) :
  (46 ≤ fuel)%nat →
  magnitude this → magnitude other → 0 < value other →
  (len other < BruteforceThreshold
   ∨ (len this ≤ 56 ∧ len this + len other + 64 < 2 ^ 32)) →
  ∃ product, mulAssign transformProduct this other = Ok product
    ∧ divAssign transformProduct fuel product other = Ok this
    ∧ modAssign transformProduct fuel product other = Ok zero.
Proof.
  intros Hfuel Hthis Hother Hpos Hshort.
  destruct (mulAssign_short transformProduct this other (proj1 Hthis) (proj1 Hother)
              ltac:(apply Hthis) ltac:(apply Hother)) as (p & Hp & Hpv & Hpm).
  { unfold BruteforceThreshold in *. destruct Hshort as [?|[? _]]; [right|left]; lia. }
  exists p. split; [exact Hp|].
  pose proof (product_length this other p (proj1 Hthis) (proj1 Hother)
                ltac:(apply Hthis) Hpm Hpv) as Hlen.
  destruct (divAssign_modAssign_spec transformProduct fuel p other Hfuel Hpm Hother Hpos)
    as (q & r & Hq & Hr & Hqm & Hrm & Hsum & Hrem).
  { destruct Hshort as [?|[Hfew Hsize]]; [right; left; assumption|right; right].
    change (2 ^ 32) with 4294967296 in *. clear - Hlen Hfew Hsize. lia. }
  rewrite Hq, Hr.
  assert (value q = value this) as Hquot.
  { rewrite (Z.div_unique_pos (value p) (value other) (value q) (value r) Hrem)
      by (clear - Hsum; lia).
    rewrite Hpv. apply Z.div_mul. clear - Hpos. lia. }
  assert (value r = 0) as Hzero.
  { rewrite Hquot, Hpv in Hsum. clear - Hsum. lia. }
  split; f_equal.
  - apply magnitude_inj; assumption.
  - apply magnitude_value_zero; assumption.
Qed.

(** In the example the division of the product, of 84 or 85 limbs, by the
    factor of 64 limbs goes through the reciprocal. *)
Lemma product_then_division_witness :
  ∃ product, mulAssign referenceProduct (replicate 20 7 ++ [3]) (replicate 63 9 ++ [5])
             = Ok product
    ∧ divAssign referenceProduct 46 product (replicate 63 9 ++ [5])
      = Ok (replicate 20 7 ++ [3])
    ∧ modAssign referenceProduct 46 product (replicate 63 9 ++ [5]) = Ok zero.
Proof.
  apply (product_then_division referenceProduct 46 (replicate 20 7 ++ [3])
           (replicate 63 9 ++ [5]));
    [lia|evaluated|evaluated|evaluated|right; split; decided].
Defined.

(** X28. When the dividend or the divisor has fewer than 64 limbs, or the
    dividend is smaller than the divisor, [operator/=] and [operator%=]
    go by schoolbook division whatever the transform engine, and return
    the canonical magnitudes of the Euclidean quotient and remainder. *)
Theorem short_division_exact (transformProduct : list Z → list Z → list Z)
    (fuel : nat) (this other : list Z) :
  (28 ≤ fuel)%nat → magnitude this → magnitude other → 0 < value other →
  (len this < BruteforceThreshold ∨ len other < BruteforceThreshold
   ∨ value this < value other) →
  ∃ quotient remainder,
    divAssign transformProduct fuel this other = Ok quotient
    ∧ modAssign transformProduct fuel this other = Ok remainder
    ∧ magnitude quotient ∧ magnitude remainder
    ∧ value quotient = value this / value other
    ∧ value remainder = value this mod value other.
Proof.
  intros Hfuel Hthis Hother Hpos Hshort.
  destruct (bruteforceDivisionAndModulus_spec fuel this other Hfuel Hthis Hother Hpos)
    as (q & r & Hrun & Hq & Hr & Hsum & Hrem).
  assert (divisionAndModulus transformProduct fuel this other = Ok (q, r)) as Hdiv.
  { unfold divisionAndModulus. unfold bruteforceDivisionAndModulus in Hrun.
    destruct (ltb this other) eqn:Hlt; [exact Hrun|].
    rewrite (ltb_spec this other Hthis Hother) in Hlt. apply Z.ltb_ge in Hlt.
    rewrite decide_True by (clear - Hshort Hlt; lia).
    unfold bruteforceDivisionAndModulus.
    rewrite (ltb_spec this other Hthis Hother), (proj2 (Z.ltb_ge _ _) Hlt).
    exact Hrun. }
  exists q, r. unfold divAssign, modAssign.
  rewrite (toBool_magnitude other Hother).
  destruct (Z.eqb_spec (value other) 0) as [E|_]; [clear - E Hpos; lia|].
  cbn [negb VALIDITY_CHECK mbind outcome_bind]. rewrite Hdiv. cbn [mbind outcome_bind].
  split_and!; try reflexivity; try assumption.
  - apply (Z.div_unique_pos _ _ _ (value r)); [exact Hrem|clear - Hsum; lia].
  - apply (Z.mod_unique_pos _ _ (value q)); [exact Hrem|clear - Hsum; lia].
Qed.

Lemma short_division_exact_witness :
  ∃ quotient remainder,
    divAssign referenceProduct 28 [7; 1; 4] [3; 2] = Ok quotient
    ∧ modAssign referenceProduct 28 [7; 1; 4] [3; 2] = Ok remainder
    ∧ magnitude quotient ∧ magnitude remainder
    ∧ value quotient = value [7; 1; 4] / value [3; 2]
    ∧ value remainder = value [7; 1; 4] mod value [3; 2].
Proof.
  apply (short_division_exact referenceProduct 28 [7; 1; 4] [3; 2]);
    [lia|concrete|concrete|vm_compute; reflexivity|left; reflexivity].
Defined.
